(** * vmpy: a shallow embedding of [vm.py] and the properties of its
    orchestration code.

    [vm.py] drives [virsh], LVM and [dd]/[ssh] through [subprocess].  The
    embedding keeps the Python control flow (exceptions, [try]/[finally],
    early [return], the recursion of the conflict prompt) and threads one
    explicit [World]: the host (fleet, volume groups, logical volumes,
    files, bridges), the inventory cache [self.data], the parsed arguments
    [self.args], the record of every action attempted on the host, and the
    sources of non-determinism (failing actions, [random.randint],
    [raw_input]). *)

From Stdlib Require Import String Ascii List ZArith QArith Bool Arith Lia.
From Stdlib Require Import DecimalString.
Import ListNotations.

Local Close Scope Q_scope.
Local Open Scope list_scope.
Local Open Scope string_scope.

Set Implicit Arguments.

(* ====================================================================== *)
(** * Python strings *)
(* ====================================================================== *)

(** [s[-1]]: [None] stands for the [IndexError] of the empty string. *)
Fixpoint py_last (s : string) : option ascii :=
  match s with
  | EmptyString => None
  | String c EmptyString => Some c
  | String _ s' => py_last s'
  end.

(** [s[:-1]] *)
Fixpoint py_init (s : string) : string :=
  match s with
  | EmptyString => EmptyString
  | String _ EmptyString => EmptyString
  | String c s' => String c (py_init s')
  end.

(** [c.lower()] on one byte. *)
Definition py_lower (c : ascii) : ascii :=
  let n := nat_of_ascii c in
  if (65 <=? n)%nat && (n <=? 90)%nat then ascii_of_nat (n + 32) else c.

(** Python truthiness of a [str]. *)
Definition nonempty (s : string) : bool :=
  match s with EmptyString => false | _ => true end.

(** Python truthiness of a value that is [None] or a [str]. *)
Definition truthy (v : option string) : bool :=
  match v with Some s => nonempty s | None => false end.

(** [s.find(p) != -1] *)
Fixpoint contains (p s : string) : bool :=
  prefix p s ||
  match s with
  | EmptyString => false
  | String _ s' => contains p s'
  end.

(** Number of positions of [s] at which [p] starts. *)
Fixpoint occurrences (p s : string) : nat :=
  (if prefix p s then 1 else 0) +
  match s with
  | EmptyString => 0
  | String _ s' => occurrences p s'
  end.

(** [s.replace(old, new)] for a non-empty [old]: a left-to-right scan that
    replaces every non-overlapping occurrence.  [skip] counts the bytes of
    the occurrence just replaced that are still to be passed over. *)
Fixpoint replace_from (old new : string) (skip : nat) (s : string) : string :=
  match s with
  | EmptyString => EmptyString
  | String c s' =>
      match skip with
      | S k => replace_from old new k s'
      | O =>
          if prefix old s
          then new ++ replace_from old new (String.length old - 1) s'
          else String c (replace_from old new 0 s')
      end
  end.

(** [s.replace("", new)] puts [new] before every byte and at the end. *)
Fixpoint interleave (new s : string) : string :=
  match s with
  | EmptyString => new
  | String c s' => new ++ String c (interleave new s')
  end.

Definition py_replace (s old new : string) : string :=
  match old with
  | EmptyString => interleave new s
  | _ => replace_from old new 0 s
  end.

(* ---------------------------------------------------------------------- *)
(** ** [float()] on decimal numerals

    The sizes compared by the program are the decimal numerals printed by
    LVM with [--units=g] ("25.00g") or typed on the command line.  [float]
    is modelled by the rational a numeral denotes: an optional sign, digits,
    an optional point, digits, at least one digit in all.  For numerals of
    at most fifteen significant digits the binary64 value orders as the
    rational does.  Anything else is the [ValueError] of [float()]. *)

Definition digit_of (c : ascii) : option Z :=
  let n := nat_of_ascii c in
  if (48 <=? n)%nat && (n <=? 57)%nat then Some (Z.of_nat (n - 48)) else None.

(** Reads digits; returns the number read so far, how many digits, the rest. *)
Fixpoint read_digits (acc : Z) (cnt : nat) (s : string) : Z * nat * string :=
  match s with
  | EmptyString => (acc, cnt, EmptyString)
  | String c s' =>
      match digit_of c with
      | Some d => read_digits (10 * acc + d) (S cnt) s'
      | None => (acc, cnt, s)
      end
  end.

Definition unsigned_float (s : string) : option Q :=
  let '(ip, ni, rest) := read_digits 0 0 s in
  match rest with
  | EmptyString => if (0 <? ni)%nat then Some (inject_Z ip) else None
  | String "." frac =>
      let '(fp, nf, rest') := read_digits 0 0 frac in
      match rest' with
      | EmptyString =>
          if (0 <? ni + nf)%nat
          then Some (Qmake (ip * 10 ^ Z.of_nat nf + fp) (Z.to_pos (10 ^ Z.of_nat nf)))
          else None
      | _ => None
      end
  | _ => None
  end.

Definition py_float (s : string) : option Q :=
  match s with
  | String "-" s' => option_map Qopp (unsigned_float s')
  | String "+" s' => unsigned_float s'
  | _ => unsigned_float s
  end.

(** [a > b] on floats. *)
Definition float_gt (a b : Q) : bool := negb (Qle_bool a b).

(* ====================================================================== *)
(** * Exceptions and results *)
(* ====================================================================== *)

Inductive exn : Type :=
| ApplicationError (msg : string)      (* raised by [self._raise] *)
| UnboundLocalError (var : string)     (* a local read before assignment *)
| IndexError                           (* [s[-1]] on the empty string *)
| ValueError (arg : string)            (* [float()] on a non-numeral *)
| TypeError                            (* an operation on [None] *)
| OSError (path : string)              (* [os.unlink] of a missing file *)
| EOFError                             (* [raw_input] at end of input *)
| RuntimeError                         (* maximum recursion depth exceeded *)
| SystemExit (code : Z).               (* [sys.exit] *)

Inductive result (A : Type) : Type :=
| Ok (a : A)
| Raise (e : exn).

Arguments Ok {A} a.
Arguments Raise {A} e.

Definition is_ok {A} (r : result A) : bool :=
  match r with Ok _ => true | Raise _ => false end.

(** [str(e)]: an [ApplicationError] prints the [repr] of its value. *)
Definition py_repr (s : string) : string := "'" ++ s ++ "'".

Definition str_of_exn (e : exn) : string :=
  match e with
  | ApplicationError m => py_repr m
  | UnboundLocalError v =>
      "local variable '" ++ v ++ "' referenced before assignment"
  | IndexError => "string index out of range"
  | ValueError a => "could not convert string to float: " ++ a
  | TypeError => "unsupported operand"
  | OSError p => "[Errno 2] No such file or directory: " ++ py_repr p
  | EOFError => "EOF when reading a line"
  | RuntimeError => "maximum recursion depth exceeded"
  | SystemExit _ => "0"
  end.

(* ====================================================================== *)
(** * The host and the program state *)
(* ====================================================================== *)

(** A defined virtual machine as [virsh list --all] and [virsh dumpxml]
    show it.  A field is [None] where [_parse_vm_xml] leaves [None]. *)
Record Domain : Type := {
  dom_name : string;
  dom_status : string;
  dom_uuid : option string;
  dom_disk : option string;
  dom_disk_file : option string;
  dom_mac : option string;
  dom_bridge : option string;
  dom_xml : string
}.

(** A row of [vgs --units=g]. *)
Record VolumeGroup : Type := {
  vg_name : string;
  vg_free : string              (* the VFree column, "12.50g" *)
}.

(** A row of [lvs --units=g]. *)
Record LogicalVolume : Type := {
  lv_vg : string;
  lv_name : string;
  lv_size : string              (* the LSize column *)
}.

(** A metadata dictionary: the keys that [_create_vm_meta] writes to
    [meta.txt], and the key [logical_volume_size] that [_load_target_meta]
    adds.  A value read from the inventory may be [None]. *)
Record Meta : Type := {
  m_date : string;
  m_command : string;
  m_name : string;
  m_xml : string;
  m_image : string;
  m_image_size : option string;
  m_compression : string;
  m_logical_volume : option string;
  m_volume_group : option string;
  m_bridge : option string;
  m_mac : option string;
  m_uuid : option string;
  m_disk : option string;
  m_disk_file : option string;
  m_logical_volume_size : option string
}.

Definition set_m_name (m : Meta) (v : string) : Meta :=
  {| m_date := m_date m; m_command := m_command m; m_name := v;
     m_xml := m_xml m; m_image := m_image m; m_image_size := m_image_size m;
     m_compression := m_compression m;
     m_logical_volume := m_logical_volume m;
     m_volume_group := m_volume_group m; m_bridge := m_bridge m;
     m_mac := m_mac m; m_uuid := m_uuid m; m_disk := m_disk m;
     m_disk_file := m_disk_file m;
     m_logical_volume_size := m_logical_volume_size m |}.

Definition set_m_uuid (m : Meta) (v : option string) : Meta :=
  {| m_date := m_date m; m_command := m_command m; m_name := m_name m;
     m_xml := m_xml m; m_image := m_image m; m_image_size := m_image_size m;
     m_compression := m_compression m;
     m_logical_volume := m_logical_volume m;
     m_volume_group := m_volume_group m; m_bridge := m_bridge m;
     m_mac := m_mac m; m_uuid := v; m_disk := m_disk m;
     m_disk_file := m_disk_file m;
     m_logical_volume_size := m_logical_volume_size m |}.

Definition set_m_volume_group (m : Meta) (v : option string) : Meta :=
  {| m_date := m_date m; m_command := m_command m; m_name := m_name m;
     m_xml := m_xml m; m_image := m_image m; m_image_size := m_image_size m;
     m_compression := m_compression m;
     m_logical_volume := m_logical_volume m; m_volume_group := v;
     m_bridge := m_bridge m; m_mac := m_mac m; m_uuid := m_uuid m;
     m_disk := m_disk m; m_disk_file := m_disk_file m;
     m_logical_volume_size := m_logical_volume_size m |}.

Definition set_m_logical_volume (m : Meta) (v : option string) : Meta :=
  {| m_date := m_date m; m_command := m_command m; m_name := m_name m;
     m_xml := m_xml m; m_image := m_image m; m_image_size := m_image_size m;
     m_compression := m_compression m; m_logical_volume := v;
     m_volume_group := m_volume_group m; m_bridge := m_bridge m;
     m_mac := m_mac m; m_uuid := m_uuid m; m_disk := m_disk m;
     m_disk_file := m_disk_file m;
     m_logical_volume_size := m_logical_volume_size m |}.

Definition set_m_logical_volume_size (m : Meta) (v : option string) : Meta :=
  {| m_date := m_date m; m_command := m_command m; m_name := m_name m;
     m_xml := m_xml m; m_image := m_image m; m_image_size := m_image_size m;
     m_compression := m_compression m;
     m_logical_volume := m_logical_volume m;
     m_volume_group := m_volume_group m; m_bridge := m_bridge m;
     m_mac := m_mac m; m_uuid := m_uuid m; m_disk := m_disk m;
     m_disk_file := m_disk_file m; m_logical_volume_size := v |}.

Definition set_m_bridge (m : Meta) (v : option string) : Meta :=
  {| m_date := m_date m; m_command := m_command m; m_name := m_name m;
     m_xml := m_xml m; m_image := m_image m; m_image_size := m_image_size m;
     m_compression := m_compression m;
     m_logical_volume := m_logical_volume m;
     m_volume_group := m_volume_group m; m_bridge := v; m_mac := m_mac m;
     m_uuid := m_uuid m; m_disk := m_disk m; m_disk_file := m_disk_file m;
     m_logical_volume_size := m_logical_volume_size m |}.

Definition set_m_mac (m : Meta) (v : option string) : Meta :=
  {| m_date := m_date m; m_command := m_command m; m_name := m_name m;
     m_xml := m_xml m; m_image := m_image m; m_image_size := m_image_size m;
     m_compression := m_compression m;
     m_logical_volume := m_logical_volume m;
     m_volume_group := m_volume_group m; m_bridge := m_bridge m; m_mac := v;
     m_uuid := m_uuid m; m_disk := m_disk m; m_disk_file := m_disk_file m;
     m_logical_volume_size := m_logical_volume_size m |}.

Definition set_m_disk (m : Meta) (v : option string) : Meta :=
  {| m_date := m_date m; m_command := m_command m; m_name := m_name m;
     m_xml := m_xml m; m_image := m_image m; m_image_size := m_image_size m;
     m_compression := m_compression m;
     m_logical_volume := m_logical_volume m;
     m_volume_group := m_volume_group m; m_bridge := m_bridge m;
     m_mac := m_mac m; m_uuid := m_uuid m; m_disk := v;
     m_disk_file := m_disk_file m;
     m_logical_volume_size := m_logical_volume_size m |}.

(** What a file holds.  The JSON codec is kept abstract: encoding a metadata
    record gives a document that decodes to the same record, and no other
    text decodes. *)
Inductive FileData : Type :=
| Text (s : string)
| Json (m : Meta).

Record Host : Type := {
  h_domains : list Domain;
  h_vgs : list VolumeGroup;
  h_lvs : list LogicalVolume;
  h_files : list (string * FileData);
  h_dirs : list string;
  h_bridges : list string
}.

(** An entry of [self.data['vm_info']]: the domain with the three values
    [_return_lvm_info_by_path] adds. *)
Record VmInfo : Type := {
  vi_dom : Domain;
  vi_disk_size : option string;
  vi_logical_volume : option string;
  vi_volume_group : option string
}.

(** [self.data] *)
Record Data : Type := {
  d_vg_info : list VolumeGroup;
  d_lv_info : list LogicalVolume;
  d_vm_info : list VmInfo
}.

(** [self.args], the [argparse] namespace after [_load_arg_info].  An
    option that the sub-command does not define, or that was not given, is
    [None]. *)
Record Args : Type := {
  a_name : option string;
  a_source : string;
  a_remote : option string;
  a_identity_file : option string;
  a_compression : option string;
  a_overwrite : bool;
  a_volume_group : option string;
  a_logical_volume : option string;
  a_logical_volume_size : option string;
  a_bridge : option string;
  a_mac : option string;
  a_output_level : string;       (* one of "0" .. "4": argparse keeps the text *)
  a_block_size : string
}.

(** What the program attempts on the host. *)
Inductive Action : Type :=
| Spawn (argv : list string)               (* [subprocess.Popen] in [_execute] *)
| SpawnPipe (cmds : list (list string))    (* the pipeline of [_execute_queue] *)
| FileWrite (path : string)
| FileRead (path : string)
| FileUnlink (path : string)
| MakeDirs (path : string)
| RawInput (prompt : string).

Record Event : Type := {
  ev_action : Action;
  ev_ok : bool
}.

(** The whole state threaded through the program.  [w_fault n a] says that
    the action [a], attempted as the [n]-th action of the run, fails (a
    process exits non-zero, a file operation raises [IOError]).
    [w_random] and [w_next_random] are the generator behind
    [random.randint]; [w_stdin] the lines [raw_input] will read. *)
Record World : Type := {
  w_host : Host;
  w_data : Data;
  w_args : Args;
  w_now : string;
  w_trace : list Event;
  w_fault : nat -> Action -> bool;
  w_random : nat -> Z;
  w_next_random : nat;
  w_stdin : list string
}.

Definition set_host (w : World) (h : Host) : World :=
  {| w_host := h; w_data := w_data w; w_args := w_args w; w_now := w_now w;
     w_trace := w_trace w; w_fault := w_fault w; w_random := w_random w;
     w_next_random := w_next_random w; w_stdin := w_stdin w |}.

Definition set_data (w : World) (d : Data) : World :=
  {| w_host := w_host w; w_data := d; w_args := w_args w; w_now := w_now w;
     w_trace := w_trace w; w_fault := w_fault w; w_random := w_random w;
     w_next_random := w_next_random w; w_stdin := w_stdin w |}.

Definition log_event (w : World) (e : Event) : World :=
  {| w_host := w_host w; w_data := w_data w; w_args := w_args w; w_now := w_now w;
     w_trace := w_trace w ++ [e]; w_fault := w_fault w; w_random := w_random w;
     w_next_random := w_next_random w; w_stdin := w_stdin w |}.

Definition set_next_random (w : World) (n : nat) : World :=
  {| w_host := w_host w; w_data := w_data w; w_args := w_args w; w_now := w_now w;
     w_trace := w_trace w; w_fault := w_fault w; w_random := w_random w;
     w_next_random := n; w_stdin := w_stdin w |}.

Definition set_stdin (w : World) (l : list string) : World :=
  {| w_host := w_host w; w_data := w_data w; w_args := w_args w; w_now := w_now w;
     w_trace := w_trace w; w_fault := w_fault w; w_random := w_random w;
     w_next_random := w_next_random w; w_stdin := l |}.

(* ====================================================================== *)
(** * The monad of the program: state and exceptions *)
(* ====================================================================== *)

Definition M (A : Type) : Type := World -> result A * World.

Definition ret {A} (a : A) : M A := fun w => (Ok a, w).

Definition raise {A} (e : exn) : M A := fun w => (Raise e, w).

Definition bind {A B} (m : M A) (k : A -> M B) : M B :=
  fun w =>
    match m w with
    | (Ok a, w') => k a w'
    | (Raise e, w') => (Raise e, w')
    end.

Notation "x <- m ;; k" := (bind m (fun x => k))
  (at level 61, m at next level, right associativity).
Notation "m ;;; k" := (bind m (fun _ => k))
  (at level 61, right associativity).
Notation "' pat <- m ;; k" := (bind m (fun x => match x with pat => k end))
  (at level 61, pat pattern, m at next level, right associativity).

(** [try: body finally: fin].  An exception of [fin] replaces the outcome
    of [body]. *)
Definition try_finally {A} (body : M A) (fin : M unit) : M A :=
  fun w =>
    let '(r, w1) := body w in
    match fin w1 with
    | (Ok _, w2) => (r, w2)
    | (Raise e, w2) => (Raise e, w2)
    end.

(** [try: body except BaseException, e: handler(e)] *)
Definition try_except {A} (body : M A) (handler : exn -> M A) : M A :=
  fun w =>
    match body w with
    | (Ok a, w') => (Ok a, w')
    | (Raise e, w') => handler e w'
    end.

Definition get_world : M World := fun w => (Ok w, w).

Definition gets {A} (f : World -> A) : M A := fun w => (Ok (f w), w).

(** [self._raise(msg)] *)
Definition _raise {A} (msg : string) : M A := raise (ApplicationError msg).

(** [for x in l: body(x)] *)
Fixpoint for_each {A} (l : list A) (body : A -> M unit) : M unit :=
  match l with
  | [] => ret tt
  | x :: l' => body x ;;; for_each l' body
  end.

Definition when (b : bool) (m : M unit) : M unit := if b then m else ret tt.

Definition run {A} (m : M A) (w : World) : result A := fst (m w).
Definition exec {A} (m : M A) (w : World) : World := snd (m w).

(* ====================================================================== *)
(** * The host's side of the commands

    What [virsh], LVM and [ifconfig] do to the host when a command of the
    program reaches them.  [None] is a non-zero exit status.  Commands that
    only move bytes ([dd], [scp], [mkdir] over [ssh], the compressors) are
    accepted and leave the modelled host as it is; free space is not
    recomputed after a volume is created or removed. *)
(* ====================================================================== *)

Definition dev_path (vg lv : string) : string := "/dev/" ++ vg ++ "/" ++ lv.

Definition lv_path (l : LogicalVolume) : string := dev_path (lv_vg l) (lv_name l).

Definition find_lv_by_path (p : string) (lvs : list LogicalVolume)
  : option LogicalVolume :=
  find (fun l => lv_path l =? p) lvs.

Definition find_lv (vg lv : string) (lvs : list LogicalVolume)
  : option LogicalVolume :=
  find (fun l => (lv_vg l =? vg) && (lv_name l =? lv)) lvs.

Definition find_vg (vg : string) (vgs : list VolumeGroup) : option VolumeGroup :=
  find (fun g => vg_name g =? vg) vgs.

Definition find_domain (n : string) (ds : list Domain) : option Domain :=
  find (fun d => dom_name d =? n) ds.

Definition set_status (s : string) (d : Domain) : Domain :=
  {| dom_name := dom_name d; dom_status := s; dom_uuid := dom_uuid d;
     dom_disk := dom_disk d; dom_disk_file := dom_disk_file d;
     dom_mac := dom_mac d; dom_bridge := dom_bridge d; dom_xml := dom_xml d |}.

Definition update_domain (n : string) (f : Domain -> Domain) (ds : list Domain)
  : list Domain :=
  map (fun d => if dom_name d =? n then f d else d) ds.

Definition with_domains (h : Host) (ds : list Domain) : Host :=
  {| h_domains := ds; h_vgs := h_vgs h; h_lvs := h_lvs h; h_files := h_files h;
     h_dirs := h_dirs h; h_bridges := h_bridges h |}.

Definition with_lvs (h : Host) (lvs : list LogicalVolume) : Host :=
  {| h_domains := h_domains h; h_vgs := h_vgs h; h_lvs := lvs; h_files := h_files h;
     h_dirs := h_dirs h; h_bridges := h_bridges h |}.

Definition with_files (h : Host) (fs : list (string * FileData)) : Host :=
  {| h_domains := h_domains h; h_vgs := h_vgs h; h_lvs := h_lvs h; h_files := fs;
     h_dirs := h_dirs h; h_bridges := h_bridges h |}.

Definition with_dirs (h : Host) (ds : list string) : Host :=
  {| h_domains := h_domains h; h_vgs := h_vgs h; h_lvs := h_lvs h; h_files := h_files h;
     h_dirs := ds; h_bridges := h_bridges h |}.

Definition mem (s : string) (l : list string) : bool :=
  existsb (String.eqb s) l.

Definition lookup_file (p : string) (fs : list (string * FileData)) : option FileData :=
  option_map snd (find (fun kv => fst kv =? p) fs).

Definition remove_file (p : string) (fs : list (string * FileData))
  : list (string * FileData) :=
  filter (fun kv => negb (fst kv =? p)) fs.

Definition quiet : FileData := Text "".

(** [virsh <verb> <vm>] *)
Definition virsh_step (verb vm : string) (h : Host) : option Host :=
  match find_domain vm (h_domains h) with
  | None => None
  | Some d =>
      if verb =? "suspend" then
        if dom_status d =? "running"
        then Some (with_domains h (update_domain vm (set_status "paused") (h_domains h)))
        else None
      else if verb =? "resume" then
        if dom_status d =? "paused"
        then Some (with_domains h (update_domain vm (set_status "running") (h_domains h)))
        else None
      else if verb =? "destroy" then
        if dom_status d =? "shut off" then None
        else Some (with_domains h (update_domain vm (set_status "shut off") (h_domains h)))
      else if verb =? "undefine" then
        Some (with_domains h (filter (fun x => negb (dom_name x =? vm)) (h_domains h)))
      else Some h
  end.

(** [lvcreate -L <size> -n <name> /dev/<vg>] *)
Definition lvcreate_step (size name vg_path : string) (h : Host) : option Host :=
  match find (fun g => "/dev/" ++ vg_name g =? vg_path) (h_vgs h) with
  | None => None
  | Some g =>
      match find_lv (vg_name g) name (h_lvs h) with
      | Some _ => None
      | None =>
          Some (with_lvs h (h_lvs h ++
                  [{| lv_vg := vg_name g; lv_name := name; lv_size := size |}]))
      end
  end.

(** [lvcreate --snapshot -L <size> -n <name> <origin>]: the snapshot is a
    logical volume called [name] in the volume group of the origin. *)
Definition snapshot_step (size name origin : string) (h : Host) : option Host :=
  match find_lv_by_path origin (h_lvs h) with
  | None => None
  | Some o =>
      match find_lv (lv_vg o) name (h_lvs h) with
      | Some _ => None
      | None =>
          Some (with_lvs h (h_lvs h ++
                  [{| lv_vg := lv_vg o; lv_name := name; lv_size := size |}]))
      end
  end.

(** [lvremove -f <path>] *)
Definition lvremove_step (p : string) (h : Host) : option Host :=
  match find_lv_by_path p (h_lvs h) with
  | None => None
  | Some _ => Some (with_lvs h (filter (fun l => negb (lv_path l =? p)) (h_lvs h)))
  end.

(** The remote command of [ssh [-i file] host cmd...]. *)
Definition ssh_payload (argv : list string) : option (list string) :=
  match argv with
  | prog :: rest =>
      if prog =? "ssh" then
        match rest with
        | flag :: _ :: _ :: cmd => if flag =? "-i" then Some cmd else Some (tl rest)
        | _ :: cmd => Some cmd
        | [] => None
        end
      else None
  | [] => None
  end.

(** The far side of [ssh]: its files are those of [h_files] whose path
    starts with ["remote:"]. *)
Definition remote_key (p : string) : string := "remote:" ++ p.

Definition remote_step (cmd : list string) (h : Host) : option (FileData * Host) :=
  match cmd with
  | [a; b; p] =>
      if (a =? "test") && (b =? "-f") then
        match lookup_file (remote_key p) (h_files h) with
        | Some _ => Some (quiet, h)
        | None => None
        end
      else Some (quiet, h)
  | [a; p] =>
      if a =? "cat" then
        match lookup_file (remote_key p) (h_files h) with
        | Some d => Some (d, h)
        | None => None
        end
      else Some (quiet, h)
  | _ => Some (quiet, h)
  end.

Definition host_step (argv : list string) (h : Host) : option (FileData * Host) :=
  match ssh_payload argv with
  | Some cmd => remote_step cmd h
  | None =>
      match argv with
      | [a; b; c] =>
          if a =? "virsh" then option_map (pair quiet) (virsh_step b c h)
          else if (a =? "lvremove") && (b =? "-f")
          then option_map (pair quiet) (lvremove_step c h)
          else Some (quiet, h)
      | [a; b] =>
          if a =? "ifconfig"
          then if mem b (h_bridges h) then Some (quiet, h) else None
          else Some (quiet, h)
      | [a; b; c; d; e; f] =>
          if (a =? "lvcreate") && (b =? "-L") && (d =? "-n")
          then option_map (pair quiet) (lvcreate_step c e f h)
          else Some (quiet, h)
      | [a; b; c; d; e; f; g] =>
          if (a =? "lvcreate") && (b =? "--snapshot") && (c =? "-L") && (e =? "-n")
          then option_map (pair quiet) (snapshot_step d f g h)
          else Some (quiet, h)
      | _ => Some (quiet, h)
      end
  end.

(** [os.path.exists] *)
Definition path_exists (p : string) (h : Host) : bool :=
  match find_lv_by_path p (h_lvs h) with
  | Some _ => true
  | None =>
      mem p (h_dirs h) ||
      match lookup_file p (h_files h) with Some _ => true | None => false end
  end.

(* ====================================================================== *)
(** * Application utility functions *)
(* ====================================================================== *)

Definition join (sep : string) (l : list string) : string := String.concat sep l.

(** One action on the host: it is recorded, and it fails when the host
    refuses it or when the fault oracle says so. *)
Definition attempt (a : Action) (accepted : bool) : M bool :=
  fun w =>
    let ok := accepted && negb (w_fault w (List.length (w_trace w)) a) in
    (Ok ok, log_event w {| ev_action := a; ev_ok := ok |}).

(** [subprocess.Popen(command).communicate()]: the standard output of a
    process that exits with status zero, [None] otherwise. *)
Definition popen (argv : list string) : M (option FileData) :=
  fun w =>
    match host_step argv (w_host w) with
    | Some (out, h') =>
        match attempt (Spawn argv) true w with
        | (Ok true, w') => (Ok (Some out), set_host w' h')
        | (_, w') => (Ok None, w')
        end
    | None =>
        match attempt (Spawn argv) false w with
        | (_, w') => (Ok None, w')
        end
    end.

(** The decorator [execute_safely]: every exception of the wrapped call is
    raised again as an [ApplicationError] that quotes the command. *)
Definition execute_safely {A} (command : string) (m : M A) : M A :=
  try_except m
    (fun e => _raise (str_of_exn e ++ " | Command: " ++ command ++ " | " ++ str_of_exn e)).

(** [self._execute(command)]: standard output on success, an error on a
    non-zero exit status.  The captured output is not part of the message
    here. *)
Definition _execute (command : list string) : M FileData :=
  execute_safely (join " " command)
    (match command with
     | [] => _raise "Execute method received invalid command argument."
     | _ =>
         out <- popen command ;;
         match out with
         | Some d => ret d
         | None => _raise "Stdout: | Stderr:"
         end
     end).

(** [self._execute(command, boolean=True)]: whether the exit status is zero. *)
Definition _execute_bool (command : list string) : M bool :=
  execute_safely (join " " command)
    (match command with
     | [] => _raise "Execute method received invalid command argument."
     | _ =>
         out <- popen command ;;
         ret (match out with Some _ => true | None => false end)
     end).

(** [self._execute_queue(commands)]: the pipeline succeeds when its last
    stage does. *)
Definition _execute_queue (commands : list (list string)) : M unit :=
  execute_safely (join " " (map (join " ") commands))
    (match commands with
     | [] => _raise "Execute queue method received invalid commands argument."
     | _ =>
         ok <- attempt (SpawnPipe commands) true ;;
         if ok then ret tt else _raise "Stdout: | Stderr:"
     end).

(** [self._output]: printing is not modelled. *)
Definition _output (message : string) : M unit := ret tt.

Definition _read_file (path : string) : M FileData :=
  w <- get_world ;;
  match lookup_file path (h_files (w_host w)) with
  | Some d =>
      ok <- attempt (FileRead path) true ;;
      if ok then ret d else _raise ("Could not read file: " ++ path)
  | None =>
      attempt (FileRead path) false ;;;
      _raise ("Could not read file: " ++ path)
  end.

Definition _write_file (path : string) (data : FileData) : M unit :=
  ok <- attempt (FileWrite path) true ;;
  if ok
  then fun w =>
         (Ok tt, set_host w (with_files (w_host w)
                    ((path, data) :: remove_file path (h_files (w_host w)))))
  else _raise ("Could not write file: " ++ path).

(** [os.unlink] raises [OSError], which [except IOError] lets through. *)
Definition _unlink_file (path : string) : M unit :=
  w <- get_world ;;
  match lookup_file path (h_files (w_host w)) with
  | Some _ =>
      ok <- attempt (FileUnlink path) true ;;
      if ok
      then fun w' =>
             (Ok tt, set_host w' (with_files (w_host w')
                        (remove_file path (h_files (w_host w')))))
      else raise (OSError path)
  | None =>
      attempt (FileUnlink path) false ;;;
      raise (OSError path)
  end.

(** [raw_input(message)] *)
Definition raw_input (message : string) : M string :=
  fun w =>
    match w_stdin w with
    | [] => (Raise EOFError, log_event w {| ev_action := RawInput message; ev_ok := false |})
    | line :: rest =>
        (Ok line,
         set_stdin (log_event w {| ev_action := RawInput message; ev_ok := true |}) rest)
    end.

(** [random.randint(a, b)] *)
Definition randint (a b : Z) : M Z :=
  fun w =>
    (Ok (a + (w_random w (w_next_random w)) mod (b - a + 1))%Z,
     set_next_random w (S (w_next_random w))).

(** [self._remote_ssh_command(remote_command)] *)
Definition _remote_ssh_command (a : Args) (remote_command : list string) : list string :=
  let remote := match a_remote a with Some r => r | None => "None" end in
  match a_identity_file a with
  | Some i => if nonempty i then ["ssh"; "-i"; i; remote] ++ remote_command
              else ["ssh"; remote] ++ remote_command
  | None => ["ssh"; remote] ++ remote_command
  end.

(** [self._remote_target_scp_command(source, target)] *)
Definition _remote_target_scp_command (a : Args) (source target : string) : list string :=
  let remote := match a_remote a with Some r => r | None => "None" end in
  let target := remote ++ ":" ++ target in
  match a_identity_file a with
  | Some i => if nonempty i then ["scp"; "-i"; i; source; target]
              else ["scp"; source; target]
  | None => ["scp"; source; target]
  end.

(* ====================================================================== *)
(** * Loading and reading the inventory *)
(* ====================================================================== *)

Definition vm_info_of (h : Host) (d : Domain) : VmInfo :=
  match dom_disk d with
  | None => {| vi_dom := d; vi_disk_size := None;
               vi_logical_volume := None; vi_volume_group := None |}
  | Some p =>
      match find_lv_by_path p (h_lvs h) with
      | Some l => {| vi_dom := d; vi_disk_size := Some (lv_size l);
                     vi_logical_volume := Some (lv_name l);
                     vi_volume_group := Some (lv_vg l) |}
      | None => {| vi_dom := d; vi_disk_size := None;
                   vi_logical_volume := None; vi_volume_group := None |}
      end
  end.

Definition inventory (h : Host) : Data :=
  {| d_vg_info := h_vgs h; d_lv_info := h_lvs h;
     d_vm_info := map (vm_info_of h) (h_domains h) |}.

(** [self.load_info()]: the listing commands ([vgs], [lvs], [virsh list],
    [virsh dumpxml]) and the parsing of their output are taken as a total
    read of the host; they are not recorded as actions. *)
Definition load_info : M unit :=
  fun w => (Ok tt, set_data w (inventory (w_host w))).

(** The decorator [reload_environmental_info] *)
Definition reload_environmental_info {A} (m : M A) : M A :=
  try_finally m load_info.

(** [self.vg_info(vg, 'VFree')] *)
Definition vg_info_VFree (vg : string) : M string :=
  w <- get_world ;;
  match find_vg vg (d_vg_info (w_data w)) with
  | Some g => ret (vg_free g)
  | None =>
      _raise ("The requested (vg, attribute) pair does not exist: self.vg_info("
              ++ vg ++ ", VFree).")
  end.

(** [self.vg_info(vg, None, False)] as a truth value *)
Definition vg_known (vg : string) (w : World) : bool :=
  match find_vg vg (d_vg_info (w_data w)) with Some _ => true | None => false end.

(** [bool(self.lv_info((vg, lv), None, False))] *)
Definition lv_known (vg lv : string) (w : World) : bool :=
  match find_lv vg lv (d_lv_info (w_data w)) with Some _ => true | None => false end.

Definition find_vm (n : string) (vms : list VmInfo) : option VmInfo :=
  find (fun v => dom_name (vi_dom v) =? n) vms.

(** [vm[attribute]]: the outer [None] is the [KeyError] of an unknown key,
    the inner one the value [None]. *)
Definition vm_get (attribute : string) (v : VmInfo) : option (option string) :=
  if attribute =? "name" then Some (Some (dom_name (vi_dom v)))
  else if attribute =? "status" then Some (Some (dom_status (vi_dom v)))
  else if attribute =? "uuid" then Some (dom_uuid (vi_dom v))
  else if attribute =? "disk" then Some (dom_disk (vi_dom v))
  else if attribute =? "disk_file" then Some (dom_disk_file (vi_dom v))
  else if attribute =? "mac" then Some (dom_mac (vi_dom v))
  else if attribute =? "bridge" then Some (dom_bridge (vi_dom v))
  else if attribute =? "xml" then Some (Some (dom_xml (vi_dom v)))
  else if attribute =? "disk_size" then Some (vi_disk_size v)
  else if attribute =? "logical_volume" then Some (vi_logical_volume v)
  else if attribute =? "volume_group" then Some (vi_volume_group v)
  else None.

(** [self.vm_info(vm, attribute)] *)
Definition vm_info (vm attribute : string) : M (option string) :=
  w <- get_world ;;
  match find_vm vm (d_vm_info (w_data w)) with
  | Some v =>
      match vm_get attribute v with
      | Some x => ret x
      | None =>
          _raise ("The requested (vm, attribute) pair does not exist: self.vm_info("
                  ++ vm ++ ", " ++ attribute ++ ").")
      end
  | None =>
      _raise ("The requested (vm, attribute) pair does not exist: self.vm_info("
              ++ vm ++ ", " ++ attribute ++ ").")
  end.

(** [self.vm_info(vm, None, False)] as a truth value *)
Definition vm_known (vm : string) (w : World) : bool :=
  match find_vm vm (d_vm_info (w_data w)) with Some _ => true | None => false end.

Definition opt_eqb (a b : option string) : bool :=
  match a, b with
  | Some x, Some y => x =? y
  | None, None => true
  | _, _ => false
  end.

(** The loop of [vm_info_search]: it stops at the first [KeyError]. *)
Fixpoint search_matches (attribute : string) (value : option string)
    (vms : list VmInfo) : list string :=
  match vms with
  | [] => []
  | v :: rest =>
      match vm_get attribute v with
      | None => []
      | Some x =>
          if opt_eqb x value
          then dom_name (vi_dom v) :: search_matches attribute value rest
          else search_matches attribute value rest
      end
  end.

Fixpoint dedup (l : list string) : list string :=
  match l with
  | [] => []
  | x :: l' => if mem x l' then dedup l' else x :: dedup l'
  end.

(** [self.vm_info_search(attribute, value)]: the [return] of the [finally]
    clause discards the exception raised for an unknown attribute, so the
    call always returns.  The order of [list(set(matches))] is taken to be
    the order of the inventory. *)
Definition vm_info_search (attribute : string) (value : option string) (w : World)
  : list string :=
  dedup (search_matches attribute value (d_vm_info (w_data w))).

(** [self.vm_info_is_unique(attribute, value, raise_exception=False)] *)
Fixpoint is_unique_in (attribute : string) (value : option string)
    (vms : list VmInfo) : bool :=
  match vms with
  | [] => true
  | v :: rest =>
      match vm_get attribute v with
      | None => is_unique_in attribute value rest
      | Some x => if opt_eqb x value then false else is_unique_in attribute value rest
      end
  end.

Definition vm_info_is_unique (attribute : string) (value : option string) (w : World)
  : bool :=
  is_unique_in attribute value (d_vm_info (w_data w)).

(** [self.vm_count()] *)
Definition vm_count (w : World) : nat := List.length (d_vm_info (w_data w)).

(* ====================================================================== *)
(** * Action common functions: virsh commands *)
(* ====================================================================== *)

Definition _vm_suspend (vm : string) : M bool := _execute_bool ["virsh"; "suspend"; vm].

Definition _vm_resume (vm : string) : M bool := _execute_bool ["virsh"; "resume"; vm].

Definition _vm_destroy (vm : string) : M bool := _execute_bool ["virsh"; "destroy"; vm].

Definition _vm_undefine (vm : string) : M bool :=
  reload_environmental_info
    (_vm_destroy vm ;;;
     _execute_bool ["virsh"; "undefine"; vm]).

(* ====================================================================== *)
(** * Action common functions: LVM commands *)
(* ====================================================================== *)

(** [self._vg_has_space(vg, request_size_in_g)].  [size_in_g] is assigned
    only when the last character of the request is [g] or [G]; it is read
    on the next line in either case. *)
Definition _vg_has_space (vg : string) (request_size_in_g : string) : M bool :=
  match py_last request_size_in_g with
  | None => raise IndexError
  | Some c =>
      let size_in_g :=
        if Ascii.eqb (py_lower c) "g"%char
        then Some (py_init request_size_in_g) else None in
      match size_in_g with
      | None => raise (UnboundLocalError "size_in_g")
      | Some s =>
          match py_float s with
          | None => raise (ValueError s)
          | Some request =>
              vg_free_string <- vg_info_VFree vg ;;
              match py_float (py_init vg_free_string) with
              | None => raise (ValueError (py_init vg_free_string))
              | Some vg_free => ret (float_gt vg_free request)
              end
          end
      end
  end.

Definition lvcreate_command (lv_size lv_name vg_name : string) : list string :=
  ["lvcreate"; "-L"; lv_size; "-n"; lv_name; "/dev/" ++ vg_name].

(** [self._lv_create(lv_size, lv_name, vg_name)] *)
Definition _lv_create (lv_size lv_name vg_name : string) : M unit :=
  reload_environmental_info
    (let vg_path := "/dev/" ++ vg_name in
     let lv_path := vg_path ++ "/" ++ lv_name in
     w <- get_world ;;
     if lv_known vg_name lv_name w
     then _raise ("Could not create logical volume. The logical volume already "
                  ++ "exists on the host machine: " ++ lv_path)
     else
       has_space <- _vg_has_space vg_name lv_size ;;
       if negb has_space
       then _raise ("Could not create LV sized " ++ lv_name ++ " in VG " ++ vg_path
                    ++ ", not enough space.")
       else
         _execute (lvcreate_command lv_size lv_name vg_name) ;;;
         ret tt).

Definition snapshot_command (snapshot_size snapshot_name vm_path : string)
  : list string :=
  ["lvcreate"; "--snapshot"; "-L"; snapshot_size; "-n"; snapshot_name; vm_path].

(** [self._lv_create_snapshot(vm, snapshot_name)] with the default
    [snapshot_size='2.00g'].  A volume group that is [None] is no key of the
    inventory; a path that is [None] is a [TypeError] in [os.path.exists]. *)
Definition _lv_create_snapshot (vm snapshot_name : string) : M unit :=
  reload_environmental_info
    (let snapshot_size := "2.00g" in
     vm_vg <- vm_info vm "volume_group" ;;
     vm_path <- vm_info vm "disk" ;;
     has_space <-
       match vm_vg with
       | Some vg => _vg_has_space vg snapshot_size
       | None =>
           _raise "The requested (vg, attribute) pair does not exist: self.vg_info(None, VFree)."
       end ;;
     if negb has_space
     then _raise ("Could not create LV snapshot sized " ++ snapshot_size
                  ++ ", not enough space.")
     else
       match vm_path with
       | None => raise TypeError
       | Some p =>
           w <- get_world ;;
           if negb (path_exists p (w_host w))
           then _raise ("Could not create LV snapshot in " ++ p
                        ++ ", path does not exist.")
           else
             _execute (snapshot_command snapshot_size snapshot_name p) ;;;
             ret tt
       end).

Definition dd_read (block_size path : string) : list string :=
  ["dd"; "bs=" ++ block_size; "if=" ++ path].

Definition dd_write (block_size path : string) : list string :=
  ["dd"; "bs=" ++ block_size; "of=" ++ path].

(** [self._lv_import(source_path, target_path, compression)] *)
Definition _lv_import (source_path target_path compression : string) : M unit :=
  reload_environmental_info
    (w <- get_world ;;
     if negb (path_exists source_path (w_host w))
     then _raise ("Could not import LV, source path does not exist: " ++ source_path)
     else if negb (path_exists target_path (w_host w))
     then _raise ("Could not import LV, target path does not exist: " ++ target_path)
     else
       let bs := a_block_size (w_args w) in
       let command_queue :=
         ([dd_read bs source_path]
          ++ (if negb (compression =? "none") then [[compression; "-d"]] else [])
          ++ [dd_write bs target_path])%list in
       _execute_queue command_queue).

Definition lvremove_command (lv_path : string) : list string :=
  ["lvremove"; "-f"; lv_path].

(** [self._lv_remove(lv_path)] *)
Definition _lv_remove (lv_path : string) : M unit :=
  reload_environmental_info
    (w <- get_world ;;
     if negb (path_exists lv_path (w_host w))
     then _raise ("Could not remove LV " ++ lv_path ++ ", logical volume does not exist.")
     else
       _execute (lvremove_command lv_path) ;;;
       ret tt).

(* ====================================================================== *)
(** * Action common functions: VM functions *)
(* ====================================================================== *)

(** [self._vm_remove(name)]: [self._vm_undefine(name) and self._lv_remove(path)] *)
Definition _vm_remove (name : string) : M unit :=
  path <- vm_info name "disk" ;;
  undefined <- _vm_undefine name ;;
  if undefined
  then match path with
       | Some p => _lv_remove p
       | None => reload_environmental_info (raise TypeError)
       end
  else ret tt.

(** [self.args.output_level > 0].  The argument is the text that [argparse]
    stored (its [choices] are the strings '0' to '4', and [--headless]
    assigns '0'); the program is Python 2, where a [str] compares greater
    than every [int]. *)
Definition py2_str_gt_int (s : string) (n : Z) : bool := true.

Definition in_list (s : string) (l : list string) : bool := mem s l.

Definition lower (s : string) : string :=
  string_of_list_ascii (map py_lower (list_ascii_of_string s)).

Definition conflict_error (vm_name attribute : string) (value : option string) : string :=
  "A VM defined on the host machine " ++ vm_name
  ++ " shares a conflicting attribute: value, " ++ attribute ++ ": "
  ++ match value with Some v => v | None => "None" end ++ ".".

(** [self._vm_resolve_conflicts(potential_conflicts)].  [depth] is what is
    left of the interpreter's recursion limit.  The outer loop runs over
    the suffixes of the list, so that [potential_conflicts[i:]] is the
    list the loop still holds. *)
Fixpoint _vm_resolve_conflicts (depth : nat)
    (potential_conflicts : list (string * option string)) {struct depth} : M unit :=
  match depth with
  | O => raise RuntimeError
  | S depth' =>
      (fix loop (remaining : list (string * option string)) : M unit :=
         match remaining with
         | [] => ret tt
         | (attribute, value) :: rest =>
             w <- get_world ;;
             let prompt := py2_str_gt_int (a_output_level (w_args w)) 0 in
             let conflicts := vm_info_search attribute value w in
             for_each conflicts
               (fun vm_name =>
                  w1 <- get_world ;;
                  if a_overwrite (w_args w1)
                  then _vm_remove vm_name
                  else
                    let error := conflict_error vm_name attribute value in
                    if negb prompt then _raise error
                    else
                      input <- raw_input (error ++ " Remove active VM " ++ vm_name
                                          ++ "? [y/cancel]:") ;;
                      when (in_list (lower input) ["y"; "yes"]) (_vm_remove vm_name) ;;;
                      if in_list (lower input) ["quit"; "cancel"]
                      then raise (SystemExit 0)
                      else _vm_resolve_conflicts depth' remaining) ;;;
             loop rest
         end) potential_conflicts
  end.

(** The recursion limit of CPython. *)
Definition recursion_limit : nat := 1000.

(* ====================================================================== *)
(** * Action common functions: meta and XML functions *)
(* ====================================================================== *)

(** A value used where Python needs a [str]: concatenating [None] is a
    [TypeError]. *)
Definition str_of (v : option string) : M string :=
  match v with Some s => ret s | None => raise TypeError end.

(** ['{0}'.format(v)] *)
Definition fmt (v : option string) : string :=
  match v with Some s => s | None => "None" end.

(** [str(n)] for a natural number. *)
Definition str_of_nat (n : nat) : string := NilZero.string_of_uint (Nat.to_uint n).

(** The double quote, as a one-character string. *)
Definition dq : string := String (ascii_of_nat 34) EmptyString.

(** ['%02x' % x] for [0 <= x <= 255]. *)
Definition hex_digit (n : Z) : ascii :=
  if (n <? 10)%Z then ascii_of_nat (48 + Z.to_nat n) else ascii_of_nat (87 + Z.to_nat n).

Definition fmt_02x (x : Z) : string :=
  String (hex_digit (x / 16)) (String (hex_digit (x mod 16)) EmptyString).

(** The loop of [_create_mac_address]: [i] runs over
    [range(attempts, 0, -1)]. *)
Fixpoint mac_attempts (attempts i : nat) : M (option string) :=
  match i with
  | O => ret None
  | S i' =>
      b4 <- randint 0 127 ;;
      b5 <- randint 0 255 ;;
      b6 <- randint 0 255 ;;
      let address_list := [82; 84; 0; b4; b5; b6]%Z in
      let address := join ":" (map fmt_02x address_list) in
      w <- get_world ;;
      if vm_info_is_unique "mac" (Some address) w
      then ret (Some address)
      else if (i =? 1)%nat
           then _raise ("Could not generated a unique MAC address. Tried "
                        ++ str_of_nat attempts ++ " attempts.")
           else mac_attempts attempts i'
  end.

(** [self._create_mac_address()] *)
Definition _create_mac_address : M (option string) :=
  w <- get_world ;;
  let attempts := (vm_count w * 50 + 1)%nat in
  mac_attempts attempts attempts.

(** [self._create_vm_meta(vm)] *)
Definition _create_vm_meta (vm : string) : M Meta :=
  w <- get_world ;;
  let compression :=
    match a_compression (w_args w) with Some c => c | None => "none" end in
  let compression_extension :=
    if negb (compression =? "none") then "." ++ compression else "" in
  name <- vm_info vm "name" ;;
  image_size <- vm_info vm "disk_size" ;;
  logical_volume <- vm_info vm "logical_volume" ;;
  volume_group <- vm_info vm "volume_group" ;;
  bridge <- vm_info vm "bridge" ;;
  mac <- vm_info vm "mac" ;;
  uuid <- vm_info vm "uuid" ;;
  disk <- vm_info vm "disk" ;;
  disk_file <- vm_info vm "disk_file" ;;
  ret {| m_date := w_now w;
         m_command := "";
         m_name := fmt name;
         m_xml := "./" ++ vm ++ ".xml";
         m_image := "./" ++ vm ++ ".img" ++ compression_extension;
         m_image_size := image_size;
         m_compression := compression;
         m_logical_volume := logical_volume;
         m_volume_group := volume_group;
         m_bridge := bridge;
         m_mac := mac;
         m_uuid := uuid;
         m_disk := disk;
         m_disk_file := disk_file;
         m_logical_volume_size := None |}.

(** [self._load_vm_meta(raw_data)] *)
Definition _load_vm_meta (raw_data : FileData) : M Meta :=
  match raw_data with
  | Json m => ret m
  | Text _ => _raise "No JSON object could be decoded | Could not parse JSON meta data, JSON appears to be malformed."
  end.

(** [self._load_vm_meta_from_file(path)] *)
Definition _load_vm_meta_from_file (path : string) : M Meta :=
  raw_data <- _read_file path ;;
  _load_vm_meta raw_data.

(** [self._verify_target_meta(meta)] *)
Definition _verify_target_meta (meta : Meta) : M unit :=
  w <- get_world ;;
  match m_volume_group meta with
  | None => _raise "The target volume group does not exist on the local machine: None"
  | Some vg =>
      if negb (vg_known vg w)
      then _raise ("The target volume group does not exist on the local machine: " ++ vg)
      else
        has_space <-
          match m_image_size meta with
          | Some size => _vg_has_space vg size
          | None => raise TypeError
          end ;;
        if negb has_space
        then _raise ("The target volume group does not have enough space for new "
                     ++ "logical volume: " ++ vg)
        else
          bridge_ok <-
            match m_bridge meta with
            | Some b => _execute_bool ["ifconfig"; b]
            | None => _raise "execv() arg 2 must contain only strings | Command: ifconfig None"
            end ;;
          if negb bridge_ok
          then _raise ("The target bridge does not exist: ifconfig "
                       ++ fmt (m_bridge meta) ++ " returned non-zero.")
          else
            if negb (truthy (m_mac meta))
            then _raise ("The target mac address can not be empty: " ++ fmt (m_mac meta))
            else ret tt
  end.

(** [self._load_target_meta(meta, action)] *)
Definition _load_target_meta (meta : Meta) (action : string) : M Meta :=
  w <- get_world ;;
  let args := w_args w in
  let meta :=
    match a_name args with
    | Some n => if nonempty n then set_m_name meta n else meta
    | None => meta
    end in
  let meta := if action =? "clone" then set_m_uuid meta None else meta in
  let meta :=
    if truthy (a_volume_group args)
    then set_m_volume_group meta (a_volume_group args) else meta in
  let meta :=
    if truthy (a_logical_volume args)
    then set_m_logical_volume meta (a_logical_volume args)
    else if truthy (a_name args)
         then set_m_logical_volume meta (a_name args) else meta in
  let meta :=
    if truthy (a_logical_volume_size args)
    then set_m_logical_volume_size meta (a_logical_volume_size args)
    else set_m_logical_volume_size meta (m_image_size meta) in
  let meta :=
    if truthy (a_bridge args) then set_m_bridge meta (a_bridge args) else meta in
  meta <-
    (if truthy (a_mac args)
     then ret (set_m_mac meta (a_mac args))
     else if action =? "clone"
          then mac <- _create_mac_address ;; ret (set_m_mac meta mac)
          else ret meta) ;;
  vg <- str_of (m_volume_group meta) ;;
  lv <- str_of (m_logical_volume meta) ;;
  ret (set_m_disk meta (Some ("/dev/" ++ vg ++ "/" ++ lv))).

Definition not_found (source : string) : string :=
  "Could not create target XML, value " ++ dq ++ source ++ dq
  ++ " not found in source XML.".

Definition uuid_not_found (source : string) : string :=
  "Could not create target XML, could not remove UUID line. Value " ++ dq ++ source
  ++ dq ++ " not found in source XML.".

Definition name_element (v : string) : string := "<name>" ++ v ++ "</name>".
Definition disk_element (v : string) : string := "<source dev='" ++ v ++ "'/>".
Definition mac_element (v : string) : string := "<mac address='" ++ v ++ "'/>".
Definition bridge_element (v : string) : string := "<source bridge='" ++ v ++ "'/>".
Definition uuid_element (v : string) : string := "<uuid>" ++ v ++ "</uuid>".

(** [self._load_target_xml(source_xml, source_meta, target_meta, action)] *)
Definition _load_target_xml (source_xml : string) (source_meta target_meta : Meta)
    (action : string) : M string :=
  if negb (nonempty source_xml)
  then _raise "Could not create target XML, source XML is empty."
  else
    let target_xml := source_xml in
    (* Replace name *)
    let source := name_element (m_name source_meta) in
    let target := name_element (m_name target_meta) in
    if negb (contains source target_xml) then _raise (not_found source) else
    let target_xml := py_replace target_xml source target in
    (* Replace disk *)
    sv <- str_of (m_disk source_meta) ;;
    let source := disk_element sv in
    tv <- str_of (m_disk target_meta) ;;
    let target := disk_element tv in
    if negb (contains source target_xml) then _raise (not_found source) else
    let target_xml := py_replace target_xml source target in
    (* Replace MAC *)
    sv <- str_of (m_mac source_meta) ;;
    let source := mac_element sv in
    tv <- str_of (m_mac target_meta) ;;
    let target := mac_element tv in
    if negb (contains source target_xml) then _raise (not_found source) else
    let target_xml := py_replace target_xml source target in
    (* Replace Bridge *)
    sv <- str_of (m_bridge source_meta) ;;
    let source := bridge_element sv in
    tv <- str_of (m_bridge target_meta) ;;
    let target := bridge_element tv in
    if negb (contains source target_xml) then _raise (not_found source) else
    let target_xml := py_replace target_xml source target in
    (* Remove UUID line *)
    if action =? "clone"
    then
      sv <- str_of (m_uuid source_meta) ;;
      let source := uuid_element sv in
      if negb (contains source target_xml) then _raise (uuid_not_found source) else
      ret (py_replace target_xml source "")
    else ret target_xml.

(* ====================================================================== *)
(** * Action function: backup *)
(* ====================================================================== *)

(** [self._return_json(data)] *)
Definition _return_json (data : Meta) : FileData := Json data.

(** The text of a file read as a definition document. *)
Definition text_of (d : FileData) : string :=
  match d with Text s => s | Json _ => "{}" end.

(** [self._verify_local_vm_storage()]: [os.makedirs] raises [OSError],
    which the function passes over. *)
Definition _verify_local_vm_storage : M unit :=
  w <- get_world ;;
  let path := a_source (w_args w) in
  if negb (mem path (h_dirs (w_host w)))
  then
    ok <- attempt (MakeDirs path) true ;;
    if ok
    then fun w' => (Ok tt, set_host w' (with_dirs (w_host w') (path :: h_dirs (w_host w'))))
    else ret tt
  else ret tt.

Definition _backup_local_meta_info : M unit :=
  w <- get_world ;;
  let meta_file := a_source (w_args w) ++ "/meta.txt" in
  meta_dict <- _create_vm_meta (fmt (a_name (w_args w))) ;;
  let meta_json := _return_json meta_dict in
  _write_file meta_file meta_json.

Definition _backup_local_xml : M unit :=
  w <- get_world ;;
  let name := fmt (a_name (w_args w)) in
  let xml_file := a_source (w_args w) ++ "/" ++ name ++ ".xml" in
  xml <- vm_info name "xml" ;;
  _write_file xml_file (Text (fmt xml)).

(** The compression stage of a backup pipeline. *)
Definition zip_stage (compression : string) : list (list string) :=
  if negb (compression =? "none") then [[compression; "-c"]] else [].

Definition zip_extension (compression : string) : string :=
  if negb (compression =? "none") then "." ++ compression else "".

(** [self._backup_local_lv()].  The decorator [execute_safely] reads
    [args[0]] in its handler; the method takes no argument, so the handler
    itself raises [IndexError]. *)
Definition _backup_local_lv : M unit :=
  try_except
    (w <- get_world ;;
     let args := w_args w in
     let vm := fmt (a_name args) in
     vm_path <- vm_info vm "disk" ;;
     let compression := fmt (a_compression args) in
     let of_path := a_source args ++ vm ++ ".img" ++ zip_extension compression in
     let command_queue :=
       ([dd_read (a_block_size args) (fmt vm_path ++ ".snapshot")]
        ++ zip_stage compression
        ++ [dd_write (a_block_size args) of_path])%list in
     _execute_queue command_queue)
    (fun _ => raise IndexError).

Definition _backup_local : M unit :=
  _verify_local_vm_storage ;;;
  _backup_local_meta_info ;;;
  _backup_local_xml ;;;
  _backup_local_lv.

Definition _backup_remote_directory : M unit :=
  w <- get_world ;;
  _execute (_remote_ssh_command (w_args w) ["mkdir"; "-p"; a_source (w_args w)]) ;;;
  ret tt.

Definition _backup_remote_meta_info : M unit :=
  w <- get_world ;;
  let args := w_args w in
  let local_meta_file := fmt (a_name args) ++ "-" ++ w_now w ++ ".temp.meta.txt" in
  meta_dict <- _create_vm_meta (fmt (a_name args)) ;;
  let meta_json := _return_json meta_dict in
  _write_file local_meta_file meta_json ;;;
  let target := a_source args ++ "meta.txt" in
  _execute (_remote_target_scp_command args local_meta_file target) ;;;
  _unlink_file local_meta_file.

Definition _backup_remote_xml : M unit :=
  w <- get_world ;;
  let args := w_args w in
  let target_xml_file := fmt (a_name args) ++ "-" ++ w_now w ++ ".temp.xml" in
  xml <- vm_info (fmt (a_name args)) "xml" ;;
  _write_file target_xml_file (Text (fmt xml)) ;;;
  let target := a_source args ++ fmt (a_name args) ++ ".xml" in
  _execute (_remote_target_scp_command args target_xml_file target) ;;;
  _unlink_file target_xml_file.

Definition _backup_remote_lv : M unit :=
  try_except
    (w <- get_world ;;
     let args := w_args w in
     let vm := fmt (a_name args) in
     vm_path <- vm_info vm "disk" ;;
     let compression := fmt (a_compression args) in
     let of_path := a_source args ++ vm ++ ".img" ++ zip_extension compression in
     let ssh_command :=
       _remote_ssh_command args (dd_write (a_block_size args) of_path) in
     let command_queue :=
       ([dd_read (a_block_size args) (fmt vm_path ++ ".snapshot")]
        ++ zip_stage compression
        ++ [ssh_command])%list in
     _execute_queue command_queue)
    (fun _ => raise IndexError).

Definition _backup_remote : M unit :=
  _backup_remote_directory ;;;
  _backup_remote_meta_info ;;;
  _backup_remote_xml ;;;
  _backup_remote_lv.

Definition is_running (status : option string) : bool := opt_eqb status (Some "running").

(** [self.backup()] *)
Definition backup : M unit :=
  w <- get_world ;;
  let args := w_args w in
  let vm := fmt (a_name args) in
  if negb (vm_known vm w)
  then _raise ("Could not find VM named: " ++ vm)
  else
    initial_vm_status <- vm_info vm "status" ;;
    let snapshot_name := vm ++ ".snapshot" in
    vm_path <- vm_info vm "disk" ;;
    let snapshot_path := fmt vm_path ++ ".snapshot" in
    (* If VM is running suspend it. Cache status for later. *)
    when (is_running initial_vm_status) (_vm_suspend vm ;;; ret tt) ;;;
    (* Create a LV snapshot *)
    _lv_create_snapshot vm snapshot_name ;;;
    (* If VM was running (refer to cached variable), restart it. *)
    when (is_running initial_vm_status) (_vm_resume vm ;;; ret tt) ;;;
    (* Branch to either local or remote backup to save image *)
    try_finally
      (try_except
         (if truthy (a_remote args) then _backup_remote else _backup_local)
         (fun e => _raise (str_of_exn e)))
      (_lv_remove snapshot_path) ;;;
    _output "Success".

(* ====================================================================== *)
(** * Action functions: import and clone

    [os.path.abspath] and [os.path.realpath] are the identity: paths are
    taken as written. *)
(* ====================================================================== *)

(** [s.rstrip('/')] *)
Fixpoint rstrip_slash (s : string) : string :=
  match s with
  | EmptyString => EmptyString
  | String c s' =>
      match rstrip_slash s' with
      | EmptyString => if Ascii.eqb c "/"%char then EmptyString else String c EmptyString
      | r => String c r
      end
  end.

Definition potential_conflicts_of (target_meta : Meta) : list (string * option string) :=
  [("name", Some (m_name target_meta));
   ("disk", m_disk target_meta);
   ("uuid", m_uuid target_meta);
   ("mac", m_mac target_meta)].

(** The source metadata, the target metadata and the target definition
    that a remote import or clone fetches over [ssh]. *)
Definition fetch_remote (action : string) : M (Meta * Meta * string) :=
  w <- get_world ;;
  let args := w_args w in
  let remote_dir := a_source args in
  let remote_path := fmt (a_remote args) ++ ":" ++ remote_dir in
  (* Confirm meta.txt file exists *)
  found <- _execute_bool (_remote_ssh_command args ["test"; "-f"; remote_dir ++ "/meta.txt"]) ;;
  if negb found
  then _raise ("The required meta.txt file does not exist in remote directory: "
               ++ remote_path)
  else
    (* Return and parse remote meta.txt *)
    source_meta_data <- _execute (_remote_ssh_command args ["cat"; remote_dir ++ "/meta.txt"]) ;;
    source_meta <- _load_vm_meta source_meta_data ;;
    target_meta <- _load_target_meta source_meta action ;;
    _verify_target_meta target_meta ;;;
    (* Confirm XML file exists *)
    found <- _execute_bool
               (_remote_ssh_command args ["test"; "-f"; remote_dir ++ "/" ++ m_xml source_meta]) ;;
    if negb found
    then _raise ("The required XML file does not exist in remote directory: "
                 ++ remote_path ++ "/" ++ m_xml source_meta)
    else
      (* Confirm image file exists *)
      found <- _execute_bool
                 (_remote_ssh_command args
                    ["test"; "-f"; remote_dir ++ "/" ++ m_image source_meta]) ;;
      if negb found
      then _raise ("The required VM image file does not exist in remote directory: "
                   ++ remote_path ++ "/" ++ m_image source_meta)
      else
        (* Transfer remote XML to local file *)
        source_xml <- _execute
                        (_remote_ssh_command args ["cat"; remote_dir ++ "/" ++ m_xml source_meta]) ;;
        target_xml <- _load_target_xml (text_of source_xml) source_meta target_meta action ;;
        ret (source_meta, target_meta, target_xml).

(** The pipeline that brings a remote image into the target volume. *)
Definition remote_image_queue (args : Args) (source_meta target_meta : Meta)
  : M (list (list string)) :=
  let remote_dir := a_source args in
  let ssh_command :=
    _remote_ssh_command args
      (dd_read (a_block_size args) (remote_dir ++ "/" ++ m_image source_meta)) in
  let unzip :=
    if negb (m_compression source_meta =? "none")
    then [[m_compression source_meta; "-d"]] else [] in
  let target_lv :=
    "/dev/" ++ fmt (m_volume_group target_meta) ++ "/" ++ fmt (m_logical_volume target_meta) in
  ret ([ssh_command] ++ unzip ++ [dd_write (a_block_size args) target_lv])%list.

(** What the import and clone functions return in [return_data]. *)
Record ReturnData : Type := {
  rd_source_directory : string;
  rd_source_name : string;
  rd_target_name : string;
  rd_target_xml_file : string
}.

(** [self._import_remote()] *)
Definition _import_remote : M ReturnData :=
  w <- get_world ;;
  let args := w_args w in
  '(source_meta, target_meta, target_xml) <- fetch_remote "import" ;;
  let target_xml_file := m_name target_meta ++ "-" ++ w_now w ++ ".temp.xml" in
  _write_file target_xml_file (Text target_xml) ;;;
  (* Resolve conflicts with existing VMs on the host machine *)
  _vm_resolve_conflicts recursion_limit (potential_conflicts_of target_meta) ;;;
  (* Create logical volume *)
  lv_size <- str_of (m_logical_volume_size target_meta) ;;
  lv <- str_of (m_logical_volume target_meta) ;;
  vg <- str_of (m_volume_group target_meta) ;;
  _lv_create lv_size lv vg ;;;
  (* Transfer LV image with dd over ssh *)
  command_queue <- remote_image_queue args source_meta target_meta ;;
  _execute_queue command_queue ;;;
  ret {| rd_source_directory := ""; rd_source_name := "";
         rd_target_name := m_name target_meta;
         rd_target_xml_file := target_xml_file |}.

(** [self._import_local()] *)
Definition _import_local : M ReturnData :=
  w <- get_world ;;
  let args := w_args w in
  (* Verify source directory exists *)
  let source_directory := rstrip_slash (a_source args) ++ "/" in
  if negb (path_exists source_directory (w_host w))
  then _raise ("Could not find source directory: " ++ source_directory)
  else
    (* Load and verify meta data *)
    source_meta <- _load_vm_meta_from_file (source_directory ++ "meta.txt") ;;
    target_meta <- _load_target_meta source_meta "import" ;;
    _verify_target_meta target_meta ;;;
    (* Verify source XML file exists and create temporary target XML *)
    source_xml <- _read_file (source_directory ++ m_xml source_meta) ;;
    target_xml <- _load_target_xml (text_of source_xml) source_meta target_meta "import" ;;
    let target_xml_file := m_name target_meta ++ "-" ++ w_now w ++ ".temp.xml" in
    _write_file target_xml_file (Text target_xml) ;;;
    (* Resolve conflicts with existing VMs on the host machine *)
    _vm_resolve_conflicts recursion_limit (potential_conflicts_of target_meta) ;;;
    (* Create logical volume *)
    lv_size <- str_of (m_logical_volume_size target_meta) ;;
    lv <- str_of (m_logical_volume target_meta) ;;
    vg <- str_of (m_volume_group target_meta) ;;
    _lv_create lv_size lv vg ;;;
    (* Copy backup image to new logical volume *)
    let source_image_file := source_directory ++ m_image target_meta in
    disk <- str_of (m_disk target_meta) ;;
    _lv_import source_image_file disk (m_compression source_meta) ;;;
    ret {| rd_source_directory := ""; rd_source_name := "";
           rd_target_name := m_name target_meta;
           rd_target_xml_file := target_xml_file |}.

(** [self._clone_live()] *)
Definition _clone_live : M ReturnData :=
  w <- get_world ;;
  let args := w_args w in
  (* Load and verify meta data *)
  source_meta <- _create_vm_meta (a_source args) ;;
  target_meta <- _load_target_meta source_meta "clone" ;;
  _verify_target_meta target_meta ;;;
  (* Load source XML and create target XML *)
  source_xml <- vm_info (m_name source_meta) "xml" ;;
  target_xml <- _load_target_xml (fmt source_xml) source_meta target_meta "clone" ;;
  (* Set snapshot variables *)
  let source_path :=
    if truthy (m_disk_file source_meta)
    then m_disk_file source_meta else m_disk source_meta in
  initial_source_vm_status <- vm_info (m_name source_meta) "status" ;;
  let snapshot_name := m_name source_meta ++ ".snapshot" in
  let snapshot_path := fmt source_path ++ ".snapshot" in
  (* If VM is running suspend it. Cache status for later. *)
  when (is_running initial_source_vm_status)
       (_vm_suspend (m_name source_meta) ;;; ret tt) ;;;
  (* Create a LV snapshot *)
  _lv_create_snapshot (m_name source_meta) snapshot_name ;;;
  (* If VM was running (refer to cached variable), restart it. *)
  when (is_running initial_source_vm_status)
       (_vm_resume (m_name source_meta) ;;; ret tt) ;;;
  (* Resolve conflicts with existing VMs on the host machine *)
  _vm_resolve_conflicts recursion_limit (potential_conflicts_of target_meta) ;;;
  try_finally
    ((* Create target logical volume *)
     lv_size <- str_of (m_logical_volume_size target_meta) ;;
     vg <- str_of (m_volume_group target_meta) ;;
     _lv_create lv_size (m_name target_meta) vg ;;;
     (* Copy source LV snapshot to target LV *)
     disk <- str_of (m_disk target_meta) ;;
     _lv_import snapshot_path disk "none")
    ((* Remove LV snapshot *)
     _lv_remove snapshot_path) ;;;
  (* Save target_xml to a temporary file *)
  let target_xml_file := "./target_xml_" ++ w_now w ++ ".tmp" in
  _write_file target_xml_file (Text target_xml) ;;;
  ret {| rd_source_directory := fmt source_path;
         rd_source_name := m_name source_meta;
         rd_target_name := m_name target_meta;
         rd_target_xml_file := target_xml_file |}.

(** [self._clone_remote()] *)
Definition _clone_remote : M ReturnData :=
  w <- get_world ;;
  let args := w_args w in
  '(source_meta, target_meta, target_xml) <- fetch_remote "clone" ;;
  let target_xml_file := m_name target_meta ++ "-" ++ w_now w ++ ".temp.xml" in
  _write_file target_xml_file (Text target_xml) ;;;
  (* Resolve conflicts with existing VMs on the host machine *)
  _vm_resolve_conflicts recursion_limit (potential_conflicts_of target_meta) ;;;
  (* Create logical volume *)
  lv_size <- str_of (m_logical_volume_size target_meta) ;;
  lv <- str_of (m_logical_volume target_meta) ;;
  vg <- str_of (m_volume_group target_meta) ;;
  _lv_create lv_size lv vg ;;;
  (* Transfer LV image with dd over ssh *)
  command_queue <- remote_image_queue args source_meta target_meta ;;
  _execute_queue command_queue ;;;
  ret {| rd_source_directory := fmt (a_remote args) ++ ":" ++ a_source args;
         rd_source_name := m_name source_meta;
         rd_target_name := m_name target_meta;
         rd_target_xml_file := target_xml_file |}.

(** [self._clone_local()] *)
Definition _clone_local : M ReturnData :=
  w <- get_world ;;
  let args := w_args w in
  (* Verify source directory exists *)
  let source_directory := rstrip_slash (a_source args) ++ "/" in
  if negb (path_exists source_directory (w_host w))
  then _raise ("Could not find source directory: " ++ source_directory)
  else
    (* Load and verify meta data *)
    source_meta <- _load_vm_meta_from_file (source_directory ++ "meta.txt") ;;
    target_meta <- _load_target_meta source_meta "clone" ;;
    _verify_target_meta target_meta ;;;
    (* Load source XML and create target XML *)
    source_xml <- _read_file (source_directory ++ m_xml source_meta) ;;
    target_xml <- _load_target_xml (text_of source_xml) source_meta target_meta "clone" ;;
    (* Resolve conflicts with existing VMs on the host machine *)
    _vm_resolve_conflicts recursion_limit (potential_conflicts_of target_meta) ;;;
    (* Create logical volume *)
    lv_size <- str_of (m_logical_volume_size target_meta) ;;
    vg <- str_of (m_volume_group target_meta) ;;
    _lv_create lv_size (m_name target_meta) vg ;;;
    (* Copy backup image to new logical volume *)
    let source_image_file := source_directory ++ m_image source_meta in
    disk <- str_of (m_disk target_meta) ;;
    _lv_import source_image_file disk (m_compression target_meta) ;;;
    (* Save target_xml to a temporary file *)
    let target_xml_file := source_directory ++ "target_xml_" ++ w_now w ++ ".tmp" in
    _write_file target_xml_file (Text target_xml) ;;;
    ret {| rd_source_directory := source_directory;
           rd_source_name := m_name source_meta;
           rd_target_name := m_name target_meta;
           rd_target_xml_file := target_xml_file |}.

(* ====================================================================== *)
(** * Sample hosts

    A host with one running guest [vm1] on the volume [vg0/vm1], used to
    run the program on concrete inputs. *)
(* ====================================================================== *)

Module Sample.

Definition xml_of (name uuid disk mac bridge : string) : string :=
  "<domain type='kvm'><name>" ++ name ++ "</name><uuid>" ++ uuid
  ++ "</uuid><devices><disk type='block' device='disk'><source dev='" ++ disk
  ++ "'/></disk><interface type='bridge'><mac address='" ++ mac
  ++ "'/><source bridge='" ++ bridge ++ "'/></interface></devices></domain>".

Definition vm1_xml : string :=
  xml_of "vm1" "0a1b" "/dev/vg0/vm1" "52:54:00:aa:bb:cc" "br0".

Definition vm1 : Domain :=
  {| dom_name := "vm1"; dom_status := "running"; dom_uuid := Some "0a1b";
     dom_disk := Some "/dev/vg0/vm1"; dom_disk_file := None;
     dom_mac := Some "52:54:00:aa:bb:cc"; dom_bridge := Some "br0";
     dom_xml := vm1_xml |}.

Definition host_with (free : string) (files : list (string * FileData)) : Host :=
  {| h_domains := [vm1];
     h_vgs := [{| vg_name := "vg0"; vg_free := free |}];
     h_lvs := [{| lv_vg := "vg0"; lv_name := "vm1"; lv_size := "5.00g" |}];
     h_files := files;
     h_dirs := ["/backup/vm1/"];
     h_bridges := ["br0"] |}.

Definition host : Host := host_with "10.00g" [].

(** A second guest, [vm2], shut off, on the volume [vg0/vm2]. *)
Definition vm2 : Domain :=
  {| dom_name := "vm2"; dom_status := "shut off"; dom_uuid := Some "0c2d";
     dom_disk := Some "/dev/vg0/vm2"; dom_disk_file := None;
     dom_mac := Some "52:54:00:11:22:33"; dom_bridge := Some "br0";
     dom_xml := xml_of "vm2" "0c2d" "/dev/vg0/vm2" "52:54:00:11:22:33" "br0" |}.

(** The host with both guests. *)
Definition host2 : Host :=
  {| h_domains := [vm1; vm2];
     h_vgs := [{| vg_name := "vg0"; vg_free := "10.00g" |}];
     h_lvs := [{| lv_vg := "vg0"; lv_name := "vm1"; lv_size := "5.00g" |};
               {| lv_vg := "vg0"; lv_name := "vm2"; lv_size := "5.00g" |}];
     h_files := [];
     h_dirs := [];
     h_bridges := ["br0"] |}.

Definition vm1_meta : Meta :=
  {| m_date := "20120801-1200"; m_command := ""; m_name := "vm1";
     m_xml := "./vm1.xml"; m_image := "./vm1.img"; m_image_size := Some "5.00g";
     m_compression := "none"; m_logical_volume := Some "vm1";
     m_volume_group := Some "vg0"; m_bridge := Some "br0";
     m_mac := Some "52:54:00:aa:bb:cc"; m_uuid := Some "0a1b";
     m_disk := Some "/dev/vg0/vm1"; m_disk_file := None;
     m_logical_volume_size := None |}.

(** The backup directory [/backup/vm1/] of [vm1]. *)
Definition backup_files : list (string * FileData) :=
  [("/backup/vm1/meta.txt", Json vm1_meta);
   ("/backup/vm1/./vm1.xml", Text vm1_xml);
   ("/backup/vm1/./vm1.img", Text "")].

Definition no_args : Args :=
  {| a_name := None; a_source := ""; a_remote := None; a_identity_file := None;
     a_compression := None; a_overwrite := false; a_volume_group := None;
     a_logical_volume := None; a_logical_volume_size := None; a_bridge := None;
     a_mac := None; a_output_level := "1"; a_block_size := "512K" |}.

(** [vm.py backup vm1 /backup/vm1 --compression none] *)
Definition backup_args : Args :=
  {| a_name := Some "vm1"; a_source := "/backup/vm1/"; a_remote := None;
     a_identity_file := None; a_compression := Some "none"; a_overwrite := false;
     a_volume_group := None; a_logical_volume := None;
     a_logical_volume_size := None; a_bridge := None; a_mac := None;
     a_output_level := "1"; a_block_size := "512K" |}.

(** [vm.py clone --live vm1 <name>] with the given overwrite flag and
    output level. *)
Definition live_clone_args (name : string) (overwrite : bool) (level : string) : Args :=
  {| a_name := Some name; a_source := "vm1"; a_remote := None;
     a_identity_file := None; a_compression := None; a_overwrite := overwrite;
     a_volume_group := None; a_logical_volume := None;
     a_logical_volume_size := None; a_bridge := None; a_mac := None;
     a_output_level := level; a_block_size := "512K" |}.

(** [vm.py clone /backup/vm1 <name>] with optional [--logical-volume] and
    [--logical-volume-size]. *)
Definition local_clone_args (name : string) (lv size : option string) : Args :=
  {| a_name := Some name; a_source := "/backup/vm1/"; a_remote := None;
     a_identity_file := None; a_compression := None; a_overwrite := false;
     a_volume_group := None; a_logical_volume := lv;
     a_logical_volume_size := size; a_bridge := None; a_mac := None;
     a_output_level := "1"; a_block_size := "512K" |}.

Definition no_fault : nat -> Action -> bool := fun _ _ => false.

(** The process with the given command line fails, every time. *)
Definition failing (argv : list string) : nat -> Action -> bool :=
  fun _ a =>
    match a with
    | Spawn c => if list_eq_dec string_dec c argv then true else false
    | _ => false
    end.


(** A generator that counts: 0, 1, 2, ... *)
Definition counting : nat -> Z := fun n => Z.of_nat n.

(** The state after [__init__]: the inventory is loaded, nothing has been
    attempted yet. *)
Definition start (h : Host) (a : Args) (fault : nat -> Action -> bool)
    (stdin : list string) : World :=
  {| w_host := h; w_data := inventory h; w_args := a; w_now := "20120801-1200";
     w_trace := []; w_fault := fault; w_random := counting; w_next_random := 0;
     w_stdin := stdin |}.

End Sample.

(* ====================================================================== *)
(** * Properties *)
(* ====================================================================== *)

(** ** The monad *)

Lemma bind_ok {A B} (m : M A) (k : A -> M B) w a w' :
  m w = (Ok a, w') -> bind m k w = k a w'.
Proof. intros H. unfold bind. now rewrite H. Qed.

Lemma bind_raise {A B} (m : M A) (k : A -> M B) w e w' :
  m w = (Raise e, w') -> bind m k w = (Raise e, w').
Proof. intros H. unfold bind. now rewrite H. Qed.

(** ** Python strings *)

Lemma py_lower_g (c : ascii) :
  Ascii.eqb (py_lower c) "g"%char = true <-> c = "g"%char \/ c = "G"%char.
Proof.
  split.
  - destruct c as [[] [] [] [] [] [] [] []]; vm_compute; intros H;
      try discriminate H; auto.
  - intros [-> | ->]; reflexivity.
Qed.

Lemma py_last_none (s : string) : py_last s = None <-> s = EmptyString.
Proof.
  split.
  - induction s as [|c s IH]; [reflexivity|].
    simpl. destruct s; [discriminate|]. intros H. apply IH in H. discriminate H.
  - intros ->. reflexivity.
Qed.

(** A string that has a last character is its [s[:-1]] followed by it. *)
Lemma py_init_last (s : string) (c : ascii) :
  py_last s = Some c -> s = py_init s ++ String c EmptyString.
Proof.
  induction s as [|a s IH]; [discriminate|].
  destruct s as [|b s].
  - simpl. now intros [= ->].
  - intros H. change (py_last (String a (String b s))) with (py_last (String b s)) in H.
    change (py_init (String a (String b s))) with (String a (py_init (String b s))).
    simpl. f_equal. now apply IH.
Qed.

Arguments String.append : simpl never.

(** ** [float_gt] is the strict order of the rationals *)


(* ---------------------------------------------------------------------- *)
(** ** The space check *)



(** The space check never changes the state. *)
Lemma vg_has_space_pure (vg req : string) (w : World) :
  snd (_vg_has_space vg req w) = w.
Proof.
  unfold _vg_has_space.
  destruct (py_last req) as [c|]; [|reflexivity].
  destruct (Ascii.eqb (py_lower c) "g"%char); [|reflexivity].
  destruct (py_float (py_init req)) as [r|]; [|reflexivity].
  unfold bind, vg_info_VFree, get_world, bind.
  destruct (find_vg vg (d_vg_info (w_data w))) as [g|]; [|reflexivity].
  simpl. destruct (py_float (py_init (vg_free g))); reflexivity.
Qed.


(** A request that does not end in [g] or [G] leaves [size_in_g] unbound. *)
Lemma vg_has_space_unbound (vg req : string) (c : ascii) (w : World) :
  py_last req = Some c -> c <> "g"%char -> c <> "G"%char ->
  _vg_has_space vg req w = (Raise (UnboundLocalError "size_in_g"), w).
Proof.
  intros L Hg HG. unfold _vg_has_space. rewrite L.
  destruct (Ascii.eqb (py_lower c) "g"%char) eqn:E; [|reflexivity].
  apply py_lower_g in E. destruct E; contradiction.
Qed.

(* ---------------------------------------------------------------------- *)
(** ** Actions and the trace *)

(** The events a computation adds to the trace. *)
Definition issued {A} (m : M A) (w : World) : list Event :=
  skipn (List.length (w_trace w)) (w_trace (exec m w)).

Lemma skipn_length_app {A} (l l' : list A) :
  skipn (List.length l) (l ++ l')%list = l'.
Proof. induction l; simpl; auto. Qed.

Lemma load_info_trace (w : World) : w_trace (exec load_info w) = w_trace w.
Proof. reflexivity. Qed.

Lemma attempt_spec (a : Action) (accepted : bool) (w : World) :
  exists ok, attempt a accepted w = (Ok ok, log_event w {| ev_action := a; ev_ok := ok |})
             /\ (ok = true -> accepted = true).
Proof.
  unfold attempt. eexists. split; [reflexivity|].
  intros H. now apply andb_true_iff in H.
Qed.

(** A process is one event; the host changes only when it succeeds. *)
Lemma popen_spec (argv : list string) (w : World) :
  exists out ok w',
    popen argv w = (Ok out, w') /\
    w_trace w' = (w_trace w ++ [{| ev_action := Spawn argv; ev_ok := ok |}])%list /\
    w_data w' = w_data w /\ w_args w' = w_args w /\
    (ok = false -> out = None /\ w_host w' = w_host w) /\
    (ok = true -> exists d h', host_step argv (w_host w) = Some (d, h')
                                /\ out = Some d /\ w_host w' = h').
Proof.
  unfold popen, attempt.
  destruct (host_step argv (w_host w)) as [[d h']|]; simpl.
  - destruct (w_fault w (List.length (w_trace w)) (Spawn argv)); simpl.
    + exists None, false. eexists. repeat split; try reflexivity; discriminate.
    + exists (Some d), true. eexists. repeat split; try reflexivity; try discriminate.
      intros _. now exists d, h'.
  - exists None, false. eexists. repeat split; try reflexivity; discriminate.
Qed.

(** [_execute] on a non-empty command: one event; the output when the
    process succeeds, an [ApplicationError] when it does not. *)
Lemma execute_spec (argv : list string) (w : World) :
  argv <> [] ->
  exists ok w',
    snd (_execute argv w) = w' /\
    w_trace w' = (w_trace w ++ [{| ev_action := Spawn argv; ev_ok := ok |}])%list /\
    w_data w' = w_data w /\ w_args w' = w_args w /\
    (ok = false -> w_host w' = w_host w /\
                   exists msg, fst (_execute argv w) = Raise (ApplicationError msg)) /\
    (ok = true -> exists d, host_step argv (w_host w) = Some (d, w_host w')
                            /\ fst (_execute argv w) = Ok d).
Proof.
  intros Hne. destruct argv as [|a argv]; [contradiction|].
  destruct (popen_spec (a :: argv) w) as (out & ok & w' & Hp & Ht & Hd & Ha & Hf & Hs).
  exists ok, w'.
  unfold _execute, execute_safely, try_except, bind. rewrite Hp.
  destruct ok.
  - destruct (Hs eq_refl) as (d & h' & Hh & -> & Hw). simpl.
    split; [reflexivity|]. split; [exact Ht|]. split; [exact Hd|].
    split; [exact Ha|]. split; [discriminate|].
    intros _. exists d. now rewrite Hw.
  - destruct (Hf eq_refl) as (-> & Hw). simpl.
    split; [reflexivity|]. split; [exact Ht|]. split; [exact Hd|].
    split; [exact Ha|]. split; [|discriminate].
    intros _. split; [exact Hw|]. eexists. reflexivity.
Qed.

(** [_execute(..., boolean=True)] on a non-empty command never raises. *)
Lemma execute_bool_spec (argv : list string) (w : World) :
  argv <> [] ->
  exists ok w',
    _execute_bool argv w = (Ok ok, w') /\
    w_trace w' = (w_trace w ++ [{| ev_action := Spawn argv; ev_ok := ok |}])%list /\
    w_data w' = w_data w /\ w_args w' = w_args w /\
    (ok = false -> w_host w' = w_host w) /\
    (ok = true -> exists d, host_step argv (w_host w) = Some (d, w_host w')).
Proof.
  intros Hne. destruct argv as [|a argv]; [contradiction|].
  destruct (popen_spec (a :: argv) w) as (out & ok & w' & Hp & Ht & Hd & Ha & Hf & Hs).
  exists ok, w'.
  unfold _execute_bool, execute_safely, try_except, bind. rewrite Hp.
  destruct ok.
  - destruct (Hs eq_refl) as (d & h' & Hh & -> & Hw). simpl.
    split; [reflexivity|]. split; [exact Ht|]. split; [exact Hd|].
    split; [exact Ha|]. split; [discriminate|].
    intros _. exists d. now rewrite Hw.
  - destruct (Hf eq_refl) as (-> & Hw). simpl.
    split; [reflexivity|]. split; [exact Ht|]. split; [exact Hd|].
    split; [exact Ha|]. split; [|discriminate].
    intros _. exact Hw.
Qed.

(* ---------------------------------------------------------------------- *)
(** ** Creating a logical volume *)

(** The state after the [finally] clause of [reload_environmental_info]. *)
Definition reloaded (w : World) : World := set_data w (inventory (w_host w)).

Lemma reload_eq {A} (m : M A) (w : World) :
  reload_environmental_info m w = (fst (m w), reloaded (snd (m w))).
Proof.
  unfold reload_environmental_info, try_finally, load_info.
  destruct (m w) as [r w1]. reflexivity.
Qed.



Lemma issued_app {A} (m : M A) (w : World) (evs : list Event) :
  w_trace (exec m w) = (w_trace w ++ evs)%list -> issued m w = evs.
Proof. unfold issued. intros ->. apply skipn_length_app. Qed.

Definition lv_exists_error (lv_name vg_name : string) : string :=
  "Could not create logical volume. The logical volume already "
  ++ "exists on the host machine: " ++ ("/dev/" ++ vg_name) ++ "/" ++ lv_name.

Definition lv_space_error (lv_name vg_name : string) : string :=
  "Could not create LV sized " ++ lv_name ++ " in VG " ++ ("/dev/" ++ vg_name)
  ++ ", not enough space.".

(** [_lv_create], path by path. *)
Lemma lv_create_eq (lv_size lv_name vg_name : string) (w : World) :
  _lv_create lv_size lv_name vg_name w =
  if lv_known vg_name lv_name w
  then (Raise (ApplicationError (lv_exists_error lv_name vg_name)), reloaded w)
  else
    match fst (_vg_has_space vg_name lv_size w) with
    | Raise e => (Raise e, reloaded w)
    | Ok false => (Raise (ApplicationError (lv_space_error lv_name vg_name)), reloaded w)
    | Ok true =>
        let r := _execute (lvcreate_command lv_size lv_name vg_name) w in
        (match fst r with Ok _ => Ok tt | Raise e => Raise e end, reloaded (snd r))
    end.
Proof.
  unfold _lv_create. rewrite reload_eq.
  unfold bind, get_world.
  destruct (lv_known vg_name lv_name w); [reflexivity|].
  pose proof (vg_has_space_pure vg_name lv_size w) as P.
  destruct (_vg_has_space vg_name lv_size w) as [[[]|e] w0]; simpl in P; subst w0;
    try reflexivity.
  cbn [negb fst snd].
  destruct (_execute (lvcreate_command lv_size lv_name vg_name) w) as [[d|e] w1];
    reflexivity.
Qed.


(* ---------------------------------------------------------------------- *)
(** ** Verifying the target metadata *)

(** [_verify_target_meta], path by path. *)
Lemma verify_target_meta_eq (meta : Meta) (w : World) :
  _verify_target_meta meta w =
  match m_volume_group meta with
  | None =>
      (Raise (ApplicationError
                "The target volume group does not exist on the local machine: None"), w)
  | Some vg =>
      if negb (vg_known vg w)
      then (Raise (ApplicationError
                     ("The target volume group does not exist on the local machine: "
                      ++ vg)), w)
      else
        match m_image_size meta with
        | None => (Raise TypeError, w)
        | Some size =>
            match fst (_vg_has_space vg size w) with
            | Raise e => (Raise e, w)
            | Ok false =>
                (Raise (ApplicationError
                          ("The target volume group does not have enough space for new "
                           ++ "logical volume: " ++ vg)), w)
            | Ok true =>
                match m_bridge meta with
                | None =>
                    (Raise (ApplicationError
                              "execv() arg 2 must contain only strings | Command: ifconfig None"),
                     w)
                | Some b =>
                    let r := _execute_bool ["ifconfig"; b] w in
                    match fst r with
                    | Raise e => (Raise e, snd r)
                    | Ok false =>
                        (Raise (ApplicationError
                                  ("The target bridge does not exist: ifconfig "
                                   ++ fmt (m_bridge meta) ++ " returned non-zero.")),
                         snd r)
                    | Ok true =>
                        if negb (truthy (m_mac meta))
                        then (Raise (ApplicationError
                                       ("The target mac address can not be empty: "
                                        ++ fmt (m_mac meta))), snd r)
                        else (Ok tt, snd r)
                    end
                end
            end
        end
  end.
Proof.
  unfold _verify_target_meta, bind, get_world.
  destruct (m_volume_group meta) as [vg|]; [|reflexivity].
  destruct (negb (vg_known vg w)); [reflexivity|].
  destruct (m_image_size meta) as [size|]; [|reflexivity].
  pose proof (vg_has_space_pure vg size w) as P.
  destruct (_vg_has_space vg size w) as [[[]|e] w0]; simpl in P; subst w0;
    try reflexivity.
  cbn [negb fst snd].
  destruct (m_bridge meta) as [b|]; [|reflexivity].
  cbv zeta.
  destruct (_execute_bool ["ifconfig"; b] w) as [[[]|e] w1]; cbn [negb fst snd];
    try reflexivity.
  destruct (negb (truthy (m_mac meta))); reflexivity.
Qed.

(** [ifconfig <bridge>] exits with status zero: the bridge is a device of
    the host, and the process is not made to fail. *)
Definition ifconfig_ok (b : string) (w : World) : bool :=
  mem b (h_bridges (w_host w))
  && negb (w_fault w (List.length (w_trace w)) (Spawn ["ifconfig"; b])).

Lemma ifconfig_run (b : string) (w : World) :
  fst (_execute_bool ["ifconfig"; b] w) = Ok (ifconfig_ok b w) /\
  w_host (snd (_execute_bool ["ifconfig"; b] w)) = w_host w /\
  w_data (snd (_execute_bool ["ifconfig"; b] w)) = w_data w.
Proof.
  unfold _execute_bool, execute_safely, try_except, bind, popen, attempt, ifconfig_ok.
  unfold host_step. cbn [ssh_payload].
  replace ("ifconfig" =? "ssh") with false by reflexivity.
  replace ("ifconfig" =? "ifconfig") with true by reflexivity.
  destruct (mem b (h_bridges (w_host w))); cbn [andb negb].
  - destruct (w_fault w (List.length (w_trace w)) (Spawn ["ifconfig"; b]));
      cbn [fst snd negb]; repeat split; reflexivity.
  - repeat split; reflexivity.
Qed.



(** C10.  The space check returns only for a request that is not empty and
    ends in [g] or [G].  Every other non-empty request leaves [size_in_g]
    unbound: the call raises [UnboundLocalError], which is none of the
    program's own errors, and so do [_lv_create] (for a volume that does
    not exist yet) and [_verify_target_meta] (for a known volume group),
    the two callers that pass it a size from the command line or from the
    metadata. *)
Theorem space_check_needs_unit :
  (forall vg req w b,
      run (_vg_has_space vg req) w = Ok b ->
      exists c, py_last req = Some c /\ (c = "g"%char \/ c = "G"%char)) /\
  (forall vg req c w,
      py_last req = Some c -> c <> "g"%char -> c <> "G"%char ->
      run (_vg_has_space vg req) w = Raise (UnboundLocalError "size_in_g") /\
      (forall lv,
          lv_known vg lv w = false ->
          run (_lv_create req lv vg) w = Raise (UnboundLocalError "size_in_g")) /\
      (forall meta,
          m_volume_group meta = Some vg -> vg_known vg w = true ->
          m_image_size meta = Some req ->
          run (_verify_target_meta meta) w = Raise (UnboundLocalError "size_in_g"))).
Proof.
  split.
  - intros vg req w b H. unfold run, _vg_has_space in H.
    destruct (py_last req) as [c|]; [|discriminate H].
    exists c. split; [reflexivity|].
    destruct (Ascii.eqb (py_lower c) "g"%char) eqn:E; [|discriminate H].
    now apply py_lower_g.
  - intros vg req c w L Hg HG.
    pose proof (@vg_has_space_unbound vg req c w L Hg HG) as U.
    split; [|split].
    + unfold run. now rewrite U.
    + intros lv K. unfold run. rewrite lv_create_eq, K, U. reflexivity.
    + intros meta V K S. unfold run.
      rewrite verify_target_meta_eq, V, K, S, U. reflexivity.
Qed.

(** [vm.py clone /backup/vm1 vm2 --logical-volume-size 25.00] ends in the
    [UnboundLocalError]. *)
Lemma space_check_needs_unit_witness :
  let w := Sample.start (Sample.host_with "10.00g" Sample.backup_files)
             (Sample.local_clone_args "vm2" None (Some "25.00")) Sample.no_fault [] in
  run (_vg_has_space "vg0" "25.00") w = Raise (UnboundLocalError "size_in_g") /\
  run (_lv_create "25.00" "vm2" "vg0") w = Raise (UnboundLocalError "size_in_g") /\
  run _clone_local w = Raise (UnboundLocalError "size_in_g").
Proof.
  cbv zeta.
  destruct (proj2 space_check_needs_unit "vg0" "25.00" "0"%char
              (Sample.start (Sample.host_with "10.00g" Sample.backup_files)
                 (Sample.local_clone_args "vm2" None (Some "25.00")) Sample.no_fault [])
              eq_refl) as (H1 & H2 & _); [discriminate | discriminate |].
  split; [exact H1|]. split; [apply H2; reflexivity|]. vm_compute. reflexivity.
Defined.





(* ---------------------------------------------------------------------- *)
(** ** Generating a MAC address *)









Lemma randint_run (a b : Z) (w : World) :
  randint a b w
  = (Ok (a + w_random w (w_next_random w) mod (b - a + 1))%Z,
     set_next_random w (S (w_next_random w))).
Proof. reflexivity. Qed.










(* ---------------------------------------------------------------------- *)
(** ** Resolving the target metadata *)

(** An override when one was given, else the default. *)
Definition override (given default : option string) : option string :=
  if truthy given then given else default.


(* ---------------------------------------------------------------------- *)
(** ** Conflicts, snapshots and the run state on concrete runs *)

(** The run state of a guest on the host. *)
Definition status_of (vm : string) (h : Host) : option string :=
  option_map dom_status (find_domain vm (h_domains h)).

(** The logical volume [vg/lv] exists on the host. *)
Definition has_lv (vg lv : string) (h : Host) : bool :=
  match find_lv vg lv (h_lvs h) with Some _ => true | None => false end.

(** The processes of a trace that ran [lvremove]. *)
Definition removals (evs : list Event) : list (list string) :=
  flat_map (fun e => match ev_action e with
                     | Spawn ("lvremove" :: args) => ["lvremove" :: args]
                     | _ => []
                     end) evs.

(** The prompts of a trace. *)
Definition prompts (evs : list Event) : list string :=
  flat_map (fun e => match ev_action e with RawInput p => [p] | _ => [] end) evs.

(** C3, on the code.  A run with [--headless] (output level '0'), without
    [--overwrite], whose target name [vm2] is the name of a defined guest:
    for every output level the resolution of [('name', 'vm2')] calls
    [raw_input] instead of raising the conflict error.  With nothing to
    read it ends in [EOFError]; with the answer 'cancel' it ends in
    [sys.exit(0)].  With [--overwrite] the same resolution removes [vm2]
    and its volume and asks nothing. *)
Theorem headless_conflict_prompts (level : string) :
  let candidates := [("name", Some "vm2")] in
  let prompt := conflict_error "vm2" "name" (Some "vm2")
                ++ " Remove active VM vm2? [y/cancel]:" in
  let silent := Sample.start Sample.host2 (Sample.live_clone_args "vm2" false level)
                  Sample.no_fault [] in
  let cancel := Sample.start Sample.host2 (Sample.live_clone_args "vm2" false level)
                  Sample.no_fault ["cancel"] in
  let overwrite := Sample.start Sample.host2 (Sample.live_clone_args "vm2" true level)
                     Sample.no_fault [] in
  (run (_vm_resolve_conflicts recursion_limit candidates) silent = Raise EOFError /\
   prompts (issued (_vm_resolve_conflicts recursion_limit candidates) silent) = [prompt]) /\
  (run (_vm_resolve_conflicts recursion_limit candidates) cancel = Raise (SystemExit 0) /\
   prompts (issued (_vm_resolve_conflicts recursion_limit candidates) cancel) = [prompt]) /\
  (run (_vm_resolve_conflicts recursion_limit candidates) overwrite = Ok tt /\
   prompts (issued (_vm_resolve_conflicts recursion_limit candidates) overwrite) = [] /\
   status_of "vm2" (w_host (exec (_vm_resolve_conflicts recursion_limit candidates) overwrite))
   = None /\
   has_lv "vg0" "vm2"
     (w_host (exec (_vm_resolve_conflicts recursion_limit candidates) overwrite)) = false).
Proof.
  cbv zeta. repeat split; vm_compute; reflexivity.
Qed.

(** C1, on the code.  [vm.py clone --live vm1 vm2] on a host where [vm2] is
    defined.  The snapshot [vg0/vm1.snapshot] is created, and conflict
    resolution, which runs before the [try]/[finally] of [_clone_live],
    ends the operation: by [sys.exit(0)] when the user answers 'cancel',
    and, with [--overwrite], by the error of a failing [lvremove] of the
    volume of [vm2].  In both runs no [lvremove] of the snapshot is issued
    and the snapshot is still there when the operation has ended. *)
Theorem live_clone_conflict_leaves_snapshot :
  let cancel := Sample.start Sample.host2 (Sample.live_clone_args "vm2" false "1")
                  Sample.no_fault ["cancel"] in
  let failed := Sample.start Sample.host2 (Sample.live_clone_args "vm2" true "1")
                  (Sample.failing ["lvremove"; "-f"; "/dev/vg0/vm2"]) [] in
  (has_lv "vg0" "vm1.snapshot" (w_host cancel) = false /\
   run _clone_live cancel = Raise (SystemExit 0) /\
   removals (issued _clone_live cancel) = [] /\
   has_lv "vg0" "vm1.snapshot" (w_host (exec _clone_live cancel)) = true) /\
  (has_lv "vg0" "vm1.snapshot" (w_host failed) = false /\
   (exists msg, run _clone_live failed = Raise (ApplicationError msg)) /\
   removals (issued _clone_live failed) = [["lvremove"; "-f"; "/dev/vg0/vm2"]] /\
   has_lv "vg0" "vm1.snapshot" (w_host (exec _clone_live failed)) = true).
Proof.
  cbv zeta. repeat split; try (vm_compute; reflexivity).
  eexists. vm_compute. reflexivity.
Qed.


(* ---------------------------------------------------------------------- *)
(** ** The trace follows the host

    Every change of the host's guests and volumes goes through a recorded
    action.  [host_event h e h'] is one recorded action taking the host
    from [h] to [h']; [host_path] chains them. *)

(** Guests, volume groups, volumes and bridges are the same. *)
Definition same_machines (h h' : Host) : Prop :=
  h_domains h' = h_domains h /\ h_vgs h' = h_vgs h /\
  h_lvs h' = h_lvs h /\ h_bridges h' = h_bridges h.

Definition host_event (h : Host) (e : Event) (h' : Host) : Prop :=
  match ev_action e with
  | Spawn argv =>
      if ev_ok e then exists d, host_step argv h = Some (d, h') else same_machines h h'
  | _ => same_machines h h'
  end.

Inductive host_path : Host -> list Event -> Host -> Prop :=
| path_nil h : host_path h [] h
| path_cons h e h1 evs h2 :
    host_event h e h1 -> host_path h1 evs h2 -> host_path h (e :: evs) h2.

Lemma same_machines_refl (h : Host) : same_machines h h.
Proof. repeat split. Qed.

Lemma same_machines_trans (h1 h2 h3 : Host) :
  same_machines h1 h2 -> same_machines h2 h3 -> same_machines h1 h3.
Proof.
  intros (A & B & C & D) (A' & B' & C' & D').
  repeat split; congruence.
Qed.

#[local] Hint Resolve same_machines_refl : core.

Lemma host_path_app (h1 h2 h3 : Host) (evs1 evs2 : list Event) :
  host_path h1 evs1 h2 -> host_path h2 evs2 h3 -> host_path h1 (evs1 ++ evs2)%list h3.
Proof.
  induction 1 as [h | h e h' evs h'' E P IH]; intros Q; [exact Q|].
  cbn. econstructor; [exact E | now apply IH].
Qed.

Lemma host_path_one (h h' : Host) (e : Event) :
  host_event h e h' -> host_path h [e] h'.
Proof. intros E. econstructor; [exact E | constructor]. Qed.

Section Obeys.

(** What every recorded event of a computation satisfies. *)
Variable P : Event -> Prop.

(** [m] records only events that satisfy [P], its trace is a path of
    the host, and it leaves the arguments alone. *)
Definition obeys {A} (m : M A) : Prop :=
  forall w, exists evs,
    w_trace (exec m w) = (w_trace w ++ evs)%list /\
    Forall P evs /\
    host_path (w_host w) evs (w_host (exec m w)) /\
    w_args (exec m w) = w_args w.

Lemma obeys_silent {A} (m : M A) :
  (forall w, w_trace (exec m w) = w_trace w /\ w_host (exec m w) = w_host w
             /\ w_args (exec m w) = w_args w) ->
  obeys m.
Proof.
  intros H w. destruct (H w) as (T & Hh & Ha). exists [].
  rewrite T, Hh, app_nil_r. repeat split; auto. constructor.
Qed.

Lemma obeys_ret {A} (a : A) : obeys (ret a).
Proof. apply obeys_silent. intros w. repeat split. Qed.

Lemma obeys_raise {A} (e : exn) : obeys (@raise A e).
Proof. apply obeys_silent. intros w. repeat split. Qed.

Lemma obeys__raise {A} (msg : string) : obeys (@_raise A msg).
Proof. apply obeys_raise. Qed.

Lemma obeys_get_world : obeys get_world.
Proof. apply obeys_silent. intros w. repeat split. Qed.

Lemma obeys_load_info : obeys load_info.
Proof. apply obeys_silent. intros w. repeat split. Qed.

Lemma obeys_randint (a b : Z) : obeys (randint a b).
Proof. apply obeys_silent. intros w. repeat split. Qed.

Lemma obeys_bind {A B} (m : M A) (k : A -> M B) :
  obeys m -> (forall a, obeys (k a)) -> obeys (bind m k).
Proof.
  intros Hm Hk w. destruct (Hm w) as (evs1 & T1 & F1 & P1 & A1).
  unfold exec, bind in *. destruct (m w) as [[a|e] w1]; cbn [snd] in *.
  - destruct (Hk a w1) as (evs2 & T2 & F2 & P2 & A2). unfold exec in *.
    exists (evs1 ++ evs2)%list. rewrite T2, T1, app_assoc, A2, A1.
    repeat split; auto.
    + apply Forall_app. now split.
    + eapply host_path_app; eauto.
  - exists evs1. repeat split; auto.
Qed.

Lemma obeys_try_finally {A} (body : M A) (fin : M unit) :
  obeys body -> obeys fin -> obeys (try_finally body fin).
Proof.
  intros Hb Hf w. destruct (Hb w) as (evs1 & T1 & F1 & P1 & A1).
  unfold exec, try_finally in *. destruct (body w) as [r w1]; cbn [snd] in *.
  destruct (Hf w1) as (evs2 & T2 & F2 & P2 & A2). unfold exec in *.
  exists (evs1 ++ evs2)%list.
  destruct (fin w1) as [[u|e] w2]; cbn [snd] in *;
    rewrite T2, T1, app_assoc, A2, A1; repeat split; auto;
    try (apply Forall_app; now split); eapply host_path_app; eauto.
Qed.

Lemma obeys_try_except {A} (body : M A) (handler : exn -> M A) :
  obeys body -> (forall e, obeys (handler e)) -> obeys (try_except body handler).
Proof.
  intros Hb Hh w. destruct (Hb w) as (evs1 & T1 & F1 & P1 & A1).
  unfold exec, try_except in *. destruct (body w) as [[a|e] w1]; cbn [snd] in *.
  - exists evs1. repeat split; auto.
  - destruct (Hh e w1) as (evs2 & T2 & F2 & P2 & A2). unfold exec in *.
    exists (evs1 ++ evs2)%list. rewrite T2, T1, app_assoc, A2, A1.
    repeat split; auto.
    + apply Forall_app. now split.
    + eapply host_path_app; eauto.
Qed.

Lemma obeys_reload {A} (m : M A) : obeys m -> obeys (reload_environmental_info m).
Proof. intros H. apply obeys_try_finally; [exact H | apply obeys_load_info]. Qed.

Lemma obeys_execute_safely {A} (c : string) (m : M A) :
  obeys m -> obeys (execute_safely c m).
Proof. intros H. apply obeys_try_except; [exact H | intros e; apply obeys__raise]. Qed.

Lemma obeys_for_each {A} (l : list A) (body : A -> M unit) :
  (forall x, obeys (body x)) -> obeys (for_each l body).
Proof.
  intros H. induction l as [|x l IH]; cbn [for_each].
  - apply obeys_ret.
  - apply obeys_bind; [apply H | intros _; exact IH].
Qed.

Lemma obeys_when (b : bool) (m : M unit) : obeys m -> obeys (when b m).
Proof. intros H. destruct b; [exact H | apply obeys_ret]. Qed.

Lemma obeys_if {A} (b : bool) (m1 m2 : M A) :
  obeys m1 -> obeys m2 -> obeys (if b then m1 else m2).
Proof. intros H1 H2. now destruct b. Qed.

(** An action that is not a process and leaves the host as it is. *)
Lemma obeys_attempt (a : Action) (accepted : bool) :
  (forall argv, a <> Spawn argv) ->
  (forall ok, P {| ev_action := a; ev_ok := ok |}) ->
  obeys (attempt a accepted).
Proof.
  intros Hns HP w. eexists [_]. unfold exec, attempt; cbn [snd].
  split; [reflexivity|]. split; [|split; [|reflexivity]].
  - repeat constructor. apply HP.
  - apply host_path_one. unfold host_event. cbn [ev_action].
    destruct a; auto. now destruct (Hns argv).
Qed.

Lemma obeys_popen (argv : list string) :
  (forall ok, P {| ev_action := Spawn argv; ev_ok := ok |}) -> obeys (popen argv).
Proof.
  intros HP w.
  destruct (popen_spec argv w) as (out & ok & w' & Hp & Ht & Hd & Ha & Hf & Hs).
  exists [{| ev_action := Spawn argv; ev_ok := ok |}].
  unfold exec. rewrite Hp. cbn [snd].
  split; [exact Ht|]. split; [|split; [|exact Ha]].
  - repeat constructor. apply HP.
  - apply host_path_one. unfold host_event. cbn [ev_action ev_ok].
    destruct ok.
    + destruct (Hs eq_refl) as (d & h' & Hh & _ & Hw). exists d. now rewrite Hw.
    + destruct (Hf eq_refl) as (_ & Hw). rewrite Hw. auto.
Qed.

Lemma obeys_execute (argv : list string) :
  (forall ok, P {| ev_action := Spawn argv; ev_ok := ok |}) -> obeys (_execute argv).
Proof.
  intros HP. unfold _execute. apply obeys_execute_safely.
  destruct argv; [apply obeys__raise|].
  apply obeys_bind; [now apply obeys_popen|].
  intros [d|]; [apply obeys_ret | apply obeys__raise].
Qed.

Lemma obeys_execute_bool (argv : list string) :
  (forall ok, P {| ev_action := Spawn argv; ev_ok := ok |}) ->
  obeys (_execute_bool argv).
Proof.
  intros HP. unfold _execute_bool. apply obeys_execute_safely.
  destruct argv; [apply obeys__raise|].
  apply obeys_bind; [now apply obeys_popen|].
  intros o; apply obeys_ret.
Qed.

Lemma obeys_execute_queue (commands : list (list string)) :
  (forall ok, P {| ev_action := SpawnPipe commands; ev_ok := ok |}) ->
  obeys (_execute_queue commands).
Proof.
  intros HP. unfold _execute_queue. apply obeys_execute_safely.
  destruct commands; [apply obeys__raise|].
  apply obeys_bind; [apply obeys_attempt; [discriminate | exact HP]|].
  intros []; [apply obeys_ret | apply obeys__raise].
Qed.

Lemma obeys_raw_input (message : string) :
  (forall ok, P {| ev_action := RawInput message; ev_ok := ok |}) ->
  obeys (raw_input message).
Proof.
  intros HP w. unfold exec, raw_input.
  destruct (w_stdin w); cbn [snd]; eexists [_];
    (split; [reflexivity|]; split; [repeat constructor; apply HP|];
     split; [|reflexivity];
     apply host_path_one; unfold host_event; cbn [ev_action]; auto).
Qed.

Lemma obeys_read_file (path : string) :
  (forall ok, P {| ev_action := FileRead path; ev_ok := ok |}) ->
  obeys (_read_file path).
Proof.
  intros HP. unfold _read_file. apply obeys_bind; [apply obeys_get_world|].
  intros w0. destruct (lookup_file path (h_files (w_host w0))).
  - apply obeys_bind; [apply obeys_attempt; [discriminate | exact HP]|].
    intros []; [apply obeys_ret | apply obeys__raise].
  - apply obeys_bind; [apply obeys_attempt; [discriminate | exact HP]|].
    intros _. apply obeys__raise.
Qed.

(** A file action followed by the change of the files it stands for. *)
Lemma obeys_file_change (a : Action) (accepted : bool)
    (change : Host -> Host) (failure : exn) :
  (forall argv, a <> Spawn argv) ->
  (forall h, same_machines h (change h)) ->
  (forall ok, P {| ev_action := a; ev_ok := ok |}) ->
  obeys (ok <- attempt a accepted ;;
         if ok then (fun w => (Ok tt, set_host w (change (w_host w))))
         else raise failure).
Proof.
  intros Hns Hc HP w. unfold exec, bind, attempt.
  destruct (accepted && negb (w_fault w (List.length (w_trace w)) a));
    cbn [snd fst raise]; eexists [_];
    (split; [reflexivity|]; split; [repeat constructor; apply HP|];
     split; [|reflexivity];
     apply host_path_one; unfold host_event; cbn [ev_action];
     destruct a; auto; now destruct (Hns argv)).
Qed.

Lemma obeys_write_file (path : string) (data : FileData) :
  (forall ok, P {| ev_action := FileWrite path; ev_ok := ok |}) ->
  obeys (_write_file path data).
Proof.
  intros HP. unfold _write_file, _raise.
  apply (@obeys_file_change (FileWrite path) true
           (fun h => with_files h ((path, data) :: remove_file path (h_files h))));
    [discriminate | intros h; repeat split | exact HP].
Qed.


End Obeys.

(** The events of conflict resolution: the prompt, and the removal of a
    guest and of its volume. *)
Inductive removal_event : Event -> Prop :=
| removal_prompt p ok : removal_event {| ev_action := RawInput p; ev_ok := ok |}
| removal_destroy vm ok :
    removal_event {| ev_action := Spawn ["virsh"; "destroy"; vm]; ev_ok := ok |}
| removal_undefine vm ok :
    removal_event {| ev_action := Spawn ["virsh"; "undefine"; vm]; ev_ok := ok |}
| removal_lvremove p ok :
    removal_event {| ev_action := Spawn (lvremove_command p); ev_ok := ok |}.

Section ObeysProgram.

Variable P : Event -> Prop.

Lemma obeys_vm_info (vm attribute : string) : obeys P (vm_info vm attribute).
Proof.
  unfold vm_info. apply obeys_bind; [apply obeys_get_world|]. intros w0.
  destruct (find_vm vm (d_vm_info (w_data w0))) as [v|]; [|apply obeys__raise].
  destruct (vm_get attribute v); [apply obeys_ret | apply obeys__raise].
Qed.

Lemma obeys_vg_has_space (vg req : string) : obeys P (_vg_has_space vg req).
Proof.
  apply obeys_silent. intros w. unfold exec.
  rewrite vg_has_space_pure. repeat split.
Qed.

Lemma obeys_str_of (v : option string) : obeys P (str_of v).
Proof. destruct v; [apply obeys_ret | apply obeys_raise]. Qed.

Lemma obeys_lv_remove (p : string) :
  (forall ok, P {| ev_action := Spawn (lvremove_command p); ev_ok := ok |}) ->
  obeys P (_lv_remove p).
Proof.
  intros HP. unfold _lv_remove. apply obeys_reload.
  apply obeys_bind; [apply obeys_get_world|]. intros w0.
  apply obeys_if; [apply obeys__raise|].
  apply obeys_bind; [now apply obeys_execute|]. intros _. apply obeys_ret.
Qed.

Lemma obeys_lv_create (lv_size lv_name vg_name : string) :
  (forall ok, P {| ev_action := Spawn (lvcreate_command lv_size lv_name vg_name);
                   ev_ok := ok |}) ->
  obeys P (_lv_create lv_size lv_name vg_name).
Proof.
  intros HP. unfold _lv_create. apply obeys_reload.
  apply obeys_bind; [apply obeys_get_world|]. intros w0.
  apply obeys_if; [apply obeys__raise|].
  apply obeys_bind; [apply obeys_vg_has_space|]. intros b.
  apply obeys_if; [apply obeys__raise|].
  apply obeys_bind; [now apply obeys_execute|]. intros _. apply obeys_ret.
Qed.

Lemma obeys_lv_import (source_path target_path compression : string) :
  (forall cmds ok,
      (exists bs, last cmds [] = dd_write bs target_path) ->
      P {| ev_action := SpawnPipe cmds; ev_ok := ok |}) ->
  obeys P (_lv_import source_path target_path compression).
Proof.
  intros HP. unfold _lv_import. apply obeys_reload.
  apply obeys_bind; [apply obeys_get_world|]. intros w0.
  apply obeys_if; [apply obeys__raise|].
  apply obeys_if; [apply obeys__raise|].
  cbv zeta. apply obeys_execute_queue. intros ok. apply HP.
  exists (a_block_size (w_args w0)).
  destruct (negb (compression =? "none")); reflexivity.
Qed.

Hypothesis removals_allowed : forall e, removal_event e -> P e.

Lemma obeys_vm_undefine (vm : string) : obeys P (_vm_undefine vm).
Proof.
  unfold _vm_undefine, _vm_destroy. apply obeys_reload.
  apply obeys_bind.
  - apply obeys_execute_bool. intros ok. apply removals_allowed. constructor.
  - intros _. apply obeys_execute_bool. intros ok. apply removals_allowed. constructor.
Qed.

Lemma obeys_vm_remove (name : string) : obeys P (_vm_remove name).
Proof.
  unfold _vm_remove. apply obeys_bind; [apply obeys_vm_info|]. intros path.
  apply obeys_bind; [apply obeys_vm_undefine|]. intros [].
  - destruct path as [p|].
    + apply obeys_lv_remove. intros ok. apply removals_allowed. constructor.
    + apply obeys_reload. apply obeys_raise.
  - apply obeys_ret.
Qed.

Lemma obeys_vm_resolve_conflicts (depth : nat)
    (potential_conflicts : list (string * option string)) :
  obeys P (_vm_resolve_conflicts depth potential_conflicts).
Proof.
  revert potential_conflicts.
  induction depth as [|depth IH]; intros l; cbn [_vm_resolve_conflicts].
  - apply obeys_raise.
  - induction l as [|[attribute value] rest IHl].
    + apply obeys_ret.
    + apply obeys_bind; [apply obeys_get_world|]. intros w0.
      cbv zeta. apply obeys_bind.
      * apply obeys_for_each. intros vm_name.
        apply obeys_bind; [apply obeys_get_world|]. intros w1.
        apply obeys_if; [apply obeys_vm_remove|].
        apply obeys_if; [apply obeys__raise|].
        apply obeys_bind.
        { apply obeys_raw_input. intros ok. apply removals_allowed. constructor. }
        intros input.
        apply obeys_bind; [apply obeys_when, obeys_vm_remove|]. intros _.
        apply obeys_if; [apply obeys_raise | apply IH].
      * intros _. exact IHl.
Qed.

End ObeysProgram.

(* ---------------------------------------------------------------------- *)
(** ** The run state of one guest along a trace *)










(* ---------------------------------------------------------------------- *)
(** ** Computations that only read *)

(** The events of reading: a file read, and [ifconfig]. *)
Inductive inert : Event -> Prop :=
| inert_read p ok : inert {| ev_action := FileRead p; ev_ok := ok |}
| inert_ifconfig b ok : inert {| ev_action := Spawn ["ifconfig"; b]; ev_ok := ok |}.

(** [m] leaves host, inventory and arguments as they are, and records only
    inert events. *)
Definition reads {A} (m : M A) : Prop :=
  forall w, exists evs,
    w_trace (exec m w) = (w_trace w ++ evs)%list /\ Forall inert evs /\
    w_host (exec m w) = w_host w /\ w_data (exec m w) = w_data w /\
    w_args (exec m w) = w_args w.

Lemma reads_silent {A} (m : M A) :
  (forall w, w_trace (exec m w) = w_trace w /\ w_host (exec m w) = w_host w /\
             w_data (exec m w) = w_data w /\ w_args (exec m w) = w_args w) ->
  reads m.
Proof.
  intros H w. destruct (H w) as (T & Hh & Hd & Ha). exists [].
  rewrite T, app_nil_r. repeat split; auto.
Qed.

Lemma reads_ret {A} (a : A) : reads (ret a).
Proof. apply reads_silent. intros w. repeat split. Qed.

Lemma reads_raise {A} (e : exn) : reads (@raise A e).
Proof. apply reads_silent. intros w. repeat split. Qed.

Lemma reads_get_world : reads get_world.
Proof. apply reads_silent. intros w. repeat split. Qed.

Lemma reads_randint (a b : Z) : reads (randint a b).
Proof. apply reads_silent. intros w. repeat split. Qed.

Lemma reads_bind {A B} (m : M A) (k : A -> M B) :
  reads m -> (forall a, reads (k a)) -> reads (bind m k).
Proof.
  intros Hm Hk w. destruct (Hm w) as (evs1 & T1 & F1 & H1 & D1 & A1).
  unfold exec, bind in *. destruct (m w) as [[a|e] w1]; cbn [snd] in *.
  - destruct (Hk a w1) as (evs2 & T2 & F2 & H2 & D2 & A2). unfold exec in *.
    exists (evs1 ++ evs2)%list. rewrite T2, T1, app_assoc, H2, H1, D2, D1, A2, A1.
    repeat split; auto. apply Forall_app. now split.
  - exists evs1. repeat split; auto.
Qed.

Lemma reads_if {A} (b : bool) (m1 m2 : M A) :
  reads m1 -> reads m2 -> reads (if b then m1 else m2).
Proof. intros H1 H2. now destruct b. Qed.

Lemma reads_str_of (v : option string) : reads (str_of v).
Proof. destruct v; [apply reads_ret | apply reads_raise]. Qed.

Lemma reads_vm_info (vm attribute : string) : reads (vm_info vm attribute).
Proof.
  unfold vm_info. apply reads_bind; [apply reads_get_world|]. intros w0.
  destruct (find_vm vm (d_vm_info (w_data w0))) as [v|]; [|apply reads_raise].
  destruct (vm_get attribute v); [apply reads_ret | apply reads_raise].
Qed.

Lemma reads_vg_has_space (vg req : string) : reads (_vg_has_space vg req).
Proof.
  apply reads_silent. intros w. unfold exec.
  rewrite vg_has_space_pure. repeat split.
Qed.

Lemma reads_attempt_read (p : string) (accepted : bool) :
  reads (attempt (FileRead p) accepted).
Proof.
  intros w. eexists [_]. unfold exec, attempt; cbn [snd].
  split; [reflexivity|]. split; [repeat constructor|]. repeat split.
Qed.

Lemma reads_read_file (path : string) : reads (_read_file path).
Proof.
  unfold _read_file. apply reads_bind; [apply reads_get_world|].
  intros w0. destruct (lookup_file path (h_files (w_host w0))).
  - apply reads_bind; [apply reads_attempt_read|].
    intros []; [apply reads_ret | apply reads_raise].
  - apply reads_bind; [apply reads_attempt_read|].
    intros _. apply reads_raise.
Qed.

Lemma ifconfig_trace (b : string) (w : World) :
  exists ok,
    w_trace (snd (_execute_bool ["ifconfig"; b] w))
    = (w_trace w ++ [{| ev_action := Spawn ["ifconfig"; b]; ev_ok := ok |}])%list
    /\ w_args (snd (_execute_bool ["ifconfig"; b] w)) = w_args w.
Proof.
  destruct (@execute_bool_spec ["ifconfig"; b] w) as (ok & w' & E & T & _ & A & _);
    [discriminate|].
  exists ok. rewrite E. cbn [snd]. now split.
Qed.

Lemma reads_ifconfig (b : string) : reads (_execute_bool ["ifconfig"; b]).
Proof.
  intros w. destruct (ifconfig_trace b w) as (ok & T & A).
  destruct (ifconfig_run b w) as (_ & Hh & Hd).
  eexists [_]. unfold exec. split; [exact T|].
  split; [repeat constructor|]. repeat split; auto.
Qed.

Lemma reads_mac_attempts (attempts i : nat) : reads (mac_attempts attempts i).
Proof.
  induction i as [|i IH]; cbn [mac_attempts]; [apply reads_ret|].
  apply reads_bind; [apply reads_randint|]. intros b4.
  apply reads_bind; [apply reads_randint|]. intros b5.
  apply reads_bind; [apply reads_randint|]. intros b6.
  cbv zeta. apply reads_bind; [apply reads_get_world|]. intros w0.
  apply reads_if; [apply reads_ret|].
  apply reads_if; [apply reads_raise | exact IH].
Qed.

Lemma reads_create_mac_address : reads _create_mac_address.
Proof.
  unfold _create_mac_address. apply reads_bind; [apply reads_get_world|].
  intros w0. apply reads_mac_attempts.
Qed.

Lemma reads_create_vm_meta (vm : string) : reads (_create_vm_meta vm).
Proof.
  unfold _create_vm_meta. apply reads_bind; [apply reads_get_world|]. intros w0.
  cbv zeta. repeat (apply reads_bind; [apply reads_vm_info|]; intros ?).
  apply reads_ret.
Qed.

Lemma reads_load_target_meta (meta : Meta) (action : string) :
  reads (_load_target_meta meta action).
Proof.
  unfold _load_target_meta. apply reads_bind; [apply reads_get_world|]. intros w0.
  cbv zeta. apply reads_bind.
  - apply reads_if; [apply reads_ret|].
    apply reads_if; [|apply reads_ret].
    apply reads_bind; [apply reads_create_mac_address|]. intros mac. apply reads_ret.
  - intros m. apply reads_bind; [apply reads_str_of|]. intros vg.
    apply reads_bind; [apply reads_str_of|]. intros lv. apply reads_ret.
Qed.

Lemma reads_verify_target_meta (meta : Meta) : reads (_verify_target_meta meta).
Proof.
  unfold _verify_target_meta. apply reads_bind; [apply reads_get_world|]. intros w0.
  destruct (m_volume_group meta) as [vg|]; [|apply reads_raise].
  apply reads_if; [apply reads_raise|].
  apply reads_bind.
  { destruct (m_image_size meta); [apply reads_vg_has_space | apply reads_raise]. }
  intros b. apply reads_if; [apply reads_raise|].
  apply reads_bind.
  { destruct (m_bridge meta); [apply reads_ifconfig | apply reads_raise]. }
  intros ok. apply reads_if; [apply reads_raise|].
  apply reads_if; [apply reads_raise | apply reads_ret].
Qed.

Lemma reads_load_target_xml (xml : string) (source_meta target_meta : Meta)
    (action : string) :
  reads (_load_target_xml xml source_meta target_meta action).
Proof.
  unfold _load_target_xml. apply reads_if; [apply reads_raise|]. cbv zeta.
  apply reads_if; [apply reads_raise|].
  apply reads_bind; [apply reads_str_of|]. intros sd.
  apply reads_bind; [apply reads_str_of|]. intros td.
  apply reads_if; [apply reads_raise|].
  apply reads_bind; [apply reads_str_of|]. intros sm.
  apply reads_bind; [apply reads_str_of|]. intros tm.
  apply reads_if; [apply reads_raise|].
  apply reads_bind; [apply reads_str_of|]. intros sb.
  apply reads_bind; [apply reads_str_of|]. intros tb.
  apply reads_if; [apply reads_raise|].
  apply reads_if; [|apply reads_ret].
  apply reads_bind; [apply reads_str_of|]. intros su.
  apply reads_if; [apply reads_raise | apply reads_ret].
Qed.

Lemma reads_load_vm_meta_from_file (path : string) :
  reads (_load_vm_meta_from_file path).
Proof.
  unfold _load_vm_meta_from_file. apply reads_bind; [apply reads_read_file|].
  intros [s|m]; [apply reads_raise | apply reads_ret].
Qed.

(* ---------------------------------------------------------------------- *)
(** ** The suspend / snapshot / resume bracket *)





(** No [virsh] command on a guest. *)
Definition calm (e : Event) : Prop :=
  forall verb x, ev_action e <> Spawn ["virsh"; verb; x].
















(* ---------------------------------------------------------------------- *)
(** ** The events of a backup and of the storage step of a clone *)


Lemma calm_action (a : Action) (ok : bool) :
  (forall argv, a <> Spawn argv) -> calm {| ev_action := a; ev_ok := ok |}.
Proof. intros H verb x E. cbn in E. now apply (H _ E). Qed.



Section ObeysOperations.

Variable P : Event -> Prop.
Hypothesis calm_allowed : forall e, calm e -> P e.

Lemma obeys_create_vm_meta (vm : string) : obeys P (_create_vm_meta vm).
Proof.
  unfold _create_vm_meta. apply obeys_bind; [apply obeys_get_world|]. intros w0.
  cbv zeta. repeat (apply obeys_bind; [apply obeys_vm_info|]; intros ?).
  apply obeys_ret.
Qed.




Lemma obeys_verify_local_vm_storage : obeys P _verify_local_vm_storage.
Proof.
  unfold _verify_local_vm_storage. intros w.
  unfold exec, bind, get_world, attempt.
  destruct (negb (mem (a_source (w_args w)) (h_dirs (w_host w)))).
  - destruct (true && negb (w_fault w (List.length (w_trace w))
                              (MakeDirs (a_source (w_args w)))));
      cbn [snd fst ret]; eexists [_];
      (split; [reflexivity|];
       split; [repeat constructor; apply calm_allowed, calm_action; discriminate|];
       split; [|reflexivity];
       apply host_path_one; unfold host_event; cbn [ev_action]; repeat split).
  - exists []. cbn [snd ret]. rewrite app_nil_r. repeat split; constructor.
Qed.




Hypothesis removals_allowed : forall e, removal_event e -> P e.


End ObeysOperations.

(* ---------------------------------------------------------------------- *)
(** ** The run state of the source after a backup or a live clone *)















Lemma bind_get_world {A} (k : World -> M A) (w : World) :
  bind get_world k w = k w w.
Proof. reflexivity. Qed.





(** Replaces the events of a concrete run by their value. *)
Ltac evaluate_issued :=
  match goal with
  | |- context [issued ?m ?w] =>
      let v := eval vm_compute in (issued m w) in
      replace (issued m w) with v by (vm_compute; reflexivity)
  end.


(* ---------------------------------------------------------------------- *)
(** ** The volume a clone creates and the volume it writes to *)

(** No condition on an event. *)
Definition any_event (e : Event) : Prop := True.

(** A run of [m] that returns has recorded an event that satisfies [Q]. *)
Definition reaches {A} (Q : Event -> Prop) (m : M A) : Prop :=
  forall w, is_ok (run m w) = true -> Exists Q (issued m w).

Lemma obeys_issued {A} (P : Event -> Prop) (m : M A) (w : World) :
  obeys P m -> Forall P (issued m w).
Proof.
  intros H. destruct (H w) as (evs & T & F & _). now rewrite (@issued_app _ m w evs T).
Qed.

Lemma issued_bind {A B} (m : M A) (k : A -> M B) (w : World) :
  obeys any_event m -> (forall a, obeys any_event (k a)) ->
  issued (bind m k) w
  = (issued m w ++ match m w with
                   | (Ok a, w') => issued (k a) w'
                   | (Raise _, _) => []
                   end)%list.
Proof.
  intros Hm Hk. destruct (Hm w) as (evs0 & T0 & _).
  rewrite (@issued_app _ m w evs0 T0). unfold exec in T0.
  destruct (m w) as [[a|e] w1] eqn:E; cbn [snd] in T0.
  - destruct (Hk a w1) as (evs1 & T1 & _). rewrite (@issued_app _ (k a) w1 evs1 T1).
    apply issued_app. unfold exec, bind in *. rewrite E, T1, T0.
    now rewrite app_assoc.
  - rewrite app_nil_r. apply issued_app. unfold exec, bind. now rewrite E.
Qed.

Lemma reaches_bind_l {A B} (Q : Event -> Prop) (m : M A) (k : A -> M B) :
  obeys any_event m -> (forall a, obeys any_event (k a)) ->
  reaches Q m -> reaches Q (bind m k).
Proof.
  intros Hm Hk R w Hok. rewrite (@issued_bind _ _ m k w Hm Hk).
  apply Exists_app. left. apply R.
  unfold run, bind in *. destruct (m w) as [[a|e] w1]; [reflexivity | discriminate].
Qed.

Lemma reaches_bind_r {A B} (Q : Event -> Prop) (m : M A) (k : A -> M B) :
  obeys any_event m -> (forall a, obeys any_event (k a)) ->
  (forall a, reaches Q (k a)) -> reaches Q (bind m k).
Proof.
  intros Hm Hk R w Hok. rewrite (@issued_bind _ _ m k w Hm Hk).
  apply Exists_app. right.
  unfold run, bind in *. destruct (m w) as [[a|e] w1]; [|discriminate].
  now apply R.
Qed.

Lemma reaches_try_finally {A} (Q : Event -> Prop) (body : M A) (fin : M unit) :
  obeys any_event body -> obeys any_event fin ->
  reaches Q body -> reaches Q (try_finally body fin).
Proof.
  intros Hb Hf R w Hok.
  destruct (Hb w) as (evs0 & T0 & _). specialize (R w).
  rewrite (@issued_app _ body w evs0 T0) in R.
  assert (T : exists evs1, w_trace (exec (try_finally body fin) w)
                           = (w_trace w ++ (evs0 ++ evs1))%list
                           /\ (is_ok (run (try_finally body fin) w) = true ->
                               is_ok (run body w) = true)).
  { unfold run, exec, try_finally in *.
    destruct (body w) as [r w1]; cbn [fst snd] in *.
    destruct (Hf w1) as (evs1 & T1 & _). unfold exec in T1. exists evs1.
    destruct (fin w1) as [[u|e] w2]; cbn [fst snd] in *;
      (split; [now rewrite T1, T0, app_assoc | auto]). discriminate. }
  destruct T as (evs1 & T & Hr). rewrite (@issued_app _ _ _ _ T).
  apply Exists_app. left. apply R, Hr, Hok.
Qed.

Lemma reaches_reload {A} (Q : Event -> Prop) (m : M A) :
  obeys any_event m -> reaches Q m -> reaches Q (reload_environmental_info m).
Proof.
  intros Hm R. unfold reload_environmental_info.
  apply reaches_try_finally; [exact Hm | apply obeys_load_info | exact R].
Qed.

(** Proves that a computation built from the program's primitives records
    events. *)
Ltac any_event_tac :=
  repeat first
    [ apply obeys_ret | apply obeys_raise | apply obeys__raise | apply obeys_get_world
    | apply obeys_str_of | apply obeys_vm_info | apply obeys_vg_has_space
    | apply obeys_vm_resolve_conflicts; intros; exact I
    | apply obeys_lv_create; intros; exact I
    | apply obeys_lv_import; intros; exact I
    | apply obeys_lv_remove; intros; exact I
    | apply obeys_write_file; intros; exact I
    | apply obeys_execute_queue; intros; exact I
    | apply obeys_execute_bool; intros; exact I
    | apply obeys_execute; intros; exact I
    | apply obeys_reload
    | apply obeys_try_finally | apply obeys_when | apply obeys_if
    | apply obeys_bind
    | match goal with |- forall _, _ => intro end
    | match goal with |- obeys _ (match ?x with _ => _ end) => destruct x end ].

Lemma reaches_lv_create (lv_size lv_name vg_name : string) :
  reaches (fun e => e = {| ev_action := Spawn (lvcreate_command lv_size lv_name vg_name);
                           ev_ok := true |})
          (_lv_create lv_size lv_name vg_name).
Proof.
  unfold _lv_create. cbv zeta. apply reaches_reload; [any_event_tac|].
  intros w Hok. unfold run, issued, exec in *. rewrite bind_get_world in *.
  destruct (lv_known vg_name lv_name w); [discriminate Hok|].
  unfold bind in *. rewrite (surjective_pairing (_vg_has_space vg_name lv_size w)) in *.
  rewrite vg_has_space_pure in *.
  destruct (fst (_vg_has_space vg_name lv_size w)) as [[|]|e]; cbn [negb] in *;
    try discriminate Hok.
  destruct (@execute_spec (lvcreate_command lv_size lv_name vg_name) w)
    as (ok & w' & Hw & Ht & _ & _ & Hf & _); [discriminate|].
  destruct (_execute (lvcreate_command lv_size lv_name vg_name) w) as [r w1] eqn:E.
  cbn [fst snd] in *. subst w1.
  destruct ok.
  - destruct r; cbn [snd ret]; rewrite Ht, skipn_length_app; now constructor.
  - destruct (Hf eq_refl) as (_ & msg & Hm). rewrite Hm in Hok. discriminate Hok.
Qed.

Lemma execute_queue_ok (commands : list (list string)) (w : World) :
  is_ok (run (_execute_queue commands) w) = true ->
  issued (_execute_queue commands) w
  = [{| ev_action := SpawnPipe commands; ev_ok := true |}].
Proof.
  unfold run, issued, exec, _execute_queue, execute_safely, try_except, bind, attempt.
  destruct commands as [|c cs]; [discriminate|].
  cbn [andb].
  destruct (negb (w_fault w (List.length (w_trace w)) (SpawnPipe (c :: cs))));
    cbn [fst snd ret _raise raise log_event w_trace is_ok]; [|discriminate].
  intros _. apply skipn_length_app.
Qed.

Lemma reaches_lv_import (source_path target_path compression : string) :
  reaches (fun e => exists cmds bs,
               e = {| ev_action := SpawnPipe cmds; ev_ok := true |} /\
               last cmds [] = dd_write bs target_path)
          (_lv_import source_path target_path compression).
Proof.
  unfold _lv_import. apply reaches_reload; [any_event_tac|].
  intros w Hok. unfold run, issued, exec in *. rewrite bind_get_world in *.
  destruct (negb (path_exists source_path (w_host w))); [discriminate Hok|].
  destruct (negb (path_exists target_path (w_host w))); [discriminate Hok|].
  cbv zeta in *. apply execute_queue_ok in Hok. unfold issued, exec in Hok.
  rewrite Hok. constructor. eexists. exists (a_block_size (w_args w)).
  split; [reflexivity|].
  destruct (negb (compression =? "none")); reflexivity.
Qed.

Lemma reaches_weaken {A} (Q Q' : Event -> Prop) (m : M A) :
  (forall e, Q e -> Q' e) -> reaches Q m -> reaches Q' m.
Proof.
  intros H R w Hok. specialize (R w Hok).
  rewrite Exists_exists in *. destruct R as (e & He & Hq). exists e. auto.
Qed.

Lemma bind_ret {A B} (a : A) (k : A -> M B) : bind (ret a) k = k a.
Proof. reflexivity. Qed.

Lemma append_inv_head (p a b : string) : p ++ a = p ++ b -> a = b.
Proof.
  induction p as [|c p IH]; intros H; [exact H|].
  apply IH. now injection H.
Qed.

Lemma dev_path_inj (vg a b : string) : dev_path vg a = dev_path vg b -> a = b.
Proof.
  unfold dev_path. intros H.
  apply append_inv_head in H. apply append_inv_head in H.
  now apply append_inv_head in H.
Qed.

(** What the events of a clone say about its volumes: an [lvcreate] that
    is no snapshot creates the volume [n] in the volume group [vg], and a
    pipeline that ends in [dd of=p] writes to [/dev/vg/lv]. *)
Definition creates_as (n vg lv : string) (e : Event) : Prop :=
  match ev_action e with
  | Spawn argv =>
      forall size x v, argv = lvcreate_command size x v -> x = n /\ v = vg
  | SpawnPipe cmds =>
      forall bs p, last cmds [] = dd_write bs p -> p = dev_path vg lv
  | _ => True
  end.

(** The successful creation of the volume [n] in [vg]. *)
Definition created (n vg : string) (e : Event) : Prop :=
  exists size,
    e = {| ev_action := Spawn (lvcreate_command size n vg); ev_ok := true |}.

(** A successful pipeline whose last stage is [dd of=/dev/vg/lv]. *)
Definition written (vg lv : string) (e : Event) : Prop :=
  exists cmds bs,
    e = {| ev_action := SpawnPipe cmds; ev_ok := true |} /\
    last cmds [] = dd_write bs (dev_path vg lv).

Lemma creates_as_removal (n vg lv : string) (e : Event) :
  removal_event e -> creates_as n vg lv e.
Proof.
  intros H. destruct H; unfold creates_as; cbn [ev_action]; auto;
    intros size x v E; discriminate E.
Qed.

Lemma creates_as_inert (n vg lv : string) (e : Event) :
  inert e -> creates_as n vg lv e.
Proof.
  intros H. destruct H; unfold creates_as; cbn [ev_action]; auto.
  intros size x v E. discriminate E.
Qed.

Lemma creates_as_lvcreate (n vg lv size : string) (ok : bool) :
  creates_as n vg lv
    {| ev_action := Spawn (lvcreate_command size n vg); ev_ok := ok |}.
Proof.
  unfold creates_as, lvcreate_command. cbn [ev_action].
  intros size' x v [= _ -> E]. split; [reflexivity|].
  symmetry. exact E.
Qed.

Lemma creates_as_import (n vg lv : string) (cmds : list (list string)) (ok : bool) :
  (exists bs, last cmds [] = dd_write bs (dev_path vg lv)) ->
  creates_as n vg lv {| ev_action := SpawnPipe cmds; ev_ok := ok |}.
Proof.
  intros (bs0 & E0). unfold creates_as. cbn [ev_action].
  intros bs p E. rewrite E0 in E. unfold dd_write in E.
  injection E as _ E. symmetry. exact E.
Qed.

Lemma obeys_lv_create_snapshot_command (P : Event -> Prop) (vm sn : string) :
  (forall size p ok,
      P {| ev_action := Spawn (snapshot_command size sn p); ev_ok := ok |}) ->
  obeys P (_lv_create_snapshot vm sn).
Proof.
  intros HP. unfold _lv_create_snapshot. apply obeys_reload. cbv zeta.
  apply obeys_bind; [apply obeys_vm_info|]. intros vg.
  apply obeys_bind; [apply obeys_vm_info|]. intros path.
  apply obeys_bind.
  { destruct vg; [apply obeys_vg_has_space | apply obeys__raise]. }
  intros b. apply obeys_if; [apply obeys__raise|].
  destruct path as [p|]; [|apply obeys_raise].
  apply obeys_bind; [apply obeys_get_world|]. intros w0.
  apply obeys_if; [apply obeys__raise|].
  apply obeys_bind; [|intros _; apply obeys_ret].
  apply obeys_execute. intros ok. apply HP.
Qed.

Ltac any_event_step :=
  first [ any_event_tac; fail
        | apply obeys_lv_create_snapshot_command; intros; exact I ].

(** For some volume group [vg]: every event of [m] creates [vg/n] and
    writes to [vg/lv], and a run that returns has done both. *)
Definition clones_to {A} (n lv : string) (m : M A) (w : World) : Prop :=
  exists vg evs,
    w_trace (exec m w) = (w_trace w ++ evs)%list /\
    Forall (creates_as n vg lv) evs /\
    (is_ok (run m w) = true ->
     Exists (created n vg) evs /\ Exists (written vg lv) evs).

Lemma clones_to_raise {A} (n lv : string) (e : exn) (w : World) :
  clones_to n lv (@raise A e) w.
Proof.
  exists "", []. cbn. rewrite app_nil_r.
  split; [reflexivity|]. split; [constructor | discriminate].
Qed.

Lemma clones_to_prefix {A B} (n lv : string) (m : M A) (k : A -> M B) (w : World) :
  reads m ->
  (forall a w', m w = (Ok a, w') -> w_args w' = w_args w -> clones_to n lv (k a) w') ->
  clones_to n lv (bind m k) w.
Proof.
  intros Hm Hk. destruct (Hm w) as (evs0 & T0 & F0 & _ & _ & A0).
  unfold clones_to, run, exec, bind in *.
  destruct (m w) as [[a|e] w1] eqn:E; cbn [fst snd] in *.
  - destruct (Hk a w1 eq_refl A0) as (vg & evs1 & T1 & F1 & R1).
    exists vg, (evs0 ++ evs1)%list.
    split; [now rewrite T1, T0, app_assoc|].
    split.
    + apply Forall_app. split; [|exact F1].
      eapply Forall_impl; [|exact F0]. intros e. apply creates_as_inert.
    + intros Hok. destruct (R1 Hok) as (R & R').
      split; apply Exists_app; now right.
  - exists "", evs0. split; [exact T0|]. split; [|discriminate].
    eapply Forall_impl; [|exact F0]. intros x. apply creates_as_inert.
Qed.

Lemma clones_to_global {A} (n vg lv : string) (m : M A) (w : World) :
  obeys (creates_as n vg lv) m ->
  reaches (created n vg) m -> reaches (written vg lv) m ->
  clones_to n lv m w.
Proof.
  intros Ho R1 R2. destruct (Ho w) as (evs & T & F & _).
  exists vg, evs. split; [exact T|]. split; [exact F|].
  intros Hok. specialize (R1 w Hok). specialize (R2 w Hok).
  rewrite (@issued_app _ m w evs T) in *. now split.
Qed.

Lemma reaches_raise {A} (Q : Event -> Prop) (e : exn) : reaches Q (@raise A e).
Proof. intros w H. discriminate H. Qed.

Section CloneStorage.

Variables n vg lv : string.
Variable target_meta : Meta.
Hypothesis target_name : m_name target_meta = n.
Hypothesis target_vg : m_volume_group target_meta = Some vg.
Hypothesis target_disk : m_disk target_meta = Some (dev_path vg lv).

(** The storage step of [_clone_local]. *)
Lemma clone_local_storage (source_image_file target_xml_file target_xml : string)
    (data : ReturnData) (w : World) :
  clones_to n lv
    (_vm_resolve_conflicts recursion_limit (potential_conflicts_of target_meta) ;;;
     lv_size <- str_of (m_logical_volume_size target_meta) ;;
     vg <- str_of (m_volume_group target_meta) ;;
     _lv_create lv_size (m_name target_meta) vg ;;;
     disk <- str_of (m_disk target_meta) ;;
     _lv_import source_image_file disk (m_compression target_meta) ;;;
     _write_file target_xml_file (Text target_xml) ;;;
     ret data) w.
Proof.
  rewrite target_name, target_vg, target_disk.
  destruct (m_logical_volume_size target_meta) as [size|]; cbn [str_of].
  - rewrite !bind_ret. apply (@clones_to_global _ n vg lv).
    + apply obeys_bind;
        [apply obeys_vm_resolve_conflicts; apply creates_as_removal|]. intros _.
      apply obeys_bind; [apply obeys_lv_create; apply creates_as_lvcreate|]. intros _.
      apply obeys_bind.
      { apply obeys_lv_import. intros cmds ok H. now apply creates_as_import. }
      intros _. apply obeys_bind; [|intros _; apply obeys_ret].
      apply obeys_write_file. intros ok. exact I.
    + apply reaches_bind_r; [any_event_step | any_event_step|]. intros _.
      apply reaches_bind_l; [any_event_step | any_event_step|].
      eapply reaches_weaken; [|apply reaches_lv_create].
      intros e ->. now exists size.
    + apply reaches_bind_r; [any_event_step | any_event_step|]. intros _.
      apply reaches_bind_r; [any_event_step | any_event_step|]. intros _.
      apply reaches_bind_l; [any_event_step | any_event_step|].
      eapply reaches_weaken; [|apply reaches_lv_import].
      intros e (cmds & bs & -> & L). now exists cmds, bs.
  - apply (@clones_to_global _ n vg lv).
    + apply obeys_bind;
        [apply obeys_vm_resolve_conflicts; apply creates_as_removal|]. intros _.
      apply obeys_raise.
    + apply reaches_bind_r; [any_event_step | any_event_step|]. intros _.
      apply reaches_raise.
    + apply reaches_bind_r; [any_event_step | any_event_step|]. intros _.
      apply reaches_raise.
Qed.

(** The bracket and the storage step of [_clone_live]. *)
Lemma clone_live_storage (status : option string) (vm snapshot_name : string)
    (snapshot_path target_xml_file target_xml : string)
    (data : ReturnData) (w : World) :
  clones_to n lv
    (when (is_running status) (_vm_suspend vm ;;; ret tt) ;;;
     _lv_create_snapshot vm snapshot_name ;;;
     when (is_running status) (_vm_resume vm ;;; ret tt) ;;;
     _vm_resolve_conflicts recursion_limit (potential_conflicts_of target_meta) ;;;
     try_finally
       (lv_size <- str_of (m_logical_volume_size target_meta) ;;
        vg <- str_of (m_volume_group target_meta) ;;
        _lv_create lv_size (m_name target_meta) vg ;;;
        disk <- str_of (m_disk target_meta) ;;
        _lv_import snapshot_path disk "none")
       (_lv_remove snapshot_path) ;;;
     _write_file target_xml_file (Text target_xml) ;;;
     ret data) w.
Proof.
  rewrite target_name, target_vg, target_disk.
  assert (V : forall verb ok,
             creates_as n vg lv
               {| ev_action := Spawn ["virsh"; verb; vm]; ev_ok := ok |}).
  { intros verb ok size x v E. discriminate E. }
  assert (S : forall size p ok,
             creates_as n vg lv
               {| ev_action := Spawn (snapshot_command size snapshot_name p);
                  ev_ok := ok |}).
  { intros size p ok size' x v E. discriminate E. }
  assert (R : forall p ok,
             creates_as n vg lv
               {| ev_action := Spawn (lvremove_command p); ev_ok := ok |}).
  { intros p ok size x v E. discriminate E. }
  destruct (m_logical_volume_size target_meta) as [size|]; cbn [str_of].
  - rewrite !bind_ret. apply (@clones_to_global _ n vg lv).
    + apply obeys_bind.
      { apply obeys_when, obeys_bind; [|intros _; apply obeys_ret].
        apply obeys_execute_bool. apply V. }
      intros _. apply obeys_bind;
        [apply obeys_lv_create_snapshot_command; apply S|]. intros _.
      apply obeys_bind.
      { apply obeys_when, obeys_bind; [|intros _; apply obeys_ret].
        apply obeys_execute_bool. apply V. }
      intros _. apply obeys_bind;
        [apply obeys_vm_resolve_conflicts; apply creates_as_removal|]. intros _.
      apply obeys_bind.
      { apply obeys_try_finally; [|apply obeys_lv_remove; apply R].
        apply obeys_bind; [apply obeys_lv_create; apply creates_as_lvcreate|].
        intros _. apply obeys_lv_import. intros cmds ok H.
        now apply creates_as_import. }
      intros _. apply obeys_bind; [|intros _; apply obeys_ret].
      apply obeys_write_file. intros ok. exact I.
    + do 4 (apply reaches_bind_r; [any_event_step | any_event_step|]; intros _).
      apply reaches_bind_l; [any_event_step | any_event_step|].
      apply reaches_try_finally; [any_event_step | any_event_step|].
      apply reaches_bind_l; [any_event_step | any_event_step|].
      eapply reaches_weaken; [|apply reaches_lv_create].
      intros e ->. now exists size.
    + do 4 (apply reaches_bind_r; [any_event_step | any_event_step|]; intros _).
      apply reaches_bind_l; [any_event_step | any_event_step|].
      apply reaches_try_finally; [any_event_step | any_event_step|].
      apply reaches_bind_r; [any_event_step | any_event_step|]. intros _.
      eapply reaches_weaken; [|apply reaches_lv_import].
      intros e (cmds & bs & -> & L). now exists cmds, bs.
  - change (bind (raise TypeError) ?k) with (@raise unit TypeError).
    apply (@clones_to_global _ n vg lv).
    + apply obeys_bind.
      { apply obeys_when, obeys_bind; [|intros _; apply obeys_ret].
        apply obeys_execute_bool. apply V. }
      intros _. apply obeys_bind;
        [apply obeys_lv_create_snapshot_command; apply S|]. intros _.
      apply obeys_bind.
      { apply obeys_when, obeys_bind; [|intros _; apply obeys_ret].
        apply obeys_execute_bool. apply V. }
      intros _. apply obeys_bind;
        [apply obeys_vm_resolve_conflicts; apply creates_as_removal|]. intros _.
      apply obeys_bind.
      { apply obeys_try_finally; [apply obeys_raise | apply obeys_lv_remove; apply R]. }
      intros _. apply obeys_bind; [|intros _; apply obeys_ret].
      apply obeys_write_file. intros ok. exact I.
    + do 4 (apply reaches_bind_r; [any_event_step | any_event_step|]; intros _).
      apply reaches_bind_l; [any_event_step | any_event_step|].
      apply reaches_try_finally; [any_event_step | any_event_step|].
      apply reaches_raise.
    + do 4 (apply reaches_bind_r; [any_event_step | any_event_step|]; intros _).
      apply reaches_bind_l; [any_event_step | any_event_step|].
      apply reaches_try_finally; [any_event_step | any_event_step|].
      apply reaches_raise.
Qed.

End CloneStorage.

(** What a clone named [n] resolves as its target. *)
Lemma load_target_meta_named (meta target : Meta) (n : string) (w w' : World) :
  a_name (w_args w) = Some n -> nonempty n = true ->
  _load_target_meta meta "clone" w = (Ok target, w') ->
  m_name target = n /\
  exists vg lv,
    m_volume_group target = Some vg /\
    override (a_logical_volume (w_args w)) (Some n) = Some lv /\
    m_disk target = Some (dev_path vg lv).
Proof.
  intros Hn Hne. unfold _load_target_meta, override, dev_path.
  rewrite bind_get_world. cbv zeta. rewrite Hn. cbn [truthy]. rewrite Hne.
  change ("clone" =? "clone") with true. cbv iota.
  destruct (truthy (a_volume_group (w_args w)));
    destruct (a_logical_volume (w_args w)) as [l|]; cbn [truthy];
    try destruct (nonempty l);
    destruct (truthy (a_logical_volume_size (w_args w)));
    destruct (truthy (a_bridge (w_args w)));
    destruct (truthy (a_mac (w_args w))).
  all: unfold bind.
  all: try match goal with
       | |- context [_create_mac_address ?x] =>
           destruct (_create_mac_address x) as [[mac|e] w1]; [|discriminate]
       end.
  all: cbn [ret set_m_name set_m_uuid set_m_volume_group set_m_logical_volume
         set_m_logical_volume_size set_m_bridge set_m_mac set_m_disk
         m_name m_volume_group m_logical_volume m_disk].
  all: match goal with
       | |- context [str_of ?v ?x] =>
           destruct v as [g|] eqn:Vg; cbn [str_of ret raise]; [|discriminate]
       end.
  all: intros [= <- _].
  all: cbn [set_m_name set_m_uuid set_m_volume_group set_m_logical_volume
         set_m_logical_volume_size set_m_bridge set_m_mac set_m_disk
         m_name m_volume_group m_logical_volume m_disk].
  all: split; [reflexivity|]; do 2 eexists; repeat split;
       first [reflexivity | eassumption].
Qed.

Lemma clones_to_clone_local (w : World) (n lv : string) :
  a_name (w_args w) = Some n -> nonempty n = true ->
  override (a_logical_volume (w_args w)) (Some n) = Some lv ->
  clones_to n lv _clone_local w.
Proof.
  intros Hn Hne Hlv. unfold _clone_local.
  assert (E : forall (k : World -> M ReturnData), clones_to n lv (k w) w ->
                clones_to n lv (bind get_world k) w) by (intros k H; exact H).
  apply E. cbv zeta.
  destruct (negb (path_exists (rstrip_slash (a_source (w_args w)) ++ "/") (w_host w)));
    [apply clones_to_raise|].
  apply clones_to_prefix; [apply reads_load_vm_meta_from_file|]. intros sm w1 _ A1.
  apply clones_to_prefix; [apply reads_load_target_meta|]. intros tm w2 E2 A2.
  rewrite <- A1 in Hn, Hlv.
  destruct (@load_target_meta_named sm tm n w1 w2 Hn Hne E2)
    as (Tn & vg & lv' & Tg & Tl & Td).
  rewrite Hlv in Tl. injection Tl as <-.
  apply clones_to_prefix; [apply reads_verify_target_meta|]. intros _ w3 _ A3.
  apply clones_to_prefix; [apply reads_read_file|]. intros xml w4 _ A4.
  apply clones_to_prefix; [apply reads_load_target_xml|]. intros txml w5 _ A5.
  now apply (@clone_local_storage n vg lv tm).
Qed.

Lemma clones_to_clone_live (w : World) (n lv : string) :
  a_name (w_args w) = Some n -> nonempty n = true ->
  override (a_logical_volume (w_args w)) (Some n) = Some lv ->
  clones_to n lv _clone_live w.
Proof.
  intros Hn Hne Hlv. unfold _clone_live.
  assert (E : forall (k : World -> M ReturnData), clones_to n lv (k w) w ->
                clones_to n lv (bind get_world k) w) by (intros k H; exact H).
  apply E. cbv zeta.
  apply clones_to_prefix; [apply reads_create_vm_meta|]. intros sm w1 _ A1.
  apply clones_to_prefix; [apply reads_load_target_meta|]. intros tm w2 E2 A2.
  rewrite <- A1 in Hn, Hlv.
  destruct (@load_target_meta_named sm tm n w1 w2 Hn Hne E2)
    as (Tn & vg & lv' & Tg & Tl & Td).
  rewrite Hlv in Tl. injection Tl as <-.
  apply clones_to_prefix; [apply reads_verify_target_meta|]. intros _ w3 _ A3.
  apply clones_to_prefix; [apply reads_vm_info|]. intros xml w4 _ A4.
  apply clones_to_prefix; [apply reads_load_target_xml|]. intros txml w5 _ A5.
  apply clones_to_prefix; [apply reads_vm_info|]. intros st w6 _ A6.
  now apply (@clone_live_storage n vg lv tm).
Qed.

(** C9.  A local or live clone to the new name [n], where [lv] is the
    [--logical-volume] override when one is given and [n] otherwise.  For
    some volume group [vg]: every [lvcreate] of the operation that is no
    snapshot creates the volume [n] in [vg], and every pipeline that ends in
    [dd of=...] writes to [/dev/vg/lv]; an operation that returns has
    created [/dev/vg/n] and has written to [/dev/vg/lv].  The two paths are
    the same exactly when the override is absent (or empty) or is [n]. *)
Theorem clone_creates_volume_by_name (w : World) (n : string) :
  a_name (w_args w) = Some n -> nonempty n = true ->
  exists lv,
    override (a_logical_volume (w_args w)) (Some n) = Some lv /\
    (forall vg,
        dev_path vg n = dev_path vg lv <->
        truthy (a_logical_volume (w_args w)) = false \/
        a_logical_volume (w_args w) = Some n) /\
    forall op, op = _clone_local \/ op = _clone_live ->
      exists vg,
        Forall (creates_as n vg lv) (issued op w) /\
        (is_ok (run op w) = true ->
         Exists (created n vg) (issued op w) /\ Exists (written vg lv) (issued op w)).
Proof.
  intros Hn Hne.
  assert (L : exists lv, override (a_logical_volume (w_args w)) (Some n) = Some lv).
  { unfold override. destruct (a_logical_volume (w_args w)) as [l|]; cbn [truthy].
    - destruct (nonempty l); eexists; reflexivity.
    - eexists; reflexivity. }
  destruct L as (lv & Hlv). exists lv. split; [exact Hlv|]. split.
  - intros vg. unfold override in Hlv. split.
    + intros H. apply dev_path_inj in H. subst lv.
      destruct (truthy (a_logical_volume (w_args w))); [now right | now left].
    + intros [H | H].
      * rewrite H in Hlv. now injection Hlv as <-.
      * rewrite H in Hlv. cbn [truthy] in Hlv. rewrite Hne in Hlv.
        now injection Hlv as <-.
  - intros op Hop.
    assert (C : clones_to n lv op w).
    { destruct Hop as [-> | ->];
        [now apply clones_to_clone_local | now apply clones_to_clone_live]. }
    destruct C as (vg & evs & T & F & R). exists vg.
    rewrite (@issued_app _ op w evs T). now split.
Qed.

(** [vm.py clone /backup/vm1 vm2 --logical-volume data] on a host that has
    an unused volume [vg0/data]: the clone creates [vg0/vm2], copies the
    image into [vg0/data] and returns. *)
Lemma clone_writes_to_other_volume :
  let h := with_lvs (Sample.host_with "10.00g" Sample.backup_files)
             [{| lv_vg := "vg0"; lv_name := "vm1"; lv_size := "5.00g" |};
              {| lv_vg := "vg0"; lv_name := "data"; lv_size := "5.00g" |}] in
  let w := Sample.start h (Sample.local_clone_args "vm2" (Some "data") None)
             Sample.no_fault [] in
  is_ok (run _clone_local w) = true /\
  In {| ev_action := Spawn (lvcreate_command "5.00g" "vm2" "vg0"); ev_ok := true |}
     (issued _clone_local w) /\
  In {| ev_action := SpawnPipe [dd_read "512K" "/backup/vm1/./vm1.img";
                                dd_write "512K" "/dev/vg0/data"];
        ev_ok := true |}
     (issued _clone_local w) /\
  has_lv "vg0" "vm2" (w_host (exec _clone_local w)) = true.
Proof.
  cbv zeta. split; [vm_compute; reflexivity|].
  split; [evaluate_issued; do 3 right; left; reflexivity|].
  split; [evaluate_issued; do 4 right; left; reflexivity|].
  vm_compute. reflexivity.
Qed.

(** The theorem at that clone. *)
Lemma clone_creates_volume_by_name_witness :
  let h := with_lvs (Sample.host_with "10.00g" Sample.backup_files)
             [{| lv_vg := "vg0"; lv_name := "vm1"; lv_size := "5.00g" |};
              {| lv_vg := "vg0"; lv_name := "data"; lv_size := "5.00g" |}] in
  let w := Sample.start h (Sample.local_clone_args "vm2" (Some "data") None)
             Sample.no_fault [] in
  exists lv,
    override (a_logical_volume (w_args w)) (Some "vm2") = Some lv /\
    (forall vg,
        dev_path vg "vm2" = dev_path vg lv <->
        truthy (a_logical_volume (w_args w)) = false \/
        a_logical_volume (w_args w) = Some "vm2") /\
    forall op, op = _clone_local \/ op = _clone_live ->
      exists vg,
        Forall (creates_as "vm2" vg lv) (issued op w) /\
        (is_ok (run op w) = true ->
         Exists (created "vm2" vg) (issued op w) /\ Exists (written vg lv) (issued op w)).
Proof.
  cbv zeta.
  apply (@clone_creates_volume_by_name
           (Sample.start
              (with_lvs (Sample.host_with "10.00g" Sample.backup_files)
                 [{| lv_vg := "vg0"; lv_name := "vm1"; lv_size := "5.00g" |};
                  {| lv_vg := "vg0"; lv_name := "data"; lv_size := "5.00g" |}])
              (Sample.local_clone_args "vm2" (Some "data") None) Sample.no_fault [])
           "vm2"); reflexivity.
Defined.

(* ====================================================================== *)
(** * Further properties of the program *)
(* ====================================================================== *)

(* ---------------------------------------------------------------------- *)
(** ** Runs from one state

    [obeys] speaks of every state.  Where what is recorded depends on the
    arguments of the run, [logs P m w] says it of the run of [m] from [w]. *)

Definition logs {A} (P : Event -> Prop) (m : M A) (w : World) : Prop :=
  exists evs, w_trace (exec m w) = (w_trace w ++ evs)%list /\ Forall P evs.

Lemma logs_issued {A} (P : Event -> Prop) (m : M A) (w : World) :
  logs P m w -> Forall P (issued m w).
Proof. intros (evs & T & F). now rewrite (@issued_app _ m w evs T). Qed.

Lemma logs_obeys {A} (P : Event -> Prop) (m : M A) (w : World) :
  obeys P m -> logs P m w.
Proof. intros H. destruct (H w) as (evs & T & F & _). now exists evs. Qed.

Lemma obeys_args {A} (P : Event -> Prop) (m : M A) (w w' : World) (r : result A) :
  obeys P m -> m w = (r, w') -> w_args w' = w_args w.
Proof.
  intros H E. destruct (H w) as (evs & _ & _ & _ & Ha).
  unfold exec in Ha. now rewrite E in Ha.
Qed.

Lemma logs_bind {A B} (P : Event -> Prop) (m : M A) (k : A -> M B) (w : World) :
  logs P m w ->
  (forall a w', m w = (Ok a, w') -> logs P (k a) w') ->
  logs P (bind m k) w.
Proof.
  intros (evs0 & T0 & F0) Hk. unfold logs, exec, bind in *.
  destruct (m w) as [[a|e] w1]; cbn [snd] in *.
  - destruct (Hk a w1 eq_refl) as (evs1 & T1 & F1).
    exists (evs0 ++ evs1)%list. split; [now rewrite T1, T0, app_assoc|].
    apply Forall_app. now split.
  - now exists evs0.
Qed.

Lemma logs_get_world {A} (P : Event -> Prop) (k : World -> M A) (w : World) :
  logs P (k w) w -> logs P (bind get_world k) w.
Proof. intros H. exact H. Qed.

Lemma logs_nothing {A} (P : Event -> Prop) (m : M A) (w : World) :
  w_trace (exec m w) = w_trace w -> logs P m w.
Proof. intros H. exists []. rewrite app_nil_r. split; [exact H | constructor]. Qed.

Lemma logs_try_except {A} (P : Event -> Prop) (body : M A) (handler : exn -> M A)
    (w : World) :
  logs P body w ->
  (forall e w', body w = (Raise e, w') -> logs P (handler e) w') ->
  logs P (try_except body handler) w.
Proof.
  intros (evs0 & T0 & F0) Hh. unfold logs, exec, try_except in *.
  destruct (body w) as [[a|e] w1]; cbn [snd] in *.
  - now exists evs0.
  - destruct (Hh e w1 eq_refl) as (evs1 & T1 & F1).
    exists (evs0 ++ evs1)%list. split; [now rewrite T1, T0, app_assoc|].
    apply Forall_app. now split.
Qed.

(* ---------------------------------------------------------------------- *)
(** ** Where a local backup writes *)

(** What a local backup of [name] into [source] may do on the host. *)
Definition local_backup_event (source name compression bs : string) (e : Event) : Prop :=
  match ev_action e with
  | MakeDirs p => p = source
  | FileWrite p => p = source ++ "/meta.txt" \/ p = source ++ "/" ++ name ++ ".xml"
  | SpawnPipe cmds =>
      exists disk,
        hd [] cmds = dd_read bs (disk ++ ".snapshot") /\
        last cmds [] = dd_write bs (source ++ name ++ ".img" ++ zip_extension compression)
  | _ => False
  end.

(** X1.  A local backup of [name] creates the directory [--source] when it
    is missing, writes the metadata to [source + '/meta.txt'] and the
    definition to [source + '/' + name + '.xml'], and sends the snapshot
    through one pipeline from [dd if=<disk>.snapshot] to
    [dd of=source + name + '.img' + extension]: the image path is formed
    without the separator that the other two paths get.  It does nothing
    else on the host. *)
Theorem backup_local_writes (w : World) (name compression : string) :
  a_name (w_args w) = Some name ->
  a_compression (w_args w) = Some compression ->
  Forall (local_backup_event (a_source (w_args w)) name compression
            (a_block_size (w_args w)))
         (issued _backup_local w).
Proof.
  intros Hn Hc. apply logs_issued. unfold _backup_local.
  set (a := w_args w) in *.
  set (P := local_backup_event (a_source a) name compression (a_block_size a)).
  assert (W : forall (path : string) (data : FileData) (x : World),
             (path = a_source a ++ "/meta.txt" \/
              path = a_source a ++ "/" ++ name ++ ".xml") ->
             logs P (_write_file path data) x).
  { intros path data x Hp. apply logs_obeys, obeys_write_file. intros ok. exact Hp. }
  apply logs_bind.
  { unfold _verify_local_vm_storage. apply logs_get_world. cbv zeta. fold a.
    destruct (negb (mem (a_source a) (h_dirs (w_host w))));
      [|now apply logs_nothing].
    unfold logs, exec, bind, attempt.
    destruct (true && negb (w_fault w (List.length (w_trace w))
                              (MakeDirs (a_source a))));
      cbn [snd fst ret]; eexists [_];
      (split; [reflexivity | repeat constructor]). }
  intros u1 w1 E1.
  assert (A1 : w_args w1 = a).
  { apply (@obeys_args _ any_event _ _ _ _
             (@obeys_verify_local_vm_storage any_event (fun _ _ => I)) E1). }
  apply logs_bind.
  { unfold _backup_local_meta_info. apply logs_get_world. cbv zeta.
    apply logs_bind; [apply logs_obeys, obeys_create_vm_meta|].
    intros md w2 _. apply W. left. now rewrite A1. }
  intros u2 w2 E2.
  assert (A2 : w_args w2 = a).
  { rewrite <- A1. revert E2. unfold _backup_local_meta_info.
    apply (@obeys_args _ any_event). any_event_step. }
  apply logs_bind.
  { unfold _backup_local_xml. apply logs_get_world. cbv zeta.
    apply logs_bind; [apply logs_obeys, obeys_vm_info|].
    intros xml w3 _. apply W. right. rewrite A2. now rewrite Hn. }
  intros u3 w3 E3.
  assert (A3 : w_args w3 = a).
  { rewrite <- A2. revert E3. unfold _backup_local_xml.
    apply (@obeys_args _ any_event). any_event_step. }
  unfold _backup_local_lv.
  apply logs_try_except; [|intros e w4 _; now apply logs_nothing].
  apply logs_get_world. cbv zeta.
  apply logs_bind; [apply logs_obeys, obeys_vm_info|].
  intros disk w4 _. apply logs_obeys, obeys_execute_queue. intros ok.
  unfold P, local_backup_event. cbn [ev_action]. rewrite A3.
  rewrite Hn, Hc. cbn [fmt].
  exists (fmt disk). split; [reflexivity|].
  unfold zip_stage. destruct (negb (compression =? "none")); reflexivity.
Qed.

(** The backup [vm.py backup vm1 /backup/vm1/ --compression none]. *)
Lemma backup_local_writes_witness :
  Forall (local_backup_event "/backup/vm1/" "vm1" "none" "512K")
         (issued _backup_local
            (Sample.start Sample.host Sample.backup_args Sample.no_fault [])).
Proof.
  exact (@backup_local_writes
           (Sample.start Sample.host Sample.backup_args Sample.no_fault [])
           "vm1" "none" eq_refl eq_refl).
Defined.

(* ---------------------------------------------------------------------- *)
(** ** Removing and importing a volume *)






(* ---------------------------------------------------------------------- *)
(** ** Operations whose source is missing *)

(** [m] raises an [ApplicationError] from [w] and leaves [w] as it is. *)
Definition refuses {A} (m : M A) (w : World) : Prop :=
  (exists msg, run m w = Raise (ApplicationError msg)) /\ exec m w = w.

Lemma vm_info_unknown (vm attribute : string) (w : World) :
  vm_known vm w = false ->
  exists msg, vm_info vm attribute w = (Raise (ApplicationError msg), w).
Proof.
  unfold vm_known, vm_info. rewrite bind_get_world.
  destruct (find_vm vm (d_vm_info (w_data w))); [discriminate|].
  intros _. eexists. reflexivity.
Qed.

Lemma create_vm_meta_unknown (vm : string) (w : World) :
  vm_known vm w = false ->
  exists msg, _create_vm_meta vm w = (Raise (ApplicationError msg), w).
Proof.
  intros H. destruct (@vm_info_unknown vm "name" w H) as (msg & E).
  exists msg. unfold _create_vm_meta. rewrite bind_get_world. cbv zeta.
  now rewrite (@bind_raise _ _ _ _ _ _ _ E).
Qed.

(** X4.  An operation whose source does not exist stops with an
    [ApplicationError] before anything is done: a backup of a guest the
    inventory does not know, a live clone of such a guest, and a local
    clone or import from a directory that does not exist.  Nothing is
    recorded and the state is unchanged. *)
Theorem missing_source_refused (w : World) :
  (vm_known (fmt (a_name (w_args w))) w = false -> refuses backup w) /\
  (vm_known (a_source (w_args w)) w = false -> refuses _clone_live w) /\
  (path_exists (rstrip_slash (a_source (w_args w)) ++ "/") (w_host w) = false ->
   refuses _clone_local w /\ refuses _import_local w).
Proof.
  unfold refuses, run, exec. split; [|split].
  - intros H. unfold backup. rewrite bind_get_world. cbv zeta. rewrite H.
    cbn [negb _raise raise fst snd]. split; [eexists; reflexivity | reflexivity].
  - intros H. destruct (@create_vm_meta_unknown (a_source (w_args w)) w H) as (msg & E).
    unfold _clone_live. rewrite bind_get_world. cbv zeta.
    rewrite (@bind_raise _ _ _ _ _ _ _ E). split; [eexists; reflexivity | reflexivity].
  - intros H. split.
    + unfold _clone_local. rewrite bind_get_world. cbv zeta. rewrite H.
      cbn [negb _raise raise fst snd]. split; [eexists; reflexivity | reflexivity].
    + unfold _import_local. rewrite bind_get_world. cbv zeta. rewrite H.
      cbn [negb _raise raise fst snd]. split; [eexists; reflexivity | reflexivity].
Qed.

(** A backup, a live clone, a local clone and an import of [vm9], which
    is neither a guest nor a directory of the sample host. *)
Lemma missing_source_refused_witness :
  let args :=
    {| a_name := Some "vm9"; a_source := "vm9"; a_remote := None;
       a_identity_file := None; a_compression := None; a_overwrite := false;
       a_volume_group := None; a_logical_volume := None;
       a_logical_volume_size := None; a_bridge := None; a_mac := None;
       a_output_level := "1"; a_block_size := "512K" |} in
  let w := Sample.start Sample.host args Sample.no_fault [] in
  refuses backup w /\ refuses _clone_live w /\
  refuses _clone_local w /\ refuses _import_local w.
Proof.
  cbv zeta.
  destruct (missing_source_refused
              (Sample.start Sample.host
                 {| a_name := Some "vm9"; a_source := "vm9"; a_remote := None;
                    a_identity_file := None; a_compression := None;
                    a_overwrite := false; a_volume_group := None;
                    a_logical_volume := None; a_logical_volume_size := None;
                    a_bridge := None; a_mac := None; a_output_level := "1";
                    a_block_size := "512K" |} Sample.no_fault []))
    as (A & B & C).
  split; [apply A; reflexivity|]. split; [apply B; reflexivity|].
  apply C. reflexivity.
Defined.

(* ---------------------------------------------------------------------- *)
(** ** Searching the inventory *)

(** Whether [attribute] is a key of the guests' dictionaries. *)
Definition known_attribute (attribute : string) : bool :=
  in_list attribute
    ["name"; "status"; "uuid"; "disk"; "disk_file"; "mac"; "bridge"; "xml";
     "disk_size"; "logical_volume"; "volume_group"].

Lemma vm_get_known (attribute : string) (v : VmInfo) :
  vm_get attribute v = None <-> known_attribute attribute = false.
Proof.
  unfold vm_get, known_attribute, in_list, mem. cbn [existsb].
  repeat match goal with
         | |- context [attribute =? ?k] =>
             destruct (attribute =? k) eqn:?; cbn [orb];
             [split; intros; discriminate|]
         end.
  split; reflexivity.
Qed.

Lemma mem_In (x : string) (l : list string) : mem x l = true <-> In x l.
Proof.
  unfold mem. rewrite existsb_exists. split.
  - intros (y & Hy & E). apply String.eqb_eq in E. now subst.
  - intros H. exists x. split; [exact H | apply String.eqb_refl].
Qed.

Lemma dedup_In (x : string) (l : list string) : In x (dedup l) <-> In x l.
Proof.
  induction l as [|y l IH]; [reflexivity|]. cbn [dedup].
  destruct (mem y l) eqn:E.
  - rewrite IH. split; [now right|]. intros [-> | H]; [now apply mem_In | exact H].
  - cbn [In]. now rewrite IH.
Qed.

Lemma dedup_NoDup (l : list string) : NoDup (dedup l).
Proof.
  induction l as [|y l IH]; [constructor|]. cbn [dedup].
  destruct (mem y l) eqn:E; [exact IH|].
  constructor; [|exact IH]. rewrite dedup_In. intros H.
  apply mem_In in H. congruence.
Qed.

Lemma search_matches_In (attribute : string) (value : option string)
    (vms : list VmInfo) (n : string) :
  known_attribute attribute = true ->
  (In n (search_matches attribute value vms) <->
   exists v x, In v vms /\ dom_name (vi_dom v) = n /\
               vm_get attribute v = Some x /\ opt_eqb x value = true).
Proof.
  intros K. induction vms as [|v vms IH]; cbn [search_matches].
  - split; [contradiction | intros (v & x & [] & _)].
  - destruct (vm_get attribute v) as [x|] eqn:G.
    + destruct (opt_eqb x value) eqn:O.
      * cbn [In]. rewrite IH. split.
        -- intros [<- | (v' & x' & Hv & Hn & Hg & Ho)].
           ++ exists v, x. repeat split; auto; now left.
           ++ exists v', x'. repeat split; auto; now right.
        -- intros (v' & x' & [<- | Hv] & Hn & Hg & Ho).
           ++ now left.
           ++ right. exists v', x'. auto.
      * rewrite IH. split.
        -- intros (v' & x' & Hv & Hn & Hg & Ho). exists v', x'.
           repeat split; auto; now right.
        -- intros (v' & x' & [<- | Hv] & Hn & Hg & Ho).
           ++ congruence.
           ++ exists v', x'. auto.
    + apply vm_get_known in G. congruence.
Qed.

Lemma search_matches_unknown (attribute : string) (value : option string)
    (vms : list VmInfo) :
  known_attribute attribute = false -> search_matches attribute value vms = [].
Proof.
  intros K. destruct vms as [|v vms]; [reflexivity|]. cbn [search_matches].
  now rewrite (proj2 (vm_get_known attribute v) K).
Qed.

Lemma is_unique_in_search (attribute : string) (value : option string)
    (vms : list VmInfo) :
  is_unique_in attribute value vms = true <-> search_matches attribute value vms = [].
Proof.
  destruct (known_attribute attribute) eqn:K.
  - induction vms as [|v vms IH]; cbn [is_unique_in search_matches];
      [split; reflexivity|].
    destruct (vm_get attribute v) as [x|] eqn:G.
    + destruct (opt_eqb x value); [split; discriminate | exact IH].
    + apply vm_get_known in G. congruence.
  - rewrite (@search_matches_unknown attribute value vms K). split; [reflexivity|]. intros _.
    induction vms as [|v vms IH]; [reflexivity|]. cbn [is_unique_in].
    now rewrite (proj2 (vm_get_known attribute v) K).
Qed.

(** X5.  [vm_info_search] returns, each once, the names of the guests
    whose [attribute] equals the value, and nothing for an attribute that
    is no key (the [return] in its [finally] clause discards the error it
    raises for one).  [vm_info_is_unique] holds exactly when the search
    finds nothing. *)
Theorem vm_info_search_spec (attribute : string) (value : option string) (w : World) :
  NoDup (vm_info_search attribute value w) /\
  (if known_attribute attribute
   then forall n,
       In n (vm_info_search attribute value w) <->
       exists v x, In v (d_vm_info (w_data w)) /\ dom_name (vi_dom v) = n /\
                   vm_get attribute v = Some x /\ opt_eqb x value = true
   else vm_info_search attribute value w = []) /\
  (vm_info_is_unique attribute value w = true <->
   vm_info_search attribute value w = []).
Proof.
  unfold vm_info_search, vm_info_is_unique. split; [apply dedup_NoDup|]. split.
  - destruct (known_attribute attribute) eqn:K.
    + intros n. rewrite dedup_In. now apply search_matches_In.
    + now rewrite (@search_matches_unknown attribute value _ K).
  - rewrite is_unique_in_search. split.
    + now intros ->.
    + intros H.
      destruct (search_matches attribute value (d_vm_info (w_data w))) as [|x l] eqn:E;
        [reflexivity|].
      assert (I : In x (dedup (x :: l))) by (apply dedup_In; now left).
      rewrite H in I. contradiction.
Qed.

(* ---------------------------------------------------------------------- *)
(** ** Conflict resolution with [--overwrite] *)

(** The commands that remove a guest: [virsh destroy], [virsh undefine]
    and [lvremove -f]. *)
Inductive removal_command : Event -> Prop :=
| command_destroy vm ok :
    removal_command {| ev_action := Spawn ["virsh"; "destroy"; vm]; ev_ok := ok |}
| command_undefine vm ok :
    removal_command {| ev_action := Spawn ["virsh"; "undefine"; vm]; ev_ok := ok |}
| command_lvremove p ok :
    removal_command {| ev_action := Spawn (lvremove_command p); ev_ok := ok |}.

Lemma obeys_vm_remove_commands (name : string) :
  obeys removal_command (_vm_remove name).
Proof.
  unfold _vm_remove. apply obeys_bind; [apply obeys_vm_info|]. intros path.
  apply obeys_bind.
  { unfold _vm_undefine, _vm_destroy. apply obeys_reload. apply obeys_bind.
    - apply obeys_execute_bool. intros ok. constructor.
    - intros _. apply obeys_execute_bool. intros ok. constructor. }
  intros [].
  - destruct path as [p|].
    + apply obeys_lv_remove. intros ok. constructor.
    + apply obeys_reload. apply obeys_raise.
  - apply obeys_ret.
Qed.

Lemma logs_for_each {A} (P : Event -> Prop) (I : World -> Prop) (l : list A)
    (body : A -> M unit) (w : World) :
  I w ->
  (forall x w', I w' ->
     logs P (body x) w' /\ (forall r w'', body x w' = (r, w'') -> I w'')) ->
  logs P (for_each l body) w /\
  (forall r w'', for_each l body w = (r, w'') -> I w'').
Proof.
  intros Hw Hb. revert w Hw. induction l as [|x l IH]; intros w Hw; cbn [for_each].
  - split; [now apply logs_nothing|]. intros r w'' [= _ <-]. exact Hw.
  - destruct (Hb x w Hw) as (L & Inv). split.
    + apply logs_bind; [exact L|]. intros u w' E. apply IH. now apply (Inv _ _ E).
    + intros r w''. unfold bind. destruct (body x w) as [[u|e] w1] eqn:E.
      * intros E'. apply (proj2 (IH w1 (Inv _ _ eq_refl)) _ _ E').
      * intros [= _ <-]. now apply (Inv _ _ eq_refl).
Qed.

Lemma resolve_conflicts_overwrite (depth : nat)
    (potential_conflicts : list (string * option string)) (w : World) :
  a_overwrite (w_args w) = true ->
  logs removal_command (_vm_resolve_conflicts depth potential_conflicts) w.
Proof.
  intros Ho. destruct depth as [|depth]; cbn [_vm_resolve_conflicts].
  - now apply logs_nothing.
  - revert w Ho.
    induction potential_conflicts as [|[attribute value] rest IH]; intros w Ho.
    + now apply logs_nothing.
    + apply logs_get_world. cbv zeta.
      match goal with
      | |- logs _ (bind (for_each ?l ?body) _) _ =>
          destruct (@logs_for_each _ removal_command
                      (fun x => a_overwrite (w_args x) = true) l body w Ho) as (L & Inv)
      end.
      { intros vm_name w1 H1. split.
        - apply logs_get_world. rewrite H1. apply logs_obeys, obeys_vm_remove_commands.
        - intros r w2. rewrite bind_get_world, H1. intros E.
          now rewrite (@obeys_args _ _ _ _ _ _ (obeys_vm_remove_commands vm_name) E). }
      apply logs_bind; [exact L|]. intros u w1 E. apply IH. now apply (Inv _ _ E).
Qed.

(** X6.  With [--overwrite], conflict resolution asks nothing: whatever
    the candidates and the inventory, the only actions it records are the
    [virsh destroy], [virsh undefine] and [lvremove -f] commands that remove
    conflicting guests. *)
Theorem overwrite_never_prompts (depth : nat)
    (potential_conflicts : list (string * option string)) (w : World) :
  a_overwrite (w_args w) = true ->
  Forall removal_command (issued (_vm_resolve_conflicts depth potential_conflicts) w) /\
  prompts (issued (_vm_resolve_conflicts depth potential_conflicts) w) = [].
Proof.
  intros Ho.
  assert (F : Forall removal_command
                (issued (_vm_resolve_conflicts depth potential_conflicts) w))
    by now apply logs_issued, resolve_conflicts_overwrite.
  split; [exact F|].
  induction F as [|e evs He _ IH]; [reflexivity|].
  unfold prompts in *. cbn [flat_map]. rewrite IH.
  destruct He; reflexivity.
Qed.

(** Resolving the name [vm2] with [--overwrite] on the host that has a
    guest [vm2]. *)
Lemma overwrite_never_prompts_witness :
  let w := Sample.start Sample.host2 (Sample.live_clone_args "vm2" true "1")
             Sample.no_fault [] in
  Forall removal_command
    (issued (_vm_resolve_conflicts recursion_limit [("name", Some "vm2")]) w) /\
  prompts (issued (_vm_resolve_conflicts recursion_limit [("name", Some "vm2")]) w) = [].
Proof.
  exact (@overwrite_never_prompts recursion_limit [("name", Some "vm2")]
           (Sample.start Sample.host2 (Sample.live_clone_args "vm2" true "1")
              Sample.no_fault [])
           eq_refl).
Defined.

(* ---------------------------------------------------------------------- *)
(** ** The volume an import and a remote clone create *)

(** [m] records only events that satisfy [P] and leaves the arguments
    alone. *)
Definition passes {A} (P : Event -> Prop) (m : M A) : Prop :=
  forall w, exists evs,
    w_trace (exec m w) = (w_trace w ++ evs)%list /\ Forall P evs /\
    w_args (exec m w) = w_args w.

Lemma passes_obeys {A} (P : Event -> Prop) (m : M A) : obeys P m -> passes P m.
Proof. intros H w. destruct (H w) as (evs & T & F & _ & Ha). now exists evs. Qed.

Lemma passes_reads {A} (P : Event -> Prop) (m : M A) :
  (forall e, inert e -> P e) -> reads m -> passes P m.
Proof.
  intros HP H w. destruct (H w) as (evs & T & F & _ & _ & Ha). exists evs.
  split; [exact T|]. split; [|exact Ha]. eapply Forall_impl; [exact HP | exact F].
Qed.

Lemma passes_bind {A B} (P : Event -> Prop) (m : M A) (k : A -> M B) :
  passes P m -> (forall a, passes P (k a)) -> passes P (bind m k).
Proof.
  intros Hm Hk w. destruct (Hm w) as (evs1 & T1 & F1 & A1).
  unfold exec, bind in *. destruct (m w) as [[a|e] w1]; cbn [snd] in *.
  - destruct (Hk a w1) as (evs2 & T2 & F2 & A2). unfold exec in *.
    exists (evs1 ++ evs2)%list. rewrite T2, T1, app_assoc, A2, A1.
    split; [reflexivity|]. split; [|reflexivity]. apply Forall_app. now split.
  - now exists evs1.
Qed.

Lemma passes_args {A} (P : Event -> Prop) (m : M A) (w w' : World) (r : result A) :
  passes P m -> m w = (r, w') -> w_args w' = w_args w.
Proof.
  intros H E. destruct (H w) as (evs & _ & _ & Ha).
  unfold exec in Ha. now rewrite E in Ha.
Qed.

(** An event that creates no volume and writes to none. *)
Definition neutral (e : Event) : Prop :=
  match ev_action e with
  | Spawn argv => forall size x v, argv <> lvcreate_command size x v
  | SpawnPipe _ => False
  | _ => True
  end.

Lemma neutral_creates_as (n vg lv : string) (e : Event) :
  neutral e -> creates_as n vg lv e.
Proof.
  unfold neutral, creates_as. destruct (ev_action e); auto; try contradiction.
  intros H size x v E. exfalso. exact (H size x v E).
Qed.

Lemma neutral_inert (e : Event) : inert e -> neutral e.
Proof. intros H. destruct H; cbn; auto. intros size x v E. discriminate E. Qed.

Lemma neutral_ssh (a : Args) (cmd : list string) (ok : bool) :
  neutral {| ev_action := Spawn (_remote_ssh_command a cmd); ev_ok := ok |}.
Proof.
  unfold neutral, _remote_ssh_command. cbn [ev_action].
  destruct (a_identity_file a) as [i|]; [destruct (nonempty i)|];
    intros size x v E; discriminate E.
Qed.

Lemma passes_fetch_remote (action : string) : passes neutral (fetch_remote action).
Proof.
  unfold fetch_remote.
  apply passes_bind; [apply passes_obeys, obeys_get_world|]. intros w0. cbv zeta.
  apply passes_bind.
  { apply passes_obeys, obeys_execute_bool. intros ok. apply neutral_ssh. }
  intros found. destruct (negb found); [apply passes_obeys, obeys__raise|].
  apply passes_bind.
  { apply passes_obeys, obeys_execute. intros ok. apply neutral_ssh. }
  intros data. apply passes_bind.
  { destruct data; [apply passes_obeys, obeys__raise | apply passes_obeys, obeys_ret]. }
  intros sm. apply passes_bind;
    [apply (@passes_reads _ _ _ neutral_inert), reads_load_target_meta|]. intros tm.
  apply passes_bind;
    [apply (@passes_reads _ _ _ neutral_inert), reads_verify_target_meta|]. intros _.
  apply passes_bind.
  { apply passes_obeys, obeys_execute_bool. intros ok. apply neutral_ssh. }
  intros found1. destruct (negb found1); [apply passes_obeys, obeys__raise|].
  apply passes_bind.
  { apply passes_obeys, obeys_execute_bool. intros ok. apply neutral_ssh. }
  intros found2. destruct (negb found2); [apply passes_obeys, obeys__raise|].
  apply passes_bind.
  { apply passes_obeys, obeys_execute. intros ok. apply neutral_ssh. }
  intros xml. apply passes_bind;
    [apply (@passes_reads _ _ _ neutral_inert), reads_load_target_xml|]. intros txml.
  apply passes_obeys, obeys_ret.
Qed.

Lemma bind_inv {A B} (m : M A) (k : A -> M B) (w w'' : World) (b : B) :
  bind m k w = (Ok b, w'') ->
  exists a w', m w = (Ok a, w') /\ k a w' = (Ok b, w'').
Proof.
  unfold bind. destruct (m w) as [[a|e] w'] eqn:E; [|discriminate].
  intros H. now exists a, w'.
Qed.

Lemma execute_bool_args (argv : list string) (w w' : World) (r : result bool) :
  _execute_bool argv w = (r, w') -> w_args w' = w_args w.
Proof.
  apply (@obeys_args _ any_event). apply obeys_execute_bool. intros ok. exact I.
Qed.

Lemma execute_args (argv : list string) (w w' : World) (r : result FileData) :
  _execute argv w = (r, w') -> w_args w' = w_args w.
Proof.
  apply (@obeys_args _ any_event). apply obeys_execute. intros ok. exact I.
Qed.

(** The target metadata that [fetch_remote] returns was resolved by
    [_load_target_meta] from the source metadata it returns. *)
Lemma fetch_remote_target (action : string) (w w' : World) (sm tm : Meta)
    (xml : string) :
  fetch_remote action w = (Ok (sm, tm, xml), w') ->
  exists w1 w2, w_args w1 = w_args w /\ _load_target_meta sm action w1 = (Ok tm, w2).
Proof.
  unfold fetch_remote. rewrite bind_get_world. cbv zeta. intros H.
  apply bind_inv in H. destruct H as (found & wa & Ea & H).
  destruct (negb found); [discriminate|].
  apply bind_inv in H. destruct H as (data & wb & Eb & H).
  apply bind_inv in H. destruct H as (sm0 & wc & Ec & H).
  apply bind_inv in H. destruct H as (tm0 & wd & Ed & H).
  apply bind_inv in H. destruct H as (u & we & Ee & H).
  apply bind_inv in H. destruct H as (found1 & wf & Ef & H).
  destruct (negb found1); [discriminate|].
  apply bind_inv in H. destruct H as (found2 & wg & Eg & H).
  destruct (negb found2); [discriminate|].
  apply bind_inv in H. destruct H as (sxml & wh & Eh & H).
  apply bind_inv in H. destruct H as (txml & wi & Ei & H).
  injection H as -> -> _ _.
  exists wc, wd. split; [|exact Ed].
  assert (Aa : w_args wa = w_args w) by exact (execute_bool_args _ _ Ea).
  assert (Ab : w_args wb = w_args wa) by exact (execute_args _ _ Eb).
  assert (Ac : wc = wb).
  { destruct data; cbn in Ec; [discriminate | now injection Ec]. }
  congruence.
Qed.

(** What [_load_target_meta] resolves as the target volume. *)
Lemma load_target_meta_volume (meta target : Meta) (action : string) (w w' : World) :
  _load_target_meta meta action w = (Ok target, w') ->
  exists vg x,
    m_volume_group target = Some vg /\ m_logical_volume target = Some x /\
    m_disk target = Some (dev_path vg x) /\
    (truthy (a_logical_volume (w_args w)) = true ->
     a_logical_volume (w_args w) = Some x).
Proof.
  unfold _load_target_meta, dev_path. rewrite bind_get_world. cbv zeta.
  destruct (a_name (w_args w)) as [n|]; cbn [truthy];
    [destruct (nonempty n)|].
  all: destruct (action =? "clone");
    destruct (truthy (a_volume_group (w_args w)));
    destruct (truthy (a_logical_volume (w_args w))) eqn:L;
    destruct (truthy (a_logical_volume_size (w_args w)));
    destruct (truthy (a_bridge (w_args w)));
    destruct (truthy (a_mac (w_args w))).
  all: unfold bind.
  all: try match goal with
       | |- context [_create_mac_address ?x] =>
           destruct (_create_mac_address x) as [[mac|e] w1]; [|discriminate]
       end.
  all: cbn [ret set_m_name set_m_uuid set_m_volume_group set_m_logical_volume
         set_m_logical_volume_size set_m_bridge set_m_mac set_m_disk
         m_name m_volume_group m_logical_volume m_disk].
  all: match goal with
       | |- context [str_of ?v ?x] =>
           destruct v as [g|] eqn:Vg; cbn [str_of ret raise]; [|discriminate]
       end.
  all: try match goal with
       | |- context [str_of ?v ?x] =>
           destruct v as [l|] eqn:Vl; cbn [str_of ret raise]; [|discriminate]
       end.
  all: intros [= <- _].
  all: cbn [set_m_name set_m_uuid set_m_volume_group set_m_logical_volume
         set_m_logical_volume_size set_m_bridge set_m_mac set_m_disk
         m_name m_volume_group m_logical_volume m_disk].
  all: do 2 eexists; repeat split;
       first [reflexivity | eassumption | discriminate | intros _; eassumption ].
Qed.

Lemma reaches_execute_queue (commands : list (list string)) :
  reaches (fun e => e = {| ev_action := SpawnPipe commands; ev_ok := true |})
          (_execute_queue commands).
Proof.
  intros w Hok. rewrite (execute_queue_ok commands w Hok). now constructor.
Qed.

Section ImportStorage.

Variables x vg : string.
Variable target_meta : Meta.
Hypothesis target_lv : m_logical_volume target_meta = Some x.
Hypothesis target_vg : m_volume_group target_meta = Some vg.
Hypothesis target_disk : m_disk target_meta = Some (dev_path vg x).

Lemma remote_queue_last (args : Args) (source_meta : Meta) :
  exists q,
    remote_image_queue args source_meta target_meta = ret q /\
    last q [] = dd_write (a_block_size args) (dev_path vg x).
Proof.
  unfold remote_image_queue. cbv zeta. eexists. split; [reflexivity|].
  rewrite target_lv, target_vg. cbn [fmt]. unfold dev_path.
  destruct (negb (m_compression source_meta =? "none")); reflexivity.
Qed.

(** The storage step of [_import_remote] and [_clone_remote]. *)
Lemma remote_storage (args : Args) (source_meta : Meta)
    (target_xml_file target_xml : string) (data : ReturnData) (w : World) :
  clones_to x x
    (_write_file target_xml_file (Text target_xml) ;;;
     _vm_resolve_conflicts recursion_limit (potential_conflicts_of target_meta) ;;;
     lv_size <- str_of (m_logical_volume_size target_meta) ;;
     lv <- str_of (m_logical_volume target_meta) ;;
     vg <- str_of (m_volume_group target_meta) ;;
     _lv_create lv_size lv vg ;;;
     command_queue <- remote_image_queue args source_meta target_meta ;;
     _execute_queue command_queue ;;;
     ret data) w.
Proof.
  destruct (remote_queue_last args source_meta) as (q & -> & Hq).
  rewrite target_lv, target_vg.
  destruct (m_logical_volume_size target_meta) as [size|]; cbn [str_of].
  - rewrite !bind_ret. apply (@clones_to_global _ x vg x).
    + apply obeys_bind; [apply obeys_write_file; intros ok; exact I|]. intros _.
      apply obeys_bind;
        [apply obeys_vm_resolve_conflicts; apply creates_as_removal|]. intros _.
      apply obeys_bind; [apply obeys_lv_create; apply creates_as_lvcreate|]. intros _.
      apply obeys_bind; [|intros _; apply obeys_ret].
      apply obeys_execute_queue. intros ok. apply creates_as_import.
      now exists (a_block_size args).
    + do 2 (apply reaches_bind_r; [any_event_step | any_event_step|]; intros _).
      apply reaches_bind_l; [any_event_step | any_event_step|].
      eapply reaches_weaken; [|apply reaches_lv_create].
      intros e ->. now exists size.
    + do 3 (apply reaches_bind_r; [any_event_step | any_event_step|]; intros _).
      apply reaches_bind_l; [any_event_step | any_event_step|].
      eapply reaches_weaken; [|apply reaches_execute_queue].
      intros e ->. now exists q, (a_block_size args).
  - apply (@clones_to_global _ x vg x).
    + apply obeys_bind; [apply obeys_write_file; intros ok; exact I|]. intros _.
      apply obeys_bind;
        [apply obeys_vm_resolve_conflicts; apply creates_as_removal|]. intros _.
      apply obeys_raise.
    + do 2 (apply reaches_bind_r; [any_event_step | any_event_step|]; intros _).
      apply reaches_raise.
    + do 2 (apply reaches_bind_r; [any_event_step | any_event_step|]; intros _).
      apply reaches_raise.
Qed.

(** The storage step of [_import_local]. *)
Lemma import_local_storage (source_image_file compression : string)
    (target_xml_file target_xml : string) (data : ReturnData) (w : World) :
  clones_to x x
    (_write_file target_xml_file (Text target_xml) ;;;
     _vm_resolve_conflicts recursion_limit (potential_conflicts_of target_meta) ;;;
     lv_size <- str_of (m_logical_volume_size target_meta) ;;
     lv <- str_of (m_logical_volume target_meta) ;;
     vg <- str_of (m_volume_group target_meta) ;;
     _lv_create lv_size lv vg ;;;
     disk <- str_of (m_disk target_meta) ;;
     _lv_import source_image_file disk compression ;;;
     ret data) w.
Proof.
  rewrite target_lv, target_vg, target_disk.
  destruct (m_logical_volume_size target_meta) as [size|]; cbn [str_of].
  - rewrite !bind_ret. apply (@clones_to_global _ x vg x).
    + apply obeys_bind; [apply obeys_write_file; intros ok; exact I|]. intros _.
      apply obeys_bind;
        [apply obeys_vm_resolve_conflicts; apply creates_as_removal|]. intros _.
      apply obeys_bind; [apply obeys_lv_create; apply creates_as_lvcreate|]. intros _.
      apply obeys_bind; [|intros _; apply obeys_ret].
      apply obeys_lv_import. intros cmds ok H. now apply creates_as_import.
    + do 2 (apply reaches_bind_r; [any_event_step | any_event_step|]; intros _).
      apply reaches_bind_l; [any_event_step | any_event_step|].
      eapply reaches_weaken; [|apply reaches_lv_create].
      intros e ->. now exists size.
    + do 3 (apply reaches_bind_r; [any_event_step | any_event_step|]; intros _).
      apply reaches_bind_l; [any_event_step | any_event_step|].
      eapply reaches_weaken; [|apply reaches_lv_import].
      intros e (cmds & bs & -> & L). now exists cmds, bs.
  - apply (@clones_to_global _ x vg x).
    + apply obeys_bind; [apply obeys_write_file; intros ok; exact I|]. intros _.
      apply obeys_bind;
        [apply obeys_vm_resolve_conflicts; apply creates_as_removal|]. intros _.
      apply obeys_raise.
    + do 2 (apply reaches_bind_r; [any_event_step | any_event_step|]; intros _).
      apply reaches_raise.
    + do 2 (apply reaches_bind_r; [any_event_step | any_event_step|]; intros _).
      apply reaches_raise.
Qed.

End ImportStorage.

(** The run of [m] from [w] creates the volume it writes to, and a
    [--logical-volume] override names that volume. *)
Definition keeps_volume {A} (m : M A) (w : World) : Prop :=
  exists x,
    (truthy (a_logical_volume (w_args w)) = true ->
     a_logical_volume (w_args w) = Some x) /\
    clones_to x x m w.

Lemma keeps_volume_after {A B} (m : M A) (k : A -> M B) (w : World) :
  passes neutral m ->
  (forall a w', m w = (Ok a, w') -> w_args w' = w_args w -> keeps_volume (k a) w') ->
  keeps_volume (bind m k) w.
Proof.
  intros Hm Hk. destruct (Hm w) as (evs0 & T0 & F0 & A0).
  unfold keeps_volume, clones_to, run, exec, bind in *.
  destruct (m w) as [[a|e] w1] eqn:E; cbn [fst snd] in *.
  - destruct (Hk a w1 eq_refl A0) as (x & Hx & vg & evs1 & T1 & F1 & R1).
    exists x. split; [now rewrite <- A0|]. exists vg, (evs0 ++ evs1)%list.
    split; [now rewrite T1, T0, app_assoc|]. split.
    + apply Forall_app. split; [|exact F1].
      eapply Forall_impl; [|exact F0]. intros e. apply neutral_creates_as.
    + intros Hok. destruct (R1 Hok) as (R & R').
      split; apply Exists_app; now right.
  - exists (fmt (a_logical_volume (w_args w))). split.
    + destruct (a_logical_volume (w_args w)); [reflexivity | discriminate].
    + exists "", evs0. split; [exact T0|]. split; [|discriminate].
      eapply Forall_impl; [|exact F0]. intros x. apply neutral_creates_as.
Qed.

Lemma keeps_volume_raise {A} (e : exn) (w : World) : keeps_volume (@raise A e) w.
Proof.
  exists (fmt (a_logical_volume (w_args w))). split.
  - destruct (a_logical_volume (w_args w)); [reflexivity | discriminate].
  - apply clones_to_raise.
Qed.

Lemma keeps_volume_get_world {A} (f : World -> M A) (w : World) :
  keeps_volume (f w) w -> keeps_volume (bind get_world f) w.
Proof. intros H. exact H. Qed.

Ltac remote_volume :=
  apply keeps_volume_get_world; cbv zeta;
  apply keeps_volume_after; [apply passes_fetch_remote|];
  intros [[sm tm] xml] w1 E1 A1;
  destruct (fetch_remote_target _ _ E1) as (wa & wb & Aa & Et);
  destruct (load_target_meta_volume _ _ _ Et) as (vg & x & Tg & Tl & Td & To);
  exists x; split; [now rewrite A1, <- Aa|];
  eapply remote_storage; eassumption.

Lemma keeps_volume_import_remote (w : World) : keeps_volume _import_remote w.
Proof. unfold _import_remote. remote_volume. Qed.

Lemma keeps_volume_clone_remote (w : World) : keeps_volume _clone_remote w.
Proof. unfold _clone_remote. remote_volume. Qed.

Lemma keeps_volume_import_local (w : World) : keeps_volume _import_local w.
Proof.
  unfold _import_local. apply keeps_volume_get_world. cbv zeta.
  destruct (negb (path_exists (rstrip_slash (a_source (w_args w)) ++ "/") (w_host w)));
    [apply keeps_volume_raise|].
  apply keeps_volume_after;
    [apply (@passes_reads _ _ _ neutral_inert), reads_load_vm_meta_from_file|].
  intros sm w1 _ A1.
  apply keeps_volume_after;
    [apply (@passes_reads _ _ _ neutral_inert), reads_load_target_meta|].
  intros tm w2 E2 A2.
  destruct (load_target_meta_volume _ _ _ E2) as (vg & x & Tg & Tl & Td & To).
  apply keeps_volume_after;
    [apply (@passes_reads _ _ _ neutral_inert), reads_verify_target_meta|].
  intros u3 w3 _ A3.
  apply keeps_volume_after;
    [apply (@passes_reads _ _ _ neutral_inert), reads_read_file|].
  intros xml w4 _ A4.
  apply keeps_volume_after;
    [apply (@passes_reads _ _ _ neutral_inert), reads_load_target_xml|].
  intros txml w5 _ A5.
  exists x. split; [now rewrite A5, A4, A3, A2|].
  now apply (@import_local_storage x vg tm).
Qed.

(** The outcome of [op] from [w]: for some volume [x] of some volume group
    [vg], which is the [--logical-volume] override when one is given, every
    [lvcreate] that is no snapshot creates [vg/x], every pipeline that ends
    in [dd of=...] writes to [/dev/vg/x], and a run that returns has done
    both. *)
Definition writes_what_it_creates {A} (op : M A) (w : World) : Prop :=
  exists x vg,
    (truthy (a_logical_volume (w_args w)) = true ->
     a_logical_volume (w_args w) = Some x) /\
    Forall (creates_as x vg x) (issued op w) /\
    (is_ok (run op w) = true ->
     Exists (created x vg) (issued op w) /\ Exists (written vg x) (issued op w)).

Lemma keeps_volume_writes {A} (op : M A) (w : World) :
  keeps_volume op w -> writes_what_it_creates op w.
Proof.
  intros (x & Hx & vg & evs & T & F & R). exists x, vg.
  rewrite (@issued_app _ op w evs T). split; [exact Hx|]. split; [exact F | exact R].
Qed.

(** X7.  A local import, a remote import and a remote clone create the
    logical volume under the logical-volume field of the target metadata
    and copy the image into that same volume: the volume created is the
    volume written to, whatever the overrides. *)
Theorem import_writes_what_it_creates (w : World) :
  writes_what_it_creates _import_local w /\
  writes_what_it_creates _import_remote w /\
  writes_what_it_creates _clone_remote w.
Proof.
  split; [|split]; apply keeps_volume_writes.
  - apply keeps_volume_import_local.
  - apply keeps_volume_import_remote.
  - apply keeps_volume_clone_remote.
Qed.

(* ---------------------------------------------------------------------- *)
(** ** A backup removes its snapshot *)

















Lemma string_app_assoc (a b c : string) : (a ++ b) ++ c = a ++ b ++ c.
Proof.
  induction a as [|x a IH]; [reflexivity|].
  change (String x ((a ++ b) ++ c) = String x (a ++ b ++ c)). now rewrite IH.
Qed.










(* ---------------------------------------------------------------------- *)
(** ** Substrings and [str.replace] *)

Lemma append_cons (x : ascii) (a b : string) : String x a ++ b = String x (a ++ b).
Proof. reflexivity. Qed.

Lemma append_nil_r (a : string) : a ++ "" = a.
Proof.
  induction a as [|x a IH]; [reflexivity|]. now rewrite append_cons, IH.
Qed.

Lemma length_append (a b : string) :
  String.length (a ++ b) = String.length a + String.length b.
Proof.
  induction a as [|x a IH]; [reflexivity|].
  rewrite append_cons. cbn [String.length]. now rewrite IH.
Qed.

Lemma prefix_cons (x y : ascii) (p s : string) :
  prefix (String x p) (String y s) = if Ascii.eqb x y then prefix p s else false.
Proof.
  cbn [prefix]. destruct (ascii_dec x y) as [E | E].
  - subst. now rewrite Ascii.eqb_refl.
  - apply Ascii.eqb_neq in E. now rewrite E.
Qed.

Lemma prefix_nil (s : string) : prefix "" s = true.
Proof. destruct s; reflexivity. Qed.

Lemma prefix_append (p r : string) : prefix p (p ++ r) = true.
Proof.
  induction p as [|x p IH]; [apply prefix_nil|].
  rewrite append_cons, prefix_cons, Ascii.eqb_refl. exact IH.
Qed.

Lemma prefix_split (p s : string) :
  prefix p s = true -> exists r, s = p ++ r.
Proof.
  revert s. induction p as [|x p IH]; intros s H; [now exists s|].
  destruct s as [|y s]; [discriminate H|].
  rewrite prefix_cons in H. destruct (Ascii.eqb x y) eqn:E; [|discriminate H].
  apply Ascii.eqb_eq in E. subst y. destruct (IH s H) as (r & ->). now exists r.
Qed.

Lemma prefix_trans (p q s : string) :
  prefix p q = true -> prefix q s = true -> prefix p s = true.
Proof.
  intros H1 H2. destruct (prefix_split _ _ H1) as (r1 & ->).
  destruct (prefix_split _ _ H2) as (r2 & ->).
  rewrite string_app_assoc. apply prefix_append.
Qed.

(** The number of occurrences of [p] in [a ++ r] that start in [a]. *)
Fixpoint starts_in (p a r : string) : nat :=
  match a with
  | EmptyString => 0
  | String _ a' => (if prefix p (a ++ r) then 1 else 0) + starts_in p a' r
  end.

Lemma starts_in_cons (p : string) (c : ascii) (a r : string) :
  starts_in p (String c a) r
  = (if prefix p (String c a ++ r) then 1 else 0) + starts_in p a r.
Proof. reflexivity. Qed.

Lemma occurrences_append (p a r : string) :
  occurrences p (a ++ r) = starts_in p a r + occurrences p r.
Proof.
  induction a as [|x a IH]; [reflexivity|].
  rewrite append_cons. cbn [occurrences starts_in].
  rewrite <- append_cons, IH. lia.
Qed.

Lemma starts_in_append (p a b r : string) :
  starts_in p (a ++ b) r = starts_in p a (b ++ r) + starts_in p b r.
Proof.
  induction a as [|x a IH]; [reflexivity|].
  rewrite append_cons. cbn [starts_in].
  rewrite <- append_cons, string_app_assoc, IH. lia.
Qed.

Lemma occurrences_nil (x : ascii) (p : string) : occurrences (String x p) "" = 0.
Proof. reflexivity. Qed.

Lemma contains_occurrences (p s : string) :
  contains p s = true <-> 1 <= occurrences p s.
Proof.
  induction s as [|x s IH]; cbn [contains occurrences].
  - destruct (prefix p ""); cbn; split; intros; try lia; try discriminate; auto.
  - destruct (prefix p (String x s)); cbn [orb].
    + split; intros; [lia | reflexivity].
    + rewrite IH. cbn. lia.
Qed.

Lemma occurrences_prefix_le (p q s : string) :
  prefix p q = true -> occurrences q s <= occurrences p s.
Proof.
  intros H. induction s as [|x s IH]; cbn [occurrences].
  - destruct (prefix q "") eqn:E; [|lia].
    rewrite (prefix_trans _ _ _ H E). lia.
  - destruct (prefix q (String x s)) eqn:E.
    + rewrite (prefix_trans _ _ _ H E). lia.
    + destruct (prefix p (String x s)); lia.
Qed.

(** Two strings that are never prefixes of the same string share the
    occurrences of a common prefix. *)
Lemma occurrences_disjoint (p q q' s : string) :
  prefix p q = true -> prefix p q' = true ->
  (forall t, prefix q t = true -> prefix q' t = true -> False) ->
  occurrences q s + occurrences q' s <= occurrences p s.
Proof.
  intros H H' D. induction s as [|x s IH]; cbn [occurrences].
  - destruct (prefix q "") eqn:E; destruct (prefix q' "") eqn:E';
      try (exfalso; now apply (D "")).
    + rewrite (prefix_trans _ _ _ H E). lia.
    + rewrite (prefix_trans _ _ _ H' E'). lia.
    + lia.
  - destruct (prefix q (String x s)) eqn:E; destruct (prefix q' (String x s)) eqn:E';
      try (exfalso; now apply (D (String x s))).
    + rewrite (prefix_trans _ _ _ H E). lia.
    + rewrite (prefix_trans _ _ _ H' E'). lia.
    + destruct (prefix p (String x s)); lia.
Qed.

(** *** [replace] *)

Lemma replace_from_skip (old new x b : string) :
  replace_from old new (String.length x) (x ++ b) = replace_from old new 0 b.
Proof.
  induction x as [|c x IH]; [reflexivity|].
  rewrite append_cons. cbn [String.length replace_from]. exact IH.
Qed.

Lemma replace_from_none (old new s : string) :
  occurrences old s = 0 -> replace_from old new 0 s = s.
Proof.
  induction s as [|c s IH]; [reflexivity|].
  cbn [occurrences replace_from]. destruct (prefix old (String c s)); [lia|].
  intros H. now rewrite IH by lia.
Qed.

Lemma replace_from_before (old new a r : string) :
  starts_in old a r = 0 ->
  replace_from old new 0 (a ++ r) = a ++ replace_from old new 0 r.
Proof.
  induction a as [|c a IH]; [reflexivity|].
  cbn [starts_in]. rewrite !append_cons. cbn [replace_from].
  rewrite <- append_cons. destruct (prefix old (String c a ++ r)); [lia|].
  intros H. rewrite IH by lia. reflexivity.
Qed.

Lemma replace_from_hit (c : ascii) (old new b : string) :
  replace_from (String c old) new 0 (String c old ++ b)
  = new ++ replace_from (String c old) new 0 b.
Proof.
  rewrite append_cons. cbn [replace_from]. rewrite <- append_cons, prefix_append.
  replace (String.length (String c old) - 1) with (String.length old)
    by (cbn [String.length]; lia).
  now rewrite replace_from_skip.
Qed.

(** Replacing the one occurrence of a non-empty [old]. *)
Lemma replace_once (old new a b : string) :
  old <> "" -> occurrences old (a ++ old ++ b) = 1 ->
  py_replace (a ++ old ++ b) old new = a ++ new ++ b.
Proof.
  intros Hne H. destruct old as [|c old]; [contradiction|].
  unfold py_replace. rewrite occurrences_append in H.
  assert (H1 : 1 <= occurrences (String c old) (String c old ++ b)).
  { apply contains_occurrences. rewrite append_cons. cbn [contains].
    rewrite <- append_cons, prefix_append. reflexivity. }
  assert (H2 : occurrences (String c old) b = 0).
  { rewrite append_cons in H, H1. cbn [occurrences] in H, H1.
    rewrite <- append_cons, prefix_append in H, H1.
    rewrite occurrences_append in H. lia. }
  rewrite replace_from_before by lia.
  rewrite replace_from_hit. now rewrite replace_from_none by exact H2.
Qed.

(** Replacing a string by itself changes nothing. *)
Lemma replace_from_same (old : string) (s : string) (k : nat) :
  old <> "" ->
  replace_from old old k s = string_of_list_ascii (skipn k (list_ascii_of_string s)).
Proof.
  intros Hne. revert k. induction s as [|c s IH]; intros k.
  - cbn. now destruct k.
  - destruct k as [|k]; cbn [replace_from list_ascii_of_string skipn].
    + destruct (prefix old (String c s)) eqn:P.
      * destruct (prefix_split _ _ P) as (r & E).
        destruct old as [|c0 old]; [contradiction|].
        rewrite append_cons in E. injection E as -> ->.
        replace (String.length (String c0 old) - 1) with (String.length old)
          by (cbn [String.length]; lia).
        rewrite IH.
        assert (S : skipn (String.length old) (list_ascii_of_string (old ++ r))
                    = list_ascii_of_string r).
        { clear. induction old as [|x old IH]; [reflexivity|].
          rewrite append_cons. cbn [String.length list_ascii_of_string skipn].
          exact IH. }
        rewrite S, string_of_list_ascii_of_string. cbn [string_of_list_ascii].
        now rewrite string_of_list_ascii_of_string.
      * rewrite IH. cbn [skipn string_of_list_ascii]. reflexivity.
    + apply IH.
Qed.

Lemma replace_same (s old : string) : old <> "" -> py_replace s old old = s.
Proof.
  intros H. unfold py_replace. destruct old as [|c old]; [contradiction|].
  rewrite replace_from_same by discriminate. cbn [skipn].
  apply string_of_list_ascii_of_string.
Qed.

Lemma append_nil_l (a : string) : "" ++ a = a.
Proof. reflexivity. Qed.

Lemma contains_leb (p s : string) : contains p s = (1 <=? occurrences p s)%nat.
Proof.
  pose proof (contains_occurrences p s) as H.
  destruct (contains p s); destruct (Nat.leb_spec 1 (occurrences p s)); try reflexivity.
  - assert (1 <= occurrences p s) by now apply H. lia.
  - assert (false = true) by (apply H; lia). discriminate.
Qed.

Lemma contains_split (p s : string) :
  contains p s = true -> exists a b, s = a ++ p ++ b.
Proof.
  induction s as [|c s IH]; cbn [contains].
  - rewrite orb_false_r. intros H. destruct (prefix_split _ _ H) as (r & ->).
    now exists "", r.
  - destruct (prefix p (String c s)) eqn:P; cbn [orb].
    + intros _. destruct (prefix_split _ _ P) as (r & ->). now exists "", r.
    + intros H. destruct (IH H) as (a & b & ->). now exists (String c a), b.
Qed.

Lemma contains_middle (p a b : string) : contains p (a ++ p ++ b) = true.
Proof.
  induction a as [|c a IH].
  - rewrite append_nil_l. destruct (p ++ b) eqn:E; cbn [contains];
      rewrite <- E, prefix_append; reflexivity.
  - rewrite append_cons. cbn [contains]. rewrite IH. apply orb_true_r.
Qed.

Lemma starts_in_ge (p a r : string) :
  p <> "" -> occurrences p a <= starts_in p a r.
Proof.
  intros Hp. induction a as [|c a IH].
  - cbn. destruct p; [contradiction | cbn; lia].
  - cbn [occurrences starts_in]. destruct (prefix p (String c a)) eqn:P.
    + destruct (prefix_split _ _ P) as (x & E). rewrite E, string_app_assoc, prefix_append. lia.
    + destruct (prefix p (String c a ++ r)); lia.
Qed.

(** *** Tags

    The opening of an element is a [<] followed by a character other than
    [/]; inside an element every further [<] opens a closing tag. *)

Fixpoint closing_only (t : string) : bool :=
  match t with
  | EmptyString => true
  | String c t' => (negb (Ascii.eqb c "<") || prefix "/" t') && closing_only t'
  end.

Definition tag (p : string) : bool :=
  match p with
  | EmptyString => false
  | String c t => Ascii.eqb c "<" && nonempty t && negb (prefix "/" t) && closing_only t
  end.

(** A value without [<]. *)
Definition plain (v : string) : Prop := contains "<" v = false.

Lemma prefix_slash (y : ascii) (t : string) :
  prefix "/" (String y t) = Ascii.eqb "/" y.
Proof. rewrite prefix_cons, prefix_nil. now destruct (Ascii.eqb "/" y). Qed.

Lemma tag_inv (p : string) :
  tag p = true ->
  exists y t, p = String "<" (String y t) /\ y <> "/"%char
              /\ closing_only (String y t) = true.
Proof.
  destruct p as [|c t]; [discriminate|]. cbn [tag]. rewrite !andb_true_iff.
  intros (((Hc & Hn) & Hs) & Hcl). apply Ascii.eqb_eq in Hc. subst c.
  destruct t as [|y t]; [discriminate Hn|]. exists y, t. repeat split; auto.
  intros ->. rewrite prefix_slash in Hs. discriminate Hs.
Qed.

Lemma prefix_cut (q s r : string) (y : ascii) :
  closing_only q = true -> y <> "/"%char ->
  prefix q (s ++ String "<" (String y r)) = prefix q s.
Proof.
  intros Hq Hy. revert q Hq. induction s as [|d s IH]; intros q Hq.
  - rewrite append_nil_l. destruct q as [|c q]; [reflexivity|].
    rewrite prefix_cons. cbn [closing_only] in Hq. apply andb_true_iff in Hq as [H1 _].
    destruct (Ascii.eqb c "<"); cbn [negb orb] in H1; [|reflexivity].
    destruct q as [|c' q]; [discriminate H1|]. rewrite prefix_slash in H1.
    apply Ascii.eqb_eq in H1. subst c'. rewrite prefix_cons.
    destruct (Ascii.eqb "/" y) eqn:E; [|reflexivity].
    apply Ascii.eqb_eq in E. congruence.
  - destruct q as [|c q]; [now rewrite !prefix_nil|].
    rewrite append_cons, !prefix_cons. cbn [closing_only] in Hq.
    apply andb_true_iff in Hq as [_ H2]. destruct (Ascii.eqb c d); [now apply IH | reflexivity].
Qed.

Lemma starts_in_cut (c y : ascii) (q a r : string) :
  closing_only q = true -> y <> "/"%char ->
  starts_in (String c q) a (String "<" (String y r)) = occurrences (String c q) a.
Proof.
  intros Hq Hy. induction a as [|d a IH]; [reflexivity|].
  cbn [starts_in occurrences]. rewrite IH. f_equal.
  now rewrite append_cons, !prefix_cons, prefix_cut.
Qed.

Lemma starts_in_closing (x : ascii) (q t b : string) :
  x <> "/"%char -> closing_only t = true ->
  starts_in (String "<" (String x q)) t b = 0.
Proof.
  intros Hx. induction t as [|c t IH]; [reflexivity|].
  cbn [closing_only starts_in]. intros H. apply andb_true_iff in H as [H1 H2].
  rewrite (IH H2), append_cons, prefix_cons, Ascii.eqb_sym.
  destruct (Ascii.eqb c "<"); cbn [negb orb] in H1; [|reflexivity].
  destruct t as [|c' t]; [discriminate H1|]. rewrite prefix_slash in H1.
  apply Ascii.eqb_eq in H1. subst c'. rewrite append_cons, prefix_cons.
  destruct (Ascii.eqb x "/") eqn:E; [|reflexivity].
  apply Ascii.eqb_eq in E. congruence.
Qed.

(** Occurrences of a tag around an element: no occurrence crosses the
    element's borders or starts inside it. *)
Lemma tag_occurrences (p e a b : string) :
  tag p = true -> tag e = true ->
  occurrences p (a ++ e ++ b)
  = occurrences p a + (if prefix p (e ++ b) then 1 else 0) + occurrences p b.
Proof.
  intros Hp He.
  destruct (tag_inv _ Hp) as (x & q & -> & Hx & Hq).
  destruct (tag_inv _ He) as (y & t & -> & Hy & Ht).
  rewrite !occurrences_append, !append_cons, starts_in_cut by assumption.
  rewrite starts_in_cons, starts_in_closing by assumption.
  rewrite !append_cons. lia.
Qed.

(** *** The elements of a definition *)

Inductive kind : Type := Kname | Kdisk | Kmac | Kbridge | Kuuid.

Definition kind_eqb (k k' : kind) : bool :=
  match k, k' with
  | Kname, Kname | Kdisk, Kdisk | Kmac, Kmac | Kbridge, Kbridge | Kuuid, Kuuid => true
  | _, _ => false
  end.

Definition opening (k : kind) : string :=
  match k with
  | Kname => "<name>"
  | Kdisk => "<source dev='"
  | Kmac => "<mac address='"
  | Kbridge => "<source bridge='"
  | Kuuid => "<uuid>"
  end.

Definition closing (k : kind) : string :=
  match k with
  | Kname => "</name>"
  | Kuuid => "</uuid>"
  | _ => "'/>"
  end.

Definition element (k : kind) (v : string) : string := opening k ++ v ++ closing k.

Lemma kind_eqb_eq (k k' : kind) : kind_eqb k k' = true <-> k = k'.
Proof. destruct k, k'; cbn; split; intros H; try reflexivity; discriminate H. Qed.

Lemma kind_eqb_refl (k : kind) : kind_eqb k k = true.
Proof. now destruct k. Qed.

Lemma kind_eqb_neq (k k' : kind) : k <> k' -> kind_eqb k k' = false.
Proof.
  intros H. destruct (kind_eqb k k') eqn:E; [|reflexivity].
  apply kind_eqb_eq in E. contradiction.
Qed.

Lemma closing_only_plain (v t : string) :
  plain v -> closing_only (v ++ t) = closing_only t.
Proof.
  unfold plain. induction v as [|c v IH]; [reflexivity|].
  cbn [contains]. rewrite append_cons, prefix_cons, prefix_nil, Ascii.eqb_sym.
  intros H. apply orb_false_iff in H as [H1 H2]. cbn [closing_only].
  destruct (Ascii.eqb c "<"); [discriminate H1|]. cbn [negb orb andb]. now apply IH.
Qed.

Lemma opening_tag (k : kind) : tag (opening k) = true.
Proof. now destruct k. Qed.

Lemma element_tag (k : kind) (v : string) : plain v -> tag (element k v) = true.
Proof.
  intros H. unfold element.
  assert (T : forall y o c, y <> "/"%char -> plain (String y o) ->
                closing_only c = true ->
                tag (String "<" (String y o) ++ v ++ c) = true).
  { intros y o c Hy Ho Hc. rewrite !append_cons. cbn [tag nonempty].
    rewrite prefix_slash, <- append_cons, closing_only_plain by assumption.
    rewrite closing_only_plain, Hc by assumption.
    destruct (Ascii.eqb "/" y) eqn:E; [|reflexivity].
    apply Ascii.eqb_eq in E. congruence. }
  destruct k; apply T; (discriminate || reflexivity).
Qed.

Lemma opening_prefix (k : kind) (v r : string) : prefix (opening k) (element k v ++ r) = true.
Proof.
  unfold element. rewrite string_app_assoc. apply prefix_append.
Qed.

Lemma opening_of_element (k : kind) (v : string) : prefix (opening k) (element k v) = true.
Proof. apply prefix_append. Qed.

Lemma opening_other (k k' : kind) (v r : string) :
  k <> k' -> prefix (opening k) (element k' v ++ r) = false.
Proof. intros H. destruct k, k'; try contradiction; reflexivity. Qed.

Lemma element_other (k k' : kind) (u v r : string) :
  k <> k' -> prefix (element k u) (element k' v ++ r) = false.
Proof. intros H. destruct k, k'; try contradiction; reflexivity. Qed.

(** Replacing the value of an element keeps the number of occurrences of
    every opening and of every element of another kind. *)
Lemma opening_count (k k' : kind) (v a b : string) :
  plain v ->
  occurrences (opening k) (a ++ element k' v ++ b)
  = occurrences (opening k) a + (if kind_eqb k k' then 1 else 0) + occurrences (opening k) b.
Proof.
  intros H. rewrite tag_occurrences by (apply opening_tag || now apply element_tag).
  destruct (kind_eqb k k') eqn:E.
  - apply kind_eqb_eq in E. subst k'. now rewrite opening_prefix.
  - rewrite opening_other; [reflexivity|]. intros ->. now rewrite kind_eqb_refl in E.
Qed.

Lemma element_count (k k' : kind) (u v a b : string) :
  k <> k' -> plain u -> plain v ->
  occurrences (element k u) (a ++ element k' v ++ b)
  = occurrences (element k u) a + occurrences (element k u) b.
Proof.
  intros H Hu Hv. rewrite tag_occurrences by now apply element_tag.
  rewrite element_other by assumption. lia.
Qed.

Lemma element_nonempty (k : kind) (v : string) : element k v <> "".
Proof. now destruct k. Qed.

(** One step of [_load_target_xml] on a definition that holds the opening
    of the element once. *)
Lemma replace_element (k : kind) (v v' d : string) :
  occurrences (opening k) d = 1 -> contains (element k v) d = true ->
  exists a b, d = a ++ element k v ++ b
              /\ py_replace d (element k v) (element k v') = a ++ element k v' ++ b.
Proof.
  intros H1 Hc. destruct (contains_split _ _ Hc) as (a & b & E).
  exists a, b. split; [exact E|]. subst d. apply replace_once; [apply element_nonempty|].
  apply contains_occurrences in Hc.
  pose proof (@occurrences_prefix_le _ _ (a ++ element k v ++ b) (opening_of_element k v)). lia.
Qed.

(** [d'] is [d] with one occurrence of [e] replaced by [e']. *)
Definition replaced (e e' d d' : string) : Prop :=
  exists a b, d = a ++ e ++ b /\ d' = a ++ e' ++ b.

Lemma replace_step (k : kind) (v v' d : string) :
  plain v -> plain v' ->
  occurrences (opening k) d = 1 -> contains (element k v) d = true ->
  replaced (element k v) (element k v') d (py_replace d (element k v) (element k v'))
  /\ (forall k0, occurrences (opening k0) (py_replace d (element k v) (element k v'))
                 = occurrences (opening k0) d)
  /\ (forall k0 u, k0 <> k -> plain u ->
        contains (element k0 u) (py_replace d (element k v) (element k v'))
        = contains (element k0 u) d)
  /\ contains (element k v') (py_replace d (element k v) (element k v')) = true.
Proof.
  intros Hv Hv' H1 Hc.
  destruct (@replace_element k v v' d H1 Hc) as (a & b & E & R).
  rewrite R. split; [now exists a, b|]. subst d. split; [|split].
  - intros k0. now rewrite !opening_count.
  - intros k0 u Hk Hu. now rewrite !contains_leb, !element_count.
  - apply contains_middle.
Qed.

(** The elements [_load_target_xml] looks for, and their openings. *)
Definition elements_of (name disk mac bridge : string) : list string :=
  [name_element name; disk_element disk; mac_element mac; bridge_element bridge].

Definition openings : list string :=
  ["<name>"; "<source dev='"; "<mac address='"; "<source bridge='"].

(** The disk, MAC address and bridge recorded in a metadata record. *)
Definition describes (m : Meta) (disk mac bridge : string) : Prop :=
  m_disk m = Some disk /\ m_mac m = Some mac /\ m_bridge m = Some bridge.

(** The four replacements, once the fields of both records are read. *)
Definition replace_all (xml sn sd sa sb tn td ta tb : string) : M string :=
  if negb (nonempty xml)
  then _raise "Could not create target XML, source XML is empty."
  else
    if negb (contains (name_element sn) xml) then _raise (not_found (name_element sn)) else
    let d1 := py_replace xml (name_element sn) (name_element tn) in
    if negb (contains (disk_element sd) d1) then _raise (not_found (disk_element sd)) else
    let d2 := py_replace d1 (disk_element sd) (disk_element td) in
    if negb (contains (mac_element sa) d2) then _raise (not_found (mac_element sa)) else
    let d3 := py_replace d2 (mac_element sa) (mac_element ta) in
    if negb (contains (bridge_element sb) d3) then _raise (not_found (bridge_element sb)) else
    ret (py_replace d3 (bridge_element sb) (bridge_element tb)).

Lemma load_target_xml_eq (xml action : string) (sm tm : Meta)
    (sd sa sb td ta tb : string) :
  describes sm sd sa sb -> describes tm td ta tb ->
  _load_target_xml xml sm tm action
  = (d <- replace_all xml (m_name sm) sd sa sb (m_name tm) td ta tb ;;
     if action =? "clone"
     then
       sv <- str_of (m_uuid sm) ;;
       if negb (contains (uuid_element sv) d) then _raise (uuid_not_found (uuid_element sv))
       else ret (py_replace d (uuid_element sv) "")
     else ret d).
Proof.
  intros (S1 & S2 & S3) (T1 & T2 & T3).
  unfold _load_target_xml, replace_all.
  rewrite S1, S2, S3, T1, T2, T3. cbn [str_of].
  repeat (rewrite bind_ret; cbv beta).
  destruct (nonempty xml); [|reflexivity]. cbn [negb].
  destruct (contains (name_element (m_name sm)) xml); [|reflexivity]. cbn [negb].
  match goal with |- context [if negb ?c then _ else _] => destruct c; [|reflexivity] end.
  cbn [negb].
  match goal with |- context [if negb ?c then _ else _] => destruct c; [|reflexivity] end.
  cbn [negb].
  match goal with |- context [if negb ?c then _ else _] => destruct c; [|reflexivity] end.
  cbn [negb]. rewrite bind_ret. reflexivity.
Qed.

Ltac as_elements :=
  change name_element with (element Kname) in *;
  change disk_element with (element Kdisk) in *;
  change mac_element with (element Kmac) in *;
  change bridge_element with (element Kbridge) in *;
  change uuid_element with (element Kuuid) in *.

Lemma contains_nonempty (p s : string) : p <> "" -> contains p s = true -> nonempty s = true.
Proof. intros Hp H. destruct s; [|reflexivity]. destruct p; [contradiction | discriminate H]. Qed.

(** The four replacements on a definition that holds each opening once and
    each of the source's elements. *)
Lemma replace_all_spec (xml sn sd sa sb tn td ta tb : string) (w : World) :
  Forall plain [sn; sd; sa; sb; tn; td; ta; tb] ->
  Forall (fun o => occurrences o xml = 1) openings ->
  Forall (fun e => contains e xml = true) (elements_of sn sd sa sb) ->
  exists d1 d2 d3 r,
    replace_all xml sn sd sa sb tn td ta tb w = (Ok r, w)
    /\ replaced (name_element sn) (name_element tn) xml d1
    /\ replaced (disk_element sd) (disk_element td) d1 d2
    /\ replaced (mac_element sa) (mac_element ta) d2 d3
    /\ replaced (bridge_element sb) (bridge_element tb) d3 r
    /\ (forall k, occurrences (opening k) r = occurrences (opening k) xml)
    /\ (forall u, plain u -> contains (uuid_element u) r = contains (uuid_element u) xml)
    /\ Forall (fun e => contains e r = true) (elements_of tn td ta tb).
Proof.
  unfold openings, elements_of. rewrite !Forall_cons_iff.
  intros (Psn & Psd & Psa & Psb & Ptn & Ptd & Pta & Ptb & _) (O1 & O2 & O3 & O4 & _)
         (C1 & C2 & C3 & C4 & _).
  unfold replace_all. as_elements.
  change (occurrences (opening Kname) xml = 1) in O1.
  change (occurrences (opening Kdisk) xml = 1) in O2.
  change (occurrences (opening Kmac) xml = 1) in O3.
  change (occurrences (opening Kbridge) xml = 1) in O4.
  rewrite (@contains_nonempty _ _ (@element_nonempty Kname sn) C1), C1. cbn [negb].
  destruct (@replace_step Kname sn tn xml Psn Ptn O1 C1) as (R1 & K1 & E1 & T1).
  set (d1 := py_replace xml (element Kname sn) (element Kname tn)) in *.
  assert (C2' : contains (element Kdisk sd) d1 = true)
    by (rewrite E1; (assumption || discriminate)).
  assert (O2' : occurrences (opening Kdisk) d1 = 1) by now rewrite K1.
  rewrite C2'. cbn [negb].
  destruct (@replace_step Kdisk sd td d1 Psd Ptd O2' C2') as (R2 & K2 & E2 & T2).
  set (d2 := py_replace d1 (element Kdisk sd) (element Kdisk td)) in *.
  assert (C3' : contains (element Kmac sa) d2 = true)
    by (rewrite E2, E1; (assumption || discriminate)).
  assert (O3' : occurrences (opening Kmac) d2 = 1) by now rewrite K2, K1.
  rewrite C3'. cbn [negb].
  destruct (@replace_step Kmac sa ta d2 Psa Pta O3' C3') as (R3 & K3 & E3 & T3).
  set (d3 := py_replace d2 (element Kmac sa) (element Kmac ta)) in *.
  assert (C4' : contains (element Kbridge sb) d3 = true)
    by (rewrite E3, E2, E1; (assumption || discriminate)).
  assert (O4' : occurrences (opening Kbridge) d3 = 1) by now rewrite K3, K2, K1.
  rewrite C4'. cbn [negb].
  destruct (@replace_step Kbridge sb tb d3 Psb Ptb O4' C4') as (R4 & K4 & E4 & T4).
  set (r := py_replace d3 (element Kbridge sb) (element Kbridge tb)) in *.
  exists d1, d2, d3, r. repeat split; try assumption.
  - intros k. now rewrite K4, K3, K2, K1.
  - intros u Hu. rewrite E4, E3, E2, E1; (reflexivity || assumption || discriminate).
  - repeat constructor.
    + rewrite E4, E3, E2; (assumption || discriminate).
    + rewrite E4, E3; (assumption || discriminate).
    + rewrite E4; (assumption || discriminate).
    + assumption.
Qed.

Lemma replace_all_missing (xml sn sd sa sb tn td ta tb : string) (w : World) :
  Forall plain [sn; sd; sa; sb; tn; td; ta; tb] ->
  Forall (fun o => occurrences o xml = 1) openings ->
  Exists (fun e => contains e xml = false) (elements_of sn sd sa sb) ->
  exists e, In e (elements_of sn sd sa sb) /\ contains e xml = false
            /\ replace_all xml sn sd sa sb tn td ta tb w
               = (Raise (ApplicationError (not_found e)), w).
Proof.
  unfold openings, elements_of. rewrite !Forall_cons_iff.
  intros (Psn & Psd & Psa & Psb & Ptn & Ptd & Pta & Ptb & _) (O1 & O2 & O3 & O4 & _) X.
  assert (N : nonempty xml = true) by (destruct xml; [discriminate O1 | reflexivity]).
  unfold replace_all. rewrite N. cbn [negb]. as_elements.
  change (occurrences (opening Kname) xml = 1) in O1.
  change (occurrences (opening Kdisk) xml = 1) in O2.
  change (occurrences (opening Kmac) xml = 1) in O3.
  change (occurrences (opening Kbridge) xml = 1) in O4.
  destruct (contains (element Kname sn) xml) eqn:C1; cbn [negb];
    [|exists (element Kname sn); repeat split; auto; now left].
  destruct (@replace_step Kname sn tn xml Psn Ptn O1 C1) as (_ & K1 & E1 & _).
  set (d1 := py_replace xml (element Kname sn) (element Kname tn)) in *.
  rewrite (E1 Kdisk sd) by (assumption || discriminate).
  destruct (contains (element Kdisk sd) xml) eqn:C2; cbn [negb];
    [|exists (element Kdisk sd); repeat split; auto; right; now left].
  assert (C2' : contains (element Kdisk sd) d1 = true)
    by (rewrite E1; (assumption || discriminate)).
  assert (O2' : occurrences (opening Kdisk) d1 = 1) by now rewrite K1.
  destruct (@replace_step Kdisk sd td d1 Psd Ptd O2' C2') as (_ & K2 & E2 & _).
  set (d2 := py_replace d1 (element Kdisk sd) (element Kdisk td)) in *.
  rewrite (E2 Kmac sa), (E1 Kmac sa) by (assumption || discriminate).
  destruct (contains (element Kmac sa) xml) eqn:C3; cbn [negb];
    [|exists (element Kmac sa); repeat split; auto; right; right; now left].
  assert (C3' : contains (element Kmac sa) d2 = true)
    by (rewrite E2, E1; (assumption || discriminate)).
  assert (O3' : occurrences (opening Kmac) d2 = 1) by now rewrite K2, K1.
  destruct (@replace_step Kmac sa ta d2 Psa Pta O3' C3') as (_ & K3 & E3 & _).
  set (d3 := py_replace d2 (element Kmac sa) (element Kmac ta)) in *.
  rewrite (E3 Kbridge sb), (E2 Kbridge sb), (E1 Kbridge sb) by (assumption || discriminate).
  destruct (contains (element Kbridge sb) xml) eqn:C4; cbn [negb];
    [|exists (element Kbridge sb); repeat split; auto; right; right; right; now left].
  exfalso. rewrite !Exists_cons, Exists_nil in X.
  destruct X as [X | [X | [X | [X | []]]]]; congruence.
Qed.

(** [d] is [xml] with the source's name, disk, MAC address and bridge
    elements replaced, one after the other, by the target's. *)
Definition rewritten (xml sn sd sa sb tn td ta tb d : string) : Prop :=
  exists d1 d2 d3,
    replaced (name_element sn) (name_element tn) xml d1
    /\ replaced (disk_element sd) (disk_element td) d1 d2
    /\ replaced (mac_element sa) (mac_element ta) d2 d3
    /\ replaced (bridge_element sb) (bridge_element tb) d3 d.

(** X9.  Import of a well-formed definition.  When the action is not a
    clone, the values of both records hold no [<], each of the four openings
    occurs once in the source definition and the definition holds the
    source's four elements, [_load_target_xml] returns the definition with
    these four elements replaced by the target's and nothing else changed:
    each opening still occurs once and the target's elements are in the
    result.  The state is not touched. *)
Theorem load_target_xml_rewrites (xml action : string) (sm tm : Meta)
    (sd sa sb td ta tb : string) (w : World) :
  action <> "clone" ->
  describes sm sd sa sb -> describes tm td ta tb ->
  Forall plain [m_name sm; sd; sa; sb; m_name tm; td; ta; tb] ->
  Forall (fun o => occurrences o xml = 1) openings ->
  Forall (fun e => contains e xml = true) (elements_of (m_name sm) sd sa sb) ->
  exists r,
    _load_target_xml xml sm tm action w = (Ok r, w)
    /\ rewritten xml (m_name sm) sd sa sb (m_name tm) td ta tb r
    /\ Forall (fun o => occurrences o r = 1) openings
    /\ Forall (fun e => contains e r = true) (elements_of (m_name tm) td ta tb).
Proof.
  intros Ha S T P O C. apply String.eqb_neq in Ha.
  rewrite (load_target_xml_eq xml action S T), Ha.
  destruct (@replace_all_spec xml (m_name sm) sd sa sb (m_name tm) td ta tb w P O C)
    as (d1 & d2 & d3 & r & E & R1 & R2 & R3 & R4 & K & _ & F).
  exists r. unfold bind. rewrite E. split; [reflexivity|].
  split; [now exists d1, d2, d3|]. split; [|exact F].
  unfold openings in *. rewrite !Forall_cons_iff in *.
  destruct O as (O1 & O2 & O3 & O4 & _).
  repeat split; auto.
  - rewrite <- O1. apply (K Kname).
  - rewrite <- O2. apply (K Kdisk).
  - rewrite <- O3. apply (K Kmac).
  - rewrite <- O4. apply (K Kbridge).
Qed.

(** The definition of [vm1] rewritten for a guest [vm9] on another volume,
    with another address, on the same bridge. *)
Definition vm9_meta : Meta :=
  set_m_mac (set_m_disk (set_m_name Sample.vm1_meta "vm9") (Some "/dev/vg0/vm9"))
            (Some "52:54:00:00:00:09").

Lemma load_target_xml_rewrites_witness :
  let w := Sample.start Sample.host Sample.no_args Sample.no_fault [] in
  exists r,
    _load_target_xml Sample.vm1_xml Sample.vm1_meta vm9_meta "import" w = (Ok r, w)
    /\ rewritten Sample.vm1_xml "vm1" "/dev/vg0/vm1" "52:54:00:aa:bb:cc" "br0"
                 "vm9" "/dev/vg0/vm9" "52:54:00:00:00:09" "br0" r
    /\ Forall (fun o => occurrences o r = 1) openings
    /\ Forall (fun e => contains e r = true)
              (elements_of "vm9" "/dev/vg0/vm9" "52:54:00:00:00:09" "br0").
Proof.
  cbv zeta.
  apply (@load_target_xml_rewrites Sample.vm1_xml "import" Sample.vm1_meta vm9_meta
           "/dev/vg0/vm1" "52:54:00:aa:bb:cc" "br0"
           "/dev/vg0/vm9" "52:54:00:00:00:09" "br0"
           (Sample.start Sample.host Sample.no_args Sample.no_fault [])).
  - discriminate.
  - repeat split.
  - repeat split.
  - repeat constructor.
  - repeat constructor.
  - repeat constructor.
Defined.

Lemma contains_removed (k : kind) (u v a b : string) :
  k <> Kuuid -> plain u -> plain v ->
  contains (element k u) (a ++ element Kuuid v ++ b) = true ->
  contains (element k u) (a ++ "" ++ b) = true.
Proof.
  intros Hk Hu Hv. rewrite !contains_occurrences, element_count by assumption.
  rewrite append_nil_l, occurrences_append.
  pose proof (@starts_in_ge (element k u) a b (@element_nonempty k u)). lia.
Qed.

(** X10.  Clone of a well-formed definition.  Under the conditions of the
    import, when the definition also holds the opening [<uuid>] once and
    the source's uuid element, a clone returns the rewritten definition
    with the uuid element taken out; the target's four elements are in
    the result. *)
Theorem load_target_xml_clone (xml : string) (sm tm : Meta)
    (sd sa sb su td ta tb : string) (w : World) :
  describes sm sd sa sb -> m_uuid sm = Some su -> describes tm td ta tb ->
  Forall plain [m_name sm; sd; sa; sb; m_name tm; td; ta; tb] -> plain su ->
  Forall (fun o => occurrences o xml = 1) ("<uuid>" :: openings) ->
  Forall (fun e => contains e xml = true)
         (uuid_element su :: elements_of (m_name sm) sd sa sb) ->
  exists d r,
    _load_target_xml xml sm tm "clone" w = (Ok r, w)
    /\ rewritten xml (m_name sm) sd sa sb (m_name tm) td ta tb d
    /\ replaced (uuid_element su) "" d r
    /\ Forall (fun e => contains e r = true) (elements_of (m_name tm) td ta tb).
Proof.
  intros S U T P Pu O C.
  apply Forall_cons_iff in O as [Ou O]. apply Forall_cons_iff in C as [Cu C].
  rewrite (load_target_xml_eq xml "clone" S T), U.
  destruct (@replace_all_spec xml (m_name sm) sd sa sb (m_name tm) td ta tb w P O C)
    as (d1 & d2 & d3 & d & E & R1 & R2 & R3 & R4 & K & Ku & F).
  unfold bind. rewrite E. cbn [String.eqb Ascii.eqb Bool.eqb str_of ret].
  rewrite (Ku su Pu), Cu. cbn [negb].
  assert (Cd : contains (uuid_element su) d = true) by now rewrite Ku.
  assert (Od : occurrences "<uuid>" d = 1) by (rewrite <- Ou; apply (K Kuuid)).
  destruct (contains_split _ _ Cd) as (a & b & Ed).
  assert (R : py_replace d (uuid_element su) "" = a ++ "" ++ b).
  { rewrite Ed. apply replace_once; [apply (@element_nonempty Kuuid)|].
    rewrite <- Ed. apply contains_occurrences in Cd.
    pose proof (@occurrences_prefix_le _ _ d (opening_of_element Kuuid su)) as L.
    change (opening Kuuid) with "<uuid>" in L.
    change (element Kuuid su) with (uuid_element su) in L. lia. }
  exists d, (py_replace d (uuid_element su) ""). split; [reflexivity|].
  split; [now exists d1, d2, d3|]. split; [exists a, b; now split|].
  rewrite R. unfold elements_of in *. rewrite !Forall_cons_iff in *.
  destruct P as (_ & _ & _ & _ & Ptn & Ptd & Pta & Ptb & _).
  destruct F as (F1 & F2 & F3 & F4 & _). rewrite Ed in F1, F2, F3, F4.
  as_elements.
  repeat split; auto; eapply contains_removed; eauto; discriminate.
Qed.

Lemma load_target_xml_clone_witness :
  let w := Sample.start Sample.host Sample.no_args Sample.no_fault [] in
  exists d r,
    _load_target_xml Sample.vm1_xml Sample.vm1_meta vm9_meta "clone" w = (Ok r, w)
    /\ rewritten Sample.vm1_xml "vm1" "/dev/vg0/vm1" "52:54:00:aa:bb:cc" "br0"
                 "vm9" "/dev/vg0/vm9" "52:54:00:00:00:09" "br0" d
    /\ replaced (uuid_element "0a1b") "" d r
    /\ Forall (fun e => contains e r = true)
              (elements_of "vm9" "/dev/vg0/vm9" "52:54:00:00:00:09" "br0").
Proof.
  cbv zeta.
  apply (@load_target_xml_clone Sample.vm1_xml Sample.vm1_meta vm9_meta
           "/dev/vg0/vm1" "52:54:00:aa:bb:cc" "br0" "0a1b"
           "/dev/vg0/vm9" "52:54:00:00:00:09" "br0"
           (Sample.start Sample.host Sample.no_args Sample.no_fault [])).
  - repeat split.
  - reflexivity.
  - repeat split.
  - repeat constructor.
  - reflexivity.
  - repeat constructor.
  - repeat constructor.
Defined.

(** X11.  A missing element.  On a definition that holds each opening
    once, with values free of [<], when one of the source's four elements
    is not in the definition, [_load_target_xml] raises the application
    error that names a missing element, whatever the action, and leaves
    the state as it is. *)
Theorem load_target_xml_missing (xml action : string) (sm tm : Meta)
    (sd sa sb td ta tb : string) (w : World) :
  describes sm sd sa sb -> describes tm td ta tb ->
  Forall plain [m_name sm; sd; sa; sb; m_name tm; td; ta; tb] ->
  Forall (fun o => occurrences o xml = 1) openings ->
  Exists (fun e => contains e xml = false) (elements_of (m_name sm) sd sa sb) ->
  exists e,
    In e (elements_of (m_name sm) sd sa sb) /\ contains e xml = false
    /\ _load_target_xml xml sm tm action w = (Raise (ApplicationError (not_found e)), w).
Proof.
  intros S T P O X.
  destruct (@replace_all_missing xml (m_name sm) sd sa sb (m_name tm) td ta tb w P O X)
    as (e & I & C & E).
  exists e. split; [exact I|]. split; [exact C|].
  rewrite (load_target_xml_eq xml action S T). unfold bind. now rewrite E.
Qed.

(** The definition of [vm1] read with metadata that names another bridge. *)
Lemma load_target_xml_missing_witness :
  let w := Sample.start Sample.host Sample.no_args Sample.no_fault [] in
  exists e,
    In e (elements_of "vm1" "/dev/vg0/vm1" "52:54:00:aa:bb:cc" "br7")
    /\ contains e Sample.vm1_xml = false
    /\ _load_target_xml Sample.vm1_xml (set_m_bridge Sample.vm1_meta (Some "br7"))
         vm9_meta "import" w
       = (Raise (ApplicationError (not_found e)), w).
Proof.
  cbv zeta.
  apply (@load_target_xml_missing Sample.vm1_xml "import"
           (set_m_bridge Sample.vm1_meta (Some "br7")) vm9_meta
           "/dev/vg0/vm1" "52:54:00:aa:bb:cc" "br7"
           "/dev/vg0/vm9" "52:54:00:00:00:09" "br0"
           (Sample.start Sample.host Sample.no_args Sample.no_fault [])).
  - repeat split.
  - repeat split.
  - repeat constructor.
  - repeat constructor.
  - do 3 apply Exists_cons_tl. apply Exists_cons_hd. reflexivity.
Defined.

(** X12.  Nothing to change.  When the action is not a clone, the target's
    name, disk, MAC address and bridge are the source's and the definition
    holds the source's four elements, however often, [_load_target_xml]
    returns the source definition, byte for byte. *)
Theorem load_target_xml_unchanged (xml action : string) (sm tm : Meta)
    (sd sa sb : string) (w : World) :
  action <> "clone" ->
  describes sm sd sa sb -> describes tm sd sa sb -> m_name tm = m_name sm ->
  Forall (fun e => contains e xml = true) (elements_of (m_name sm) sd sa sb) ->
  _load_target_xml xml sm tm action w = (Ok xml, w).
Proof.
  intros Ha (S1 & S2 & S3) (T1 & T2 & T3) E C. apply String.eqb_neq in Ha.
  unfold elements_of in C. rewrite !Forall_cons_iff in C.
  destruct C as (C1 & C2 & C3 & C4 & _).
  unfold _load_target_xml. rewrite Ha, E, S1, S2, S3, T1, T2, T3.
  as_elements. cbn [str_of]. repeat (rewrite bind_ret; cbv beta).
  rewrite !replace_same by apply element_nonempty.
  rewrite (@contains_nonempty _ _ (@element_nonempty Kname (m_name sm)) C1).
  now rewrite C1, C2, C3, C4.
Qed.

Lemma load_target_xml_unchanged_witness :
  let w := Sample.start Sample.host Sample.no_args Sample.no_fault [] in
  _load_target_xml Sample.vm1_xml Sample.vm1_meta Sample.vm1_meta "import" w
  = (Ok Sample.vm1_xml, w).
Proof.
  cbv zeta.
  apply (@load_target_xml_unchanged Sample.vm1_xml "import" Sample.vm1_meta Sample.vm1_meta
           "/dev/vg0/vm1" "52:54:00:aa:bb:cc" "br0"
           (Sample.start Sample.host Sample.no_args Sample.no_fault [])).
  - discriminate.
  - repeat split.
  - repeat split.
  - reflexivity.
  - repeat constructor.
Defined.

(* ---------------------------------------------------------------------- *)
(** ** Removing a guest *)








(* ---------------------------------------------------------------------- *)
(** ** Answers to the conflict prompt *)

(** The question asked about a conflicting guest. *)
Definition prompt_of (vm_name attribute : string) (value : option string) : string :=
  conflict_error vm_name attribute value ++ " Remove active VM " ++ vm_name
  ++ "? [y/cancel]:".

Definition prompt_event (vm_name attribute : string) (value : option string) : Event :=
  {| ev_action := RawInput (prompt_of vm_name attribute value); ev_ok := true |}.

Definition answers_cancel (line : string) : Prop :=
  in_list (lower line) ["quit"; "cancel"] = true.

Definition unrecognised (line : string) : Prop :=
  in_list (lower line) ["y"; "yes"] = false
  /\ in_list (lower line) ["quit"; "cancel"] = false.

(** No guest of the inventory has the candidate's value. *)
Definition no_conflict (w : World) (c : string * option string) : Prop :=
  vm_info_search (fst c) (snd c) w = [].

Lemma resolve_conflicts_cons (depth : nat) (attribute : string) (value : option string)
    (rest : list (string * option string)) :
  _vm_resolve_conflicts (S depth) ((attribute, value) :: rest)
  = (w <- get_world ;;
     let prompt := py2_str_gt_int (a_output_level (w_args w)) 0 in
     let conflicts := vm_info_search attribute value w in
     for_each conflicts
       (fun vm_name =>
          w1 <- get_world ;;
          if a_overwrite (w_args w1)
          then _vm_remove vm_name
          else
            let error := conflict_error vm_name attribute value in
            if negb prompt then _raise error
            else
              input <- raw_input (error ++ " Remove active VM " ++ vm_name
                                  ++ "? [y/cancel]:") ;;
              when (in_list (lower input) ["y"; "yes"]) (_vm_remove vm_name) ;;;
              if in_list (lower input) ["quit"; "cancel"]
              then raise (SystemExit 0)
              else _vm_resolve_conflicts depth ((attribute, value) :: rest)) ;;;
     _vm_resolve_conflicts (S depth) rest).
Proof. reflexivity. Qed.

Lemma resolve_conflicts_skip (depth : nat) (pre l : list (string * option string))
    (w : World) :
  Forall (no_conflict w) pre ->
  _vm_resolve_conflicts (S depth) (pre ++ l)%list w = _vm_resolve_conflicts (S depth) l w.
Proof.
  induction pre as [|[attribute value] pre IH]; intros F; [reflexivity|].
  inversion F as [|? ? H F']; subst. unfold no_conflict in H. cbn [fst snd] in H.
  rewrite <- app_comm_cons, resolve_conflicts_cons, bind_get_world. cbv zeta.
  rewrite H. cbn [for_each]. rewrite bind_ret. now apply IH.
Qed.

(** X14.  Without a conflict nothing happens: when no guest of the
    inventory has one of the candidate values, [_vm_resolve_conflicts]
    returns and leaves the state as it is; it runs no command and asks
    nothing, with or without [--overwrite]. *)
Theorem no_conflict_no_effect (depth : nat)
    (potential_conflicts : list (string * option string)) (w : World) :
  Forall (no_conflict w) potential_conflicts ->
  _vm_resolve_conflicts (S depth) potential_conflicts w = (Ok tt, w).
Proof.
  intros F. rewrite <- (app_nil_r potential_conflicts).
  now rewrite resolve_conflicts_skip.
Qed.

Lemma no_conflict_no_effect_witness :
  let w := Sample.start Sample.host2 Sample.no_args Sample.no_fault [] in
  _vm_resolve_conflicts recursion_limit
    [("name", Some "vm9"); ("disk", Some "/dev/vg0/vm9"); ("uuid", None);
     ("mac", Some "52:54:00:00:00:09")] w
  = (Ok tt, w).
Proof.
  cbv zeta.
  apply (@no_conflict_no_effect 999
           [("name", Some "vm9"); ("disk", Some "/dev/vg0/vm9"); ("uuid", None);
            ("mac", Some "52:54:00:00:00:09")]
           (Sample.start Sample.host2 Sample.no_args Sample.no_fault [])).
  repeat constructor.
Defined.

Lemma cancel_not_yes (line : string) :
  answers_cancel line -> in_list (lower line) ["y"; "yes"] = false.
Proof.
  unfold answers_cancel, in_list, mem. cbn [existsb]. rewrite !orb_false_r.
  intros H. apply orb_true_iff in H as [H | H]; apply String.eqb_eq in H;
    rewrite H; reflexivity.
Qed.

Lemma raw_input_line (message line : string) (more : list string) (w : World) :
  w_stdin w = line :: more ->
  raw_input message w
  = (Ok line,
     set_stdin (log_event w {| ev_action := RawInput message; ev_ok := true |}) more).
Proof. intros H. unfold raw_input. now rewrite H. Qed.

(** One question that is answered by [line]. *)
Lemma resolve_conflicts_ask (depth : nat) (attribute : string) (value : option string)
    (rest : list (string * option string)) (vm : string) (others : list string)
    (line : string) (more : list string) (w : World) :
  a_overwrite (w_args w) = false ->
  vm_info_search attribute value w = vm :: others ->
  w_stdin w = line :: more ->
  in_list (lower line) ["y"; "yes"] = false ->
  let w1 := set_stdin (log_event w (prompt_event vm attribute value)) more in
  (in_list (lower line) ["quit"; "cancel"] = true ->
   _vm_resolve_conflicts (S depth) ((attribute, value) :: rest) w
   = (Raise (SystemExit 0), w1))
  /\ (in_list (lower line) ["quit"; "cancel"] = false ->
      forall e w2,
        _vm_resolve_conflicts depth ((attribute, value) :: rest) w1 = (Raise e, w2) ->
        _vm_resolve_conflicts (S depth) ((attribute, value) :: rest) w = (Raise e, w2)).
Proof.
  intros Ho Hs Hi Hy w1.
  rewrite resolve_conflicts_cons, bind_get_world. cbv zeta. rewrite Hs.
  cbn [for_each]. unfold py2_str_gt_int. cbn [negb].
  split.
  - intros Hq. unfold bind at 1. unfold bind at 1. rewrite bind_get_world, Ho.
    unfold bind at 1. rewrite (@raw_input_line _ _ _ _ Hi), Hy, Hq. reflexivity.
  - intros Hq e w2 E. unfold bind at 1. unfold bind at 1. rewrite bind_get_world, Ho.
    unfold bind at 1. rewrite (@raw_input_line _ _ _ _ Hi), Hy, Hq.
    cbn [when]. rewrite bind_ret. fold (prompt_of vm attribute value).
    fold (prompt_event vm attribute value). fold w1. now rewrite E.
Qed.

Lemma cancel_after (bads : list string) :
  forall (depth : nat) (attribute : string) (value : option string)
         (rest : list (string * option string)) (vm : string) (others : list string)
         (line : string) (more : list string) (w : World),
    List.length bads < depth ->
    a_overwrite (w_args w) = false ->
    vm_info_search attribute value w = vm :: others ->
    w_stdin w = (bads ++ line :: more)%list ->
    Forall unrecognised bads -> answers_cancel line ->
    exists w',
      _vm_resolve_conflicts depth ((attribute, value) :: rest) w = (Raise (SystemExit 0), w')
      /\ w_host w' = w_host w /\ w_stdin w' = more
      /\ w_trace w'
         = (w_trace w ++ repeat (prompt_event vm attribute value) (S (List.length bads)))%list.
Proof.
  induction bads as [|bad bads IH];
    intros depth attribute value rest vm others line more w Hd Ho Hs Hi Hb Hc;
    (destruct depth as [|depth]; [cbn in Hd; lia|]).
  - destruct (@resolve_conflicts_ask depth attribute value rest vm others line more w
                Ho Hs Hi (@cancel_not_yes _ Hc)) as (Q & _).
    eexists. split; [apply Q, Hc|]. repeat split; reflexivity.
  - inversion Hb as [|? ? (By & Bq) Hb']; subst.
    destruct (@resolve_conflicts_ask depth attribute value rest vm others bad
                (bads ++ line :: more)%list w Ho Hs Hi By) as (_ & R).
    set (w1 := set_stdin (log_event w (prompt_event vm attribute value))
                 (bads ++ line :: more)%list) in *.
    destruct (IH depth attribute value rest vm others line more w1) as (w' & E & H1 & H2 & H3);
      try assumption; try reflexivity; [cbn in Hd; lia|].
    exists w'. split; [now apply (R Bq)|]. split; [exact H1|]. split; [exact H2|].
    rewrite H3. unfold w1. cbn [w_trace set_stdin log_event].
    rewrite <- app_assoc. reflexivity.
Qed.

(** X15.  Answers to the conflict prompt.  Without [--overwrite], when the
    first conflicting candidate matches a guest, every answer other than
    y, yes, quit or cancel (in any case of letters) asks the same question
    again, and the answer quit or cancel ends the program with
    [sys.exit(0)]: the prompt has been shown once per answer, no command has
    run and the host is as it was. *)
Theorem cancel_exits (depth : nat) (pre rest : list (string * option string))
    (attribute : string) (value : option string) (vm : string) (others bads more : list string)
    (line : string) (w : World) :
  List.length bads < S depth ->
  a_overwrite (w_args w) = false ->
  Forall (no_conflict w) pre ->
  vm_info_search attribute value w = vm :: others ->
  w_stdin w = (bads ++ line :: more)%list ->
  Forall unrecognised bads -> answers_cancel line ->
  let m := _vm_resolve_conflicts (S depth) (pre ++ (attribute, value) :: rest)%list in
  run m w = Raise (SystemExit 0)
  /\ issued m w = repeat (prompt_event vm attribute value) (S (List.length bads))
  /\ w_host (exec m w) = w_host w
  /\ w_stdin (exec m w) = more.
Proof.
  intros Hd Ho Hp Hs Hi Hb Hc m.
  destruct (@cancel_after bads (S depth) attribute value rest vm others line more w
              Hd Ho Hs Hi Hb Hc) as (w' & E & H1 & H2 & H3).
  unfold m, run, exec. rewrite (@resolve_conflicts_skip _ _ _ _ Hp), E. cbn [fst snd].
  split; [reflexivity|]. split; [|now split].
  apply issued_app. unfold exec. now rewrite (@resolve_conflicts_skip _ _ _ _ Hp), E.
Qed.

(** The name [vm2] is taken on the sample host; the operator first types
    [maybe], then [Cancel]. *)
Lemma cancel_exits_witness :
  let w := Sample.start Sample.host2 (Sample.live_clone_args "vm2" false "1")
             Sample.no_fault ["maybe"; "Cancel"; "y"] in
  let m := _vm_resolve_conflicts recursion_limit
             ([("uuid", Some "none")] ++ [("name", Some "vm2"); ("mac", None)])%list in
  run m w = Raise (SystemExit 0)
  /\ issued m w = repeat (prompt_event "vm2" "name" (Some "vm2")) 2
  /\ w_host (exec m w) = w_host w
  /\ w_stdin (exec m w) = ["y"].
Proof.
  cbv zeta.
  apply (@cancel_exits 999 [("uuid", Some "none")] [("mac", None)] "name" (Some "vm2")
           "vm2" [] ["maybe"] ["y"] "Cancel"
           (Sample.start Sample.host2 (Sample.live_clone_args "vm2" false "1")
              Sample.no_fault ["maybe"; "Cancel"; "y"])).
  - cbn. lia.
  - reflexivity.
  - repeat constructor.
  - reflexivity.
  - reflexivity.
  - repeat constructor.
  - reflexivity.
Defined.

(* ---------------------------------------------------------------------- *)
(** ** What a remote backup sends *)



















(** The temporary files of a remote backup. *)
Definition temp_meta_file (name now : string) : string :=
  name ++ "-" ++ now ++ ".temp.meta.txt".

Definition temp_xml_file (name now : string) : string :=
  name ++ "-" ++ now ++ ".temp.xml".



(** The backup of [vm1] to [/backup/vm1/] on [backup.example.org]. *)
Definition remote_backup_args : Args :=
  {| a_name := Some "vm1"; a_source := "/backup/vm1/";
     a_remote := Some "backup.example.org"; a_identity_file := None;
     a_compression := Some "bzip2"; a_overwrite := false; a_volume_group := None;
     a_logical_volume := None; a_logical_volume_size := None; a_bridge := None;
     a_mac := None; a_output_level := "1"; a_block_size := "512K" |}.


(* ---------------------------------------------------------------------- *)
(** ** The temporary files of a remote backup *)

Lemma lookup_file_remove (p : string) (fs : list (string * FileData)) :
  lookup_file p (remove_file p fs) = None.
Proof.
  unfold lookup_file, remove_file. induction fs as [|[k v] fs IH]; [reflexivity|].
  cbn [filter fst]. destruct (k =? p) eqn:E; cbn [negb]; [exact IH|].
  cbn [find fst]. rewrite E. exact IH.
Qed.

Lemma lookup_file_head (p : string) (d : FileData) (fs : list (string * FileData)) :
  lookup_file p ((p, d) :: fs) = Some d.
Proof. unfold lookup_file. cbn [find fst]. now rewrite String.eqb_refl. Qed.

Lemma scp_step (a : Args) (source target : string) (h : Host) :
  host_step (_remote_target_scp_command a source target) h = Some (quiet, h).
Proof.
  unfold _remote_target_scp_command.
  destruct (a_identity_file a) as [i|]; [destruct (nonempty i)|]; reflexivity.
Qed.

Lemma scp_nonempty (a : Args) (source target : string) :
  _remote_target_scp_command a source target <> [].
Proof.
  unfold _remote_target_scp_command.
  destruct (a_identity_file a) as [i|]; [destruct (nonempty i)|]; discriminate.
Qed.

Lemma vm_info_world (vm attribute : string) (w : World) :
  snd (vm_info vm attribute w) = w.
Proof.
  unfold vm_info. rewrite bind_get_world.
  destruct (find_vm vm (d_vm_info (w_data w))) as [v|]; [|reflexivity].
  destruct (vm_get attribute v); reflexivity.
Qed.

Lemma create_vm_meta_world (vm : string) (w : World) :
  snd (_create_vm_meta vm w) = w.
Proof.
  unfold _create_vm_meta. rewrite bind_get_world. cbv zeta. unfold bind.
  repeat match goal with
         | |- context [vm_info ?v ?a ?x] =>
             let E := fresh "E" in
             pose proof (vm_info_world v a x) as E;
             destruct (vm_info v a x) as [[?|?] ?]; cbn [snd] in E; subst;
             [|reflexivity]
         end.
  reflexivity.
Qed.

(** The file [p] after a step that writes it, sends it with [scp] and
    unlinks it: gone when the step returns, still there when the [scp]
    has failed. *)
Definition leaves_behind (m : M unit) (p : string) (scp : list string) (w : World)
  : Prop :=
  (run m w = Ok tt -> lookup_file p (h_files (w_host (exec m w))) = None)
  /\ (In {| ev_action := Spawn scp; ev_ok := false |} (issued m w) ->
      (exists msg, run m w = Raise (ApplicationError msg))
      /\ lookup_file p (h_files (w_host (exec m w))) <> None).

Lemma leaves_behind_intro (m : M unit) (p : string) (scp : list string)
    (w w' : World) (r : result unit) (evs : list Event) :
  m w = (r, w') -> w_trace w' = (w_trace w ++ evs)%list ->
  (r = Ok tt -> lookup_file p (h_files (w_host w')) = None) ->
  (In {| ev_action := Spawn scp; ev_ok := false |} evs ->
   (exists msg, r = Raise (ApplicationError msg))
   /\ lookup_file p (h_files (w_host w')) <> None) ->
  leaves_behind m p scp w.
Proof.
  intros E T H1 H2. unfold leaves_behind, run.
  rewrite (@issued_app _ m w evs) by (unfold exec; now rewrite E).
  unfold exec. rewrite E. cbn [fst snd]. now split.
Qed.

Lemma leaves_behind_ext (m m' : M unit) (p : string) (scp : list string) (w : World) :
  m w = m' w -> leaves_behind m' p scp w -> leaves_behind m p scp w.
Proof. unfold leaves_behind, run, issued, exec. now intros ->. Qed.

Lemma write_file_cases (p : string) (d : FileData) (w : World) :
  _write_file p d w
  = (Ok tt,
     set_host (log_event w {| ev_action := FileWrite p; ev_ok := true |})
       (with_files (w_host w) ((p, d) :: remove_file p (h_files (w_host w)))))
  \/ exists msg,
       _write_file p d w
       = (Raise (ApplicationError msg),
          log_event w {| ev_action := FileWrite p; ev_ok := false |}).
Proof.
  unfold _write_file, bind, attempt. cbn [andb].
  destruct (negb (w_fault w (List.length (w_trace w)) (FileWrite p)));
    [left; reflexivity | right; eexists; reflexivity].
Qed.

Lemma unlink_file_cases (p : string) (d : FileData) (w : World) :
  lookup_file p (h_files (w_host w)) = Some d ->
  _unlink_file p w
  = (Ok tt,
     set_host (log_event w {| ev_action := FileUnlink p; ev_ok := true |})
       (with_files (w_host w) (remove_file p (h_files (w_host w)))))
  \/ _unlink_file p w
     = (Raise (OSError p), log_event w {| ev_action := FileUnlink p; ev_ok := false |}).
Proof.
  intros H. unfold _unlink_file. rewrite bind_get_world, H.
  unfold bind, attempt. cbn [andb].
  destruct (negb (w_fault w (List.length (w_trace w)) (FileUnlink p)));
    [left; reflexivity | right; reflexivity].
Qed.

Lemma send_leaves_behind (a : Args) (p target : string) (d : FileData) (w : World) :
  leaves_behind
    (_write_file p d ;;;
     _execute (_remote_target_scp_command a p target) ;;;
     _unlink_file p)
    p (_remote_target_scp_command a p target) w.
Proof.
  set (scp := _remote_target_scp_command a p target).
  destruct (write_file_cases p d w) as [E1 | (msg & E1)].
  2:{ eapply leaves_behind_intro with (evs := [_]).
      - apply (@bind_raise _ _ _ _ _ _ _ E1).
      - reflexivity.
      - discriminate.
      - intros [H | []]. discriminate H. }
  set (w1 := set_host _ _) in E1.
  assert (F1 : lookup_file p (h_files (w_host w1)) = Some d) by apply lookup_file_head.
  destruct (@execute_spec scp w1 (@scp_nonempty a p target))
    as (ok & w2 & Hs & T2 & _ & _ & F & S).
  destruct (_execute scp w1) as [r x] eqn:E2. cbn [fst snd] in Hs, F, S. subst x.
  destruct ok.
  - destruct (S eq_refl) as (out & Hh & ->). unfold scp in Hh. rewrite scp_step in Hh.
    injection Hh as _ Hh.
    assert (F2 : lookup_file p (h_files (w_host w2)) = Some d)
      by (rewrite <- Hh; exact F1).
    destruct (@unlink_file_cases p d w2 F2) as [E3 | E3].
    + eapply leaves_behind_intro with (evs := [_; _; _]).
      * rewrite (@bind_ok _ _ _ _ _ _ _ E1), (@bind_ok _ _ _ _ _ _ _ E2). exact E3.
      * cbn [w_trace set_host log_event]. rewrite T2. unfold w1.
        cbn [w_trace set_host log_event]. rewrite <- !app_assoc. reflexivity.
      * intros _. cbn [w_host set_host h_files with_files]. apply lookup_file_remove.
      * intros [H | [H | [H | []]]]; discriminate H.
    + eapply leaves_behind_intro with (evs := [_; _; _]).
      * rewrite (@bind_ok _ _ _ _ _ _ _ E1), (@bind_ok _ _ _ _ _ _ _ E2). exact E3.
      * cbn [w_trace set_host log_event]. rewrite T2. unfold w1.
        cbn [w_trace set_host log_event]. rewrite <- !app_assoc. reflexivity.
      * discriminate.
      * intros [H | [H | [H | []]]]; discriminate H.
  - destruct (F eq_refl) as (Hh & msg & ->).
    eapply leaves_behind_intro with (evs := [_; _]).
    + rewrite (@bind_ok _ _ _ _ _ _ _ E1). apply (@bind_raise _ _ _ _ _ _ _ E2).
    + rewrite T2. unfold w1. cbn [w_trace set_host log_event].
      rewrite <- !app_assoc. reflexivity.
    + discriminate.
    + intros _. split; [now exists msg|]. rewrite Hh, F1. discriminate.
Qed.

(** X17.  The temporary files of a remote backup.  When
    [_backup_remote_meta_info] or [_backup_remote_xml] returns, its
    temporary file is no longer on the host.  When its [scp] fails, the
    step raises an [ApplicationError] and the temporary file stays behind:
    nothing unlinks it, in the step or later in the backup. *)
Theorem failed_transfer_leaves_temp_file (w : World) (name : string) :
  a_name (w_args w) = Some name ->
  leaves_behind _backup_remote_meta_info (temp_meta_file name (w_now w))
    (_remote_target_scp_command (w_args w) (temp_meta_file name (w_now w))
       (a_source (w_args w) ++ "meta.txt")) w
  /\ leaves_behind _backup_remote_xml (temp_xml_file name (w_now w))
       (_remote_target_scp_command (w_args w) (temp_xml_file name (w_now w))
          (a_source (w_args w) ++ name ++ ".xml")) w.
Proof.
  intros Hn.
  assert (R : forall (m : M unit) (p : string) (scp : list string) (e : exn),
                m w = (Raise e, w) -> leaves_behind m p scp w).
  { intros m p scp e E. eapply leaves_behind_intro with (evs := []);
      [exact E | now rewrite app_nil_r | discriminate | intros []]. }
  split.
  - pose proof (create_vm_meta_world name w) as Wm.
    destruct (_create_vm_meta name w) as [[meta|e] x] eqn:E; cbn [snd] in Wm; subst x.
    + assert (Q : _backup_remote_meta_info w
                  = (_write_file (temp_meta_file name (w_now w)) (_return_json meta) ;;;
                     _execute (_remote_target_scp_command (w_args w)
                                 (temp_meta_file name (w_now w))
                                 (a_source (w_args w) ++ "meta.txt")) ;;;
                     _unlink_file (temp_meta_file name (w_now w))) w).
      { unfold _backup_remote_meta_info. rewrite bind_get_world. cbv zeta.
        rewrite Hn. cbn [fmt]. now rewrite (@bind_ok _ _ _ _ _ _ _ E). }
      apply (@leaves_behind_ext _ _ _ _ _ Q), send_leaves_behind.
    + apply (R _ _ _ e). unfold _backup_remote_meta_info. rewrite bind_get_world.
      cbv zeta. rewrite Hn. cbn [fmt]. now rewrite (@bind_raise _ _ _ _ _ _ _ E).
  - pose proof (vm_info_world name "xml" w) as Wm.
    destruct (vm_info name "xml" w) as [[xml|e] x] eqn:E; cbn [snd] in Wm; subst x.
    + assert (Q : _backup_remote_xml w
                  = (_write_file (temp_xml_file name (w_now w)) (Text (fmt xml)) ;;;
                     _execute (_remote_target_scp_command (w_args w)
                                 (temp_xml_file name (w_now w))
                                 (a_source (w_args w) ++ name ++ ".xml")) ;;;
                     _unlink_file (temp_xml_file name (w_now w))) w).
      { unfold _backup_remote_xml. rewrite bind_get_world. cbv zeta.
        rewrite Hn. cbn [fmt]. now rewrite (@bind_ok _ _ _ _ _ _ _ E). }
      apply (@leaves_behind_ext _ _ _ _ _ Q), send_leaves_behind.
    + apply (R _ _ _ e). unfold _backup_remote_xml. rewrite bind_get_world.
      cbv zeta. rewrite Hn. cbn [fmt]. now rewrite (@bind_raise _ _ _ _ _ _ _ E).
Qed.

(** The remote backup of [vm1] in which every [scp] fails. *)
Definition failing_scp : nat -> Action -> bool :=
  fun _ a => match a with Spawn ("scp" :: _) => true | _ => false end.

Lemma failed_transfer_leaves_temp_file_witness :
  let w := Sample.start Sample.host remote_backup_args failing_scp [] in
  leaves_behind _backup_remote_meta_info "vm1-20120801-1200.temp.meta.txt"
    ["scp"; "vm1-20120801-1200.temp.meta.txt"; "backup.example.org:/backup/vm1/meta.txt"] w
  /\ leaves_behind _backup_remote_xml "vm1-20120801-1200.temp.xml"
       ["scp"; "vm1-20120801-1200.temp.xml"; "backup.example.org:/backup/vm1/vm1.xml"] w
  /\ lookup_file "vm1-20120801-1200.temp.meta.txt"
       (h_files (w_host (exec _backup_remote_meta_info w))) <> None.
Proof.
  cbv zeta.
  destruct (@failed_transfer_leaves_temp_file
              (Sample.start Sample.host remote_backup_args failing_scp []) "vm1" eq_refl)
    as (A & B).
  split; [exact A|]. split; [exact B|].
  apply A. vm_compute. right. left. reflexivity.
Defined.

(* ---------------------------------------------------------------------- *)
(** ** The decorator [sys_exit] and the pid file

    [Vmpy.__init__] runs under [sys_exit].  The wrapper is embedded with
    the decorated function as a parameter.  Of [self.status] only the exit
    text is kept, as the content of the error file and of the line added
    to the log; printing is not modelled.  The time stamp written to the
    pid file is the clock reading of the run. *)

Definition pid_file : string := "./vmpy.pid".
Definition log_file : string := "./vmpy-log.json".

(** [self.error_file]: [__init__] puts the date in as soon as it starts. *)
Definition error_file (started : bool) (now : string) : string :=
  if started then "./vmpy-error-" ++ now ++ ".json"
  else "./vmpy-error-<datetime>.json".

(** [os.path.isfile] *)
Definition isfile (p : string) (h : Host) : bool :=
  match lookup_file p (h_files h) with Some _ => true | None => false end.

(** [self._set_pid_file()] *)
Definition _set_pid_file : M unit :=
  w <- get_world ;;
  if isfile pid_file (w_host w)
  then _raise ("Warning: pid file " ++ pid_file ++ " already exists.")
  else _write_file pid_file (Text (w_now w)).

(** [self._remove_pid_file()] *)
Definition _remove_pid_file : M unit :=
  w <- get_world ;;
  if negb (isfile pid_file (w_host w))
  then _raise ("Warning: pid file " ++ pid_file
               ++ " could not be removed, as it does not exist.")
  else _unlink_file pid_file.

(** [fh = open(path, mode); fh.write(data); fh.close()] outside
    [_write_file]: [false] stands for the [IOError]. *)
Definition raw_write (path : string) (data : FileData) : M bool :=
  ok <- attempt (FileWrite path) true ;;
  if ok
  then fun w =>
         (Ok true, set_host w (with_files (w_host w)
                     ((path, data) :: remove_file path (h_files (w_host w)))))
  else ret false.

(** The line feed. *)
Definition newline : string := String (ascii_of_nat 10) EmptyString.

(** The same with mode ['a+']: the line is added to what the file holds. *)
Definition raw_append (path : string) (line : string) : M bool :=
  w <- get_world ;;
  let old := match lookup_file path (h_files (w_host w)) with
             | Some d => text_of d
             | None => ""
             end in
  raw_write path (Text (old ++ line)).

(** [hasattr(e, 'code') and e.code == 0] *)
Definition exits_with_zero (e : exn) : bool :=
  match e with SystemExit c => (c =? 0)%Z | _ => false end.

(** How the call of the wrapper ends. *)
Inductive ending : Type :=
| Returned                          (* the wrapper returns *)
| Exited (code : Z)                 (* [sys.exit(code)] *)
| Uncaught (e : exn)                (* an exception of [_remove_pid_file] *)
| UncaughtIOError (path : string).  (* the log file could not be opened *)

(** The exit status of the interpreter. *)
Definition exit_status (e : ending) : Z :=
  match e with
  | Returned => 0
  | Exited c => c
  | Uncaught _ => 1
  | UncaughtIOError _ => 1
  end.

Definition exit_text (r : result unit) : string :=
  match r with
  | Ok _ => "Success"
  | Raise e => if exits_with_zero e then "Success" else "Fatal Error | " ++ str_of_exn e
  end.

(** The [finally] clause of the wrapper: the pid file is removed, the
    line is added to the log, and a run that failed ends in [sys.exit(1)].
    An exception raised here replaces whatever was pending. *)
Definition finally_clause (r : result unit) (success : bool) : World -> ending * World :=
  fun w2 =>
    match _remove_pid_file w2 with
    | (Raise e, w3) => (Uncaught e, w3)
    | (Ok _, w3) =>
        match raw_append log_file (exit_text r ++ newline) w3 with
        | (Ok true, w4) => (if success then Returned else Exited 1, w4)
        | (_, w4) => (UncaughtIOError log_file, w4)
        end
    end.

(** [sys_exit(func)].  An exception raised while the error file is written
    is raised again as [Exception(ee)]; the [finally] clause then replaces
    it, since [success] is false. *)
Definition sys_exit (func : M unit) : World -> ending * World :=
  fun w =>
    (* try: *)
    let '(started, (r, w1)) :=
      match _set_pid_file w with
      | (Ok _, w0) => (true, func w0)
      | (Raise e, w0) => (false, (Raise e, w0))
      end in
    (* except BaseException, e: / else: *)
    let '(success, w2) :=
      match r with
      | Ok _ => (true, w1)
      | Raise e =>
          if exits_with_zero e then (true, w1)
          else (false,
                snd (raw_write (error_file started (w_now w1)) (Text (exit_text r)) w1))
      end in
    (* finally: *)
    finally_clause r success w2.

Lemma isfile_head (p : string) (d : FileData) (fs : list (string * FileData)) (h : Host) :
  isfile p (with_files h ((p, d) :: fs)) = true.
Proof. unfold isfile. cbn [h_files with_files]. now rewrite lookup_file_head. Qed.

Lemma isfile_removed (p : string) (h : Host) :
  isfile p (with_files h (remove_file p (h_files h))) = false.
Proof. unfold isfile. cbn [h_files with_files]. now rewrite lookup_file_remove. Qed.

Lemma lookup_file_other (p q : string) (d : FileData) (fs : list (string * FileData)) :
  (q =? p) = false ->
  lookup_file p ((q, d) :: remove_file q fs) = lookup_file p fs.
Proof.
  intros H. unfold lookup_file, remove_file. cbn [find fst]. rewrite H. f_equal.
  induction fs as [|[k v] fs IH]; [reflexivity|].
  cbn [filter find fst]. destruct (k =? q) eqn:E; cbn [negb].
  - apply String.eqb_eq in E. subst k. now rewrite H.
  - cbn [find fst]. now rewrite IH.
Qed.

(** [_set_pid_file] fails with an [ApplicationError] or writes the file. *)
Lemma set_pid_file_cases (w : World) :
  (exists msg w', _set_pid_file w = (Raise (ApplicationError msg), w')
                  /\ (isfile pid_file (w_host w) = true -> w' = w))
  \/ (isfile pid_file (w_host w) = false
      /\ exists w', _set_pid_file w = (Ok tt, w')
                    /\ isfile pid_file (w_host w') = true).
Proof.
  unfold _set_pid_file. rewrite bind_get_world.
  destruct (isfile pid_file (w_host w)) eqn:F.
  - left. eexists. exists w. split; reflexivity.
  - destruct (write_file_cases pid_file (Text (w_now w)) w) as [E | (msg & E)].
    + right. split; [reflexivity|]. eexists. split; [exact E|].
      cbn [w_host set_host]. apply isfile_head.
    + left. eexists. eexists. split; [exact E|]. discriminate.
Qed.

(** [_remove_pid_file] returns only when the file is gone. *)
Lemma remove_pid_file_ok (w w' : World) :
  _remove_pid_file w = (Ok tt, w') -> isfile pid_file (w_host w') = false.
Proof.
  unfold _remove_pid_file. rewrite bind_get_world.
  unfold isfile at 1. destruct (lookup_file pid_file (h_files (w_host w))) as [d|] eqn:L;
    cbn [negb]; [|discriminate].
  destruct (@unlink_file_cases pid_file d w L) as [E | E]; rewrite E; [|discriminate].
  intros [= <-]. cbn [w_host set_host log_event]. apply isfile_removed.
Qed.

Lemma raw_write_spec (path : string) (data : FileData) (w : World) :
  exists ok w',
    raw_write path data w = (Ok ok, w')
    /\ w_trace w' = (w_trace w ++ [{| ev_action := FileWrite path; ev_ok := ok |}])%list
    /\ (forall p, (path =? p) = false -> isfile p (w_host w') = isfile p (w_host w)).
Proof.
  unfold raw_write, bind, attempt. cbn [andb].
  destruct (negb (w_fault w (List.length (w_trace w)) (FileWrite path)));
    eexists; eexists; (split; [reflexivity|]); (split; [reflexivity|]); intros p H;
    [|reflexivity].
  unfold isfile. cbn [w_host set_host log_event h_files with_files].
  now rewrite lookup_file_other.
Qed.

Lemma raw_append_spec (path line : string) (w : World) :
  exists ok w',
    raw_append path line w = (Ok ok, w')
    /\ w_trace w' = (w_trace w ++ [{| ev_action := FileWrite path; ev_ok := ok |}])%list
    /\ (forall p, (path =? p) = false -> isfile p (w_host w') = isfile p (w_host w)).
Proof. unfold raw_append. rewrite bind_get_world. cbv zeta. apply raw_write_spec. Qed.

(** X18.  An exit status of zero means success.  Whatever the decorated
    function is and whichever file operations fail, when the run ends with
    status 0 then there was no pid file at the start, the pid file was
    written, the function ran and returned or called [sys.exit(0)], and
    the pid file is gone at the end. *)
Theorem zero_exit_means_success (func : M unit) (w : World) :
  exit_status (fst (sys_exit func w)) = 0%Z ->
  isfile pid_file (w_host w) = false
  /\ (exists w0 r w1,
        _set_pid_file w = (Ok tt, w0) /\ func w0 = (r, w1)
        /\ (r = Ok tt \/ r = Raise (SystemExit 0)))
  /\ isfile pid_file (w_host (snd (sys_exit func w))) = false.
Proof.
  unfold sys_exit.
  assert (G : forall (r : result unit) (success : bool) (w2 : World),
            exit_status (fst (finally_clause r success w2)) = 0%Z ->
            success = true
            /\ isfile pid_file (w_host (snd (finally_clause r success w2))) = false).
  { intros r success w2. unfold finally_clause.
    destruct (_remove_pid_file w2) as [[[]|e] w3] eqn:R; [|discriminate].
    destruct (raw_append_spec log_file (exit_text r ++ newline) w3)
      as (ok & w4 & A & _ & F4).
    rewrite A. destruct ok; [|discriminate]. destruct success; [|discriminate].
    intros _. split; [reflexivity|]. cbn [snd].
    rewrite (F4 pid_file eq_refl). apply (@remove_pid_file_ok _ _ R). }
  destruct (set_pid_file_cases w) as [(msg & w0 & E & _) | (F & w0 & E & _)]; rewrite E.
  - cbn [exits_with_zero]. intros H. apply G in H. destruct H as (H & _). discriminate H.
  - destruct (func w0) as [[[]|e] w1] eqn:Ef.
    + intros H. apply G in H. destruct H as (_ & H).
      split; [exact F|]. split; [|exact H].
      exists w0, (Ok tt), w1. repeat split; auto.
    + destruct (exits_with_zero e) eqn:Z.
      * intros H. apply G in H. destruct H as (_ & H).
        split; [exact F|]. split; [|exact H].
        exists w0, (Raise e), w1. repeat split; auto. right.
        destruct e; try discriminate Z. cbn in Z. apply Z.eqb_eq in Z. now subst.
      * intros H. apply G in H. destruct H as (H & _). discriminate H.
Qed.

(** The backup of [vm1] on the sample host, run under the wrapper. *)
Lemma zero_exit_means_success_witness :
  let w := Sample.start Sample.host Sample.backup_args Sample.no_fault [] in
  exit_status (fst (sys_exit (load_info ;;; backup) w)) = 0%Z
  /\ isfile pid_file (w_host w) = false
  /\ (exists w0 r w1,
        _set_pid_file w = (Ok tt, w0) /\ (load_info ;;; backup) w0 = (r, w1)
        /\ (r = Ok tt \/ r = Raise (SystemExit 0)))
  /\ isfile pid_file (w_host (snd (sys_exit (load_info ;;; backup) w))) = false.
Proof.
  cbv zeta. split; [vm_compute; reflexivity|].
  apply (@zero_exit_means_success (load_info ;;; backup)
           (Sample.start Sample.host Sample.backup_args Sample.no_fault [])).
  vm_compute. reflexivity.
Defined.

(** X19.  A run that finds the pid file of another run.  The decorated
    function is not called and the run ends with a status other than
    zero; but the [finally] clause unlinks the pid file all the same, so
    that, when the unlink succeeds, the lock of the other run is gone. *)
Theorem second_run_removes_lock (func : M unit) (w : World) :
  isfile pid_file (w_host w) = true ->
  (forall other : M unit, sys_exit func w = sys_exit other w)
  /\ exit_status (fst (sys_exit func w)) = 1%Z
  /\ exists logged unlinked,
       firstn 2 (skipn (List.length (w_trace w)) (w_trace (snd (sys_exit func w))))
       = [{| ev_action := FileWrite (error_file false (w_now w)); ev_ok := logged |};
          {| ev_action := FileUnlink pid_file; ev_ok := unlinked |}]
       /\ (unlinked = true ->
           isfile pid_file (w_host (snd (sys_exit func w))) = false).
Proof.
  intros F.
  assert (E : _set_pid_file w
              = (Raise (ApplicationError ("Warning: pid file " ++ pid_file
                                          ++ " already exists.")), w)).
  { unfold _set_pid_file. rewrite bind_get_world, F. reflexivity. }
  split; [intros other; unfold sys_exit; now rewrite E|].
  unfold sys_exit. rewrite E. cbn [exits_with_zero error_file]. unfold finally_clause.
  set (r := Raise (ApplicationError ("Warning: pid file " ++ pid_file
                                     ++ " already exists."))).
  destruct (raw_write_spec "./vmpy-error-<datetime>.json" (Text (exit_text r)) w)
    as (logged & w2 & E2 & T2 & F2).
  rewrite E2. cbn [snd].
  assert (P2 : isfile pid_file (w_host w2) = true) by now rewrite (F2 pid_file eq_refl).
  unfold _remove_pid_file. rewrite bind_get_world, P2. cbn [negb].
  unfold isfile in P2.
  destruct (lookup_file pid_file (h_files (w_host w2))) as [d|] eqn:L; [|discriminate].
  destruct (@unlink_file_cases pid_file d w2 L) as [E3 | E3]; rewrite E3.
  - set (w3 := set_host _ _).
    destruct (raw_append_spec log_file (exit_text r ++ newline) w3)
      as (ok & w4 & A & T4 & F4).
    rewrite A.
    assert (T : firstn 2 (skipn (List.length (w_trace w)) (w_trace w4))
                = [{| ev_action := FileWrite "./vmpy-error-<datetime>.json";
                      ev_ok := logged |};
                   {| ev_action := FileUnlink pid_file; ev_ok := true |}]).
    { rewrite T4. unfold w3. cbn [w_trace set_host log_event].
      rewrite T2, <- !app_assoc, skipn_length_app. reflexivity. }
    assert (P4 : isfile pid_file (w_host w4) = false).
    { rewrite (F4 pid_file eq_refl). apply isfile_removed. }
    destruct ok; cbn [fst snd exit_status]; (split; [reflexivity|]);
      exists logged, true; (split; [exact T | intros _; exact P4]).
  - cbn [fst snd exit_status]. split; [reflexivity|]. exists logged, false.
    split; [|discriminate].
    cbn [w_trace log_event]. rewrite T2, <- !app_assoc, skipn_length_app. reflexivity.
Qed.

(** The sample host on which a pid file lies. *)
Lemma second_run_removes_lock_witness :
  let w := Sample.start (Sample.host_with "10.00g" [(pid_file, Text "20120801-1159")])
             Sample.backup_args Sample.no_fault [] in
  (forall other : M unit, sys_exit backup w = sys_exit other w)
  /\ exit_status (fst (sys_exit backup w)) = 1%Z
  /\ exists logged unlinked,
       firstn 2 (skipn (List.length (w_trace w)) (w_trace (snd (sys_exit backup w))))
       = [{| ev_action := FileWrite (error_file false (w_now w)); ev_ok := logged |};
          {| ev_action := FileUnlink pid_file; ev_ok := unlinked |}]
       /\ (unlinked = true ->
           isfile pid_file (w_host (snd (sys_exit backup w))) = false).
Proof.
  cbv zeta.
  apply (@second_run_removes_lock backup
           (Sample.start (Sample.host_with "10.00g" [(pid_file, Text "20120801-1159")])
              Sample.backup_args Sample.no_fault [])).
  reflexivity.
Defined.

(* ---------------------------------------------------------------------- *)
(** ** Reading the table of volume groups

    [_load_vg_info] runs [vgs --separator=:: --units=g] and reads its
    output.  Here is what it does with the text. *)

(** [s.split(sep)] for a non-empty [sep]: a left-to-right scan.  [skip]
    counts the bytes of the separator just found that are still to be
    passed over, [acc] is the piece read so far. *)
Fixpoint split_from (sep : string) (skip : nat) (acc : string) (s : string)
  : list string :=
  match s with
  | EmptyString => [acc]
  | String c s' =>
      match skip with
      | S k => split_from sep k acc s'
      | O =>
          if prefix sep s
          then acc :: split_from sep (String.length sep - 1) EmptyString s'
          else split_from sep 0 (acc ++ String c EmptyString) s'
      end
  end.

Definition py_split (s sep : string) : list string := split_from sep 0 EmptyString s.

(** The characters of [string.whitespace]. *)
Definition is_space (c : ascii) : bool :=
  let n := nat_of_ascii c in
  (n =? 32)%nat || ((9 <=? n)%nat && (n <=? 13)%nat).

Fixpoint py_lstrip (s : string) : string :=
  match s with
  | EmptyString => EmptyString
  | String c s' => if is_space c then py_lstrip s' else s
  end.

Fixpoint py_rstrip (s : string) : string :=
  match s with
  | EmptyString => EmptyString
  | String c s' =>
      match py_rstrip s' with
      | EmptyString => if is_space c then EmptyString else String c EmptyString
      | r => String c r
      end
  end.

(** [s.strip()] *)
Definition py_strip (s : string) : string := py_rstrip (py_lstrip s).

(** A [dict] as the list of its assignments, in the order they were made:
    the last assignment to a key is the one that counts. *)
Fixpoint dict_get {V} (k : string) (d : list (string * V)) : option V :=
  match d with
  | [] => None
  | (k', v) :: d' =>
      match dict_get k d' with
      | Some x => Some x
      | None => if k' =? k then Some v else None
      end
  end.

(** [[cleaned.strip() for cleaned in row.split('::')]] *)
Definition segments_of (row : string) : list string := map py_strip (py_split row "::").

(** What [_load_vg_info] leaves in [self.data['vg_info']] when [vgs] has
    printed [output]: one entry per row after the first, under the first
    segment of the row, holding the segments under the headers.  With no
    row at all, [rows[0]] is an [IndexError]. *)
Definition vg_info_of_output (output : string)
  : result (list (string * list (string * string))) :=
  let rows := filter nonempty (py_split output newline) in
  match rows with
  | [] => Raise IndexError
  | header :: vgs =>
      let headers := segments_of header in
      Ok (map (fun row =>
                 let segments := segments_of row in
                 (hd EmptyString segments, combine headers segments))
              vgs)
  end.

(** [self.vg_info(vg, attribute)] on that dictionary; [None] is the
    [KeyError] that becomes an [ApplicationError]. *)
Definition vg_info_in (d : list (string * list (string * string)))
    (vg attribute : string) : option string :=
  match dict_get vg d with
  | Some values => dict_get attribute values
  | None => None
  end.

(** *** Splitting what was joined *)

(** No byte of [s] is [c]. *)
Fixpoint lacks (c : ascii) (s : string) : bool :=
  match s with
  | EmptyString => true
  | String x s' => negb (Ascii.eqb x c) && lacks c s'
  end.

Lemma join_cons (sep x : string) (xs : list string) :
  xs <> [] -> join sep (x :: xs) = x ++ sep ++ join sep xs.
Proof. destruct xs; [contradiction | reflexivity]. Qed.

Lemma join_one (sep x : string) : join sep [x] = x.
Proof. reflexivity. Qed.

Lemma split_from_skip (sep acc x rest : string) :
  split_from sep (String.length x) acc (x ++ rest) = split_from sep 0 acc rest.
Proof.
  induction x as [|c x IH]; [reflexivity|].
  rewrite append_cons. cbn [String.length split_from]. exact IH.
Qed.

Lemma split_from_piece (c0 : ascii) (sep' acc x rest : string) :
  lacks c0 x = true ->
  split_from (String c0 sep') 0 acc (x ++ rest)
  = split_from (String c0 sep') 0 (acc ++ x) rest.
Proof.
  revert acc. induction x as [|c x IH]; intros acc H.
  - now rewrite append_nil_l, append_nil_r.
  - cbn [lacks] in H. apply andb_true_iff in H as [H1 H2].
    rewrite append_cons. cbn [split_from]. rewrite prefix_cons, Ascii.eqb_sym.
    destruct (Ascii.eqb c c0); [discriminate H1|].
    rewrite IH by assumption. f_equal.
    rewrite string_app_assoc. reflexivity.
Qed.

Lemma split_from_end (c0 : ascii) (sep' acc x : string) :
  lacks c0 x = true -> split_from (String c0 sep') 0 acc x = [acc ++ x].
Proof.
  intros H. rewrite <- (append_nil_r x) at 1.
  now rewrite split_from_piece.
Qed.

Lemma split_from_sep (c0 : ascii) (sep' acc rest : string) :
  split_from (String c0 sep') 0 acc (String c0 sep' ++ rest)
  = acc :: split_from (String c0 sep') 0 EmptyString rest.
Proof.
  rewrite append_cons. cbn [split_from]. rewrite <- append_cons, prefix_append.
  replace (String.length (String c0 sep') - 1) with (String.length sep')
    by (cbn [String.length]; lia).
  now rewrite split_from_skip.
Qed.

(** Pieces that do not hold the first byte of the separator come back. *)
Lemma split_join (c0 : ascii) (sep' : string) (xs : list string) :
  xs <> [] -> Forall (fun x => lacks c0 x = true) xs ->
  py_split (join (String c0 sep') xs) (String c0 sep') = xs.
Proof.
  unfold py_split. induction xs as [|x xs IH]; [contradiction|].
  intros _ F. inversion F as [|? ? Hx Hxs]; subst.
  destruct xs as [|y xs].
  - rewrite join_one. now rewrite split_from_end.
  - rewrite join_cons by discriminate.
    rewrite split_from_piece, split_from_sep by assumption.
    rewrite append_nil_l. f_equal. apply IH; [discriminate | assumption].
Qed.

Lemma join_snoc_empty (sep : string) (xs : list string) :
  xs <> [] -> join sep (xs ++ [EmptyString]) = join sep xs ++ sep.
Proof.
  induction xs as [|x xs IH]; [contradiction|]. intros _.
  destruct xs as [|y xs].
  - cbn [app]. rewrite join_cons by discriminate. rewrite !join_one.
    now rewrite append_nil_r.
  - rewrite <- app_comm_cons, join_cons by discriminate.
    rewrite (@join_cons sep x (y :: xs)) by discriminate.
    rewrite IH by discriminate. now rewrite !string_app_assoc.
Qed.

(** *** Stripping *)

Lemma lacks_append (c : ascii) (a b : string) :
  lacks c (a ++ b) = lacks c a && lacks c b.
Proof.
  induction a as [|x a IH]; [reflexivity|].
  rewrite append_cons. cbn [lacks]. now rewrite IH, andb_assoc.
Qed.

(** A string without white space. *)
Fixpoint solid (s : string) : bool :=
  match s with
  | EmptyString => true
  | String c s' => negb (is_space c) && solid s'
  end.

(** A string of white space only. *)
Fixpoint blank (s : string) : bool :=
  match s with
  | EmptyString => true
  | String c s' => is_space c && blank s'
  end.

Lemma py_rstrip_solid (s : string) : solid s = true -> py_rstrip s = s.
Proof.
  induction s as [|c s IH]; [reflexivity|]. cbn [solid py_rstrip].
  intros H. apply andb_true_iff in H as [H1 H2]. rewrite (IH H2).
  destruct s; [|reflexivity]. now destruct (is_space c).
Qed.

Lemma py_lstrip_solid (s : string) : solid s = true -> py_lstrip s = s.
Proof.
  destruct s as [|c s]; [reflexivity|]. cbn [solid py_lstrip].
  intros H. apply andb_true_iff in H as [H1 _]. now destruct (is_space c).
Qed.

Lemma py_strip_indent (indent s : string) :
  blank indent = true -> solid s = true -> py_strip (indent ++ s) = s.
Proof.
  intros Hi Hs. unfold py_strip. induction indent as [|c indent IH].
  - rewrite append_nil_l, py_lstrip_solid by assumption. now apply py_rstrip_solid.
  - cbn [blank] in Hi. apply andb_true_iff in Hi as [H1 H2].
    rewrite append_cons. cbn [py_lstrip]. rewrite H1. now apply IH.
Qed.

Lemma py_strip_solid (s : string) : solid s = true -> py_strip s = s.
Proof. intros H. now apply (@py_strip_indent EmptyString s). Qed.

(** *** The table that [vgs] prints *)

(** A row: the indentation, then the cells with [::] between them. *)
Definition render_row (indent : string) (cells : list string) : string :=
  indent ++ join "::" cells.

(** The rows, each ended by a line feed. *)
Definition render_table (indent : string) (rows : list (list string)) : string :=
  join newline (map (render_row indent) rows) ++ newline.

(** A cell: no white space and no colon. *)
Definition clean (c : string) : bool := solid c && lacks ":" c.

(** A row has a first cell, which is not empty, and clean cells. *)
Definition well_formed (cells : list string) : Prop :=
  nonempty (hd EmptyString cells) = true /\ Forall (fun c => clean c = true) cells.

Lemma lacks_join (c : ascii) (sep : string) (xs : list string) :
  lacks c sep = true -> Forall (fun x => lacks c x = true) xs ->
  lacks c (join sep xs) = true.
Proof.
  intros Hs F. induction F as [|x xs Hx F IH]; [reflexivity|].
  destruct xs as [|y xs]; [exact Hx|].
  rewrite join_cons by discriminate. rewrite !lacks_append, Hx, Hs. exact IH.
Qed.

Lemma blank_lacks (c : ascii) (s : string) :
  is_space c = false -> blank s = true -> lacks c s = true.
Proof.
  intros Hc. induction s as [|x s IH]; [reflexivity|]. cbn [blank lacks].
  intros H. apply andb_true_iff in H as [H1 H2]. rewrite (IH H2), andb_true_r.
  destruct (Ascii.eqb x c) eqn:E; [|reflexivity].
  apply Ascii.eqb_eq in E. subst x. congruence.
Qed.

Lemma solid_lacks (c : ascii) (s : string) :
  is_space c = true -> solid s = true -> lacks c s = true.
Proof.
  intros Hc. induction s as [|x s IH]; [reflexivity|]. cbn [solid lacks].
  intros H. apply andb_true_iff in H as [H1 H2]. rewrite (IH H2), andb_true_r.
  destruct (Ascii.eqb x c) eqn:E; [|reflexivity].
  apply Ascii.eqb_eq in E. subst x. rewrite Hc in H1. discriminate H1.
Qed.

Lemma join_head (sep x c : string) (cs : list string) :
  x ++ join sep (c :: cs) = join sep ((x ++ c) :: cs).
Proof.
  destruct cs as [|d cs]; [reflexivity|].
  rewrite (@join_cons sep c (d :: cs)), (@join_cons sep (x ++ c) (d :: cs)) by discriminate.
  now rewrite string_app_assoc.
Qed.

Lemma well_formed_cons (cells : list string) :
  well_formed cells -> exists c cs, cells = c :: cs /\ nonempty c = true.
Proof.
  intros (H & _). destruct cells as [|c cs]; [discriminate H|]. now exists c, cs.
Qed.

(** The segments of a printed row are its cells. *)
Lemma segments_of_row (indent : string) (cells : list string) :
  blank indent = true -> well_formed cells ->
  segments_of (render_row indent cells) = cells.
Proof.
  intros Hi W. destruct (well_formed_cons W) as (c & cs & -> & Hc).
  destruct W as (_ & F). inversion F as [|? ? Fc Fcs]; subst.
  unfold clean in Fc. apply andb_true_iff in Fc as [Sc Cc].
  unfold segments_of, render_row. rewrite join_head.
  rewrite (@split_join ":" ":" ((indent ++ c) :: cs)); [|discriminate|].
  - cbn [map]. rewrite py_strip_indent by assumption. f_equal.
    clear F. induction Fcs as [|d ds Hd Fds IH]; [reflexivity|].
    cbn [map]. unfold clean in Hd. apply andb_true_iff in Hd as [Sd _].
    now rewrite py_strip_solid, IH.
  - constructor.
    + rewrite lacks_append, Cc, andb_true_r. now apply blank_lacks.
    + apply Forall_forall. intros d Hd. rewrite Forall_forall in Fcs.
      specialize (Fcs d Hd). unfold clean in Fcs. now apply andb_true_iff in Fcs.
Qed.

Lemma render_row_line (indent : string) (cells : list string) :
  blank indent = true -> lacks (ascii_of_nat 10) indent = true -> well_formed cells ->
  lacks (ascii_of_nat 10) (render_row indent cells) = true
  /\ nonempty (render_row indent cells) = true.
Proof.
  intros Hi Hn W. destruct (well_formed_cons W) as (c & cs & -> & Hc).
  destruct W as (_ & F). unfold render_row. split.
  - rewrite lacks_append, Hn. apply lacks_join; [reflexivity|].
    apply Forall_forall. intros d Hd. rewrite Forall_forall in F.
    specialize (F d Hd). unfold clean in F. apply andb_true_iff in F as [Sd _].
    now apply solid_lacks.
  - destruct indent; [|reflexivity]. rewrite append_nil_l.
    destruct c; [discriminate Hc|]. now destruct cs.
Qed.

Lemma filter_lines (lines : list string) :
  Forall (fun l => nonempty l = true) lines ->
  filter nonempty (lines ++ [EmptyString]) = lines.
Proof.
  induction 1 as [|l lines Hl F IH]; [reflexivity|].
  cbn [app filter]. now rewrite Hl, IH.
Qed.

(** X20.  Reading the output of [vgs].  When [vgs --separator=::] prints a
    header row and one row per volume group, each indented by white space,
    with cells that hold neither white space nor a colon and a first cell
    that is not empty, [_load_vg_info] stores for each volume group, under
    the first cell of its row, the cells of the row under the headers, in
    the order of the rows: the text is split and stripped back into exactly
    the cells that were printed. *)
Theorem vgs_output_parsed (indent : string) (headers : list string)
    (rows : list (list string)) :
  blank indent = true -> lacks (ascii_of_nat 10) indent = true ->
  well_formed headers -> Forall well_formed rows ->
  vg_info_of_output (render_table indent (headers :: rows))
  = Ok (map (fun cells => (hd EmptyString cells, combine headers cells)) rows).
Proof.
  intros Hi Hn Wh Wr. unfold vg_info_of_output, render_table.
  set (lines := map (render_row indent) (headers :: rows)).
  assert (L : Forall (fun l => lacks (ascii_of_nat 10) l = true /\ nonempty l = true)
                     lines).
  { unfold lines. apply Forall_forall. intros l Hl. apply in_map_iff in Hl.
    destruct Hl as (cells & <- & Hc). apply render_row_line; try assumption.
    destruct Hc as [<- | Hc]; [exact Wh|]. rewrite Forall_forall in Wr. now apply Wr. }
  assert (S : py_split (join newline lines ++ newline) newline
              = (lines ++ [EmptyString])%list).
  { rewrite <- join_snoc_empty by discriminate. unfold newline.
    apply split_join; [now destruct lines|].
    apply Forall_app. split; [|now repeat constructor].
    eapply Forall_impl; [|exact L]. now intros l (H & _). }
  cbv zeta. rewrite S, filter_lines by (eapply Forall_impl; [|exact L]; now intros l (_ & H)).
  unfold lines. cbn [map]. rewrite segments_of_row by assumption.
  f_equal. rewrite map_map. apply map_ext_in. intros cells Hc.
  rewrite Forall_forall in Wr. now rewrite segments_of_row by auto.
Qed.

(** Two volume groups, as [vgs] prints them. *)
Lemma vgs_output_parsed_witness :
  vg_info_of_output
    (render_table "  " [["VG"; "#PV"; "VSize"; "VFree"];
                        ["vg0"; "1"; "100.00g"; "10.00g"];
                        ["vg1"; "2"; "931.51g"; "0g"]])
  = Ok [("vg0", [("VG", "vg0"); ("#PV", "1"); ("VSize", "100.00g"); ("VFree", "10.00g")]);
        ("vg1", [("VG", "vg1"); ("#PV", "2"); ("VSize", "931.51g"); ("VFree", "0g")])].
Proof.
  apply (@vgs_output_parsed "  " ["VG"; "#PV"; "VSize"; "VFree"]
           [["vg0"; "1"; "100.00g"; "10.00g"]; ["vg1"; "2"; "931.51g"; "0g"]]).
  - reflexivity.
  - reflexivity.
  - split; [reflexivity | repeat constructor].
  - repeat constructor.
Defined.

(** *** The table and the inventory *)

(** The row of a volume group: its name, the cells in between, its free
    space. *)
Definition vg_row (between : VolumeGroup -> list string) (g : VolumeGroup) : list string :=
  vg_name g :: (between g ++ [vg_free g])%list.

Lemma dict_get_last {V} (k : string) (v : V) (d : list (string * V)) :
  dict_get k (d ++ [(k, v)])%list = Some v.
Proof.
  induction d as [|[k' v'] d IH].
  - cbn. now rewrite String.eqb_refl.
  - cbn [app dict_get]. now rewrite IH.
Qed.

Lemma dict_get_cons_other {V} (k k' : string) (v : V) (d : list (string * V)) :
  (k' =? k) = false -> dict_get k ((k', v) :: d) = dict_get k d.
Proof. intros H. cbn [dict_get]. rewrite H. now destruct (dict_get k d). Qed.

Lemma dict_get_absent {V} (k : string) (d : list (string * V)) :
  ~ In k (map fst d) -> dict_get k d = None.
Proof.
  induction d as [|[k' v'] d IH]; [reflexivity|]. cbn [map fst In]. intros H.
  rewrite dict_get_cons_other; [apply IH; tauto|].
  apply String.eqb_neq. intros ->. apply H. now left.
Qed.

Lemma combine_snoc {A B} (l : list A) (l' : list B) (a : A) (b : B) :
  List.length l = List.length l' ->
  combine (l ++ [a]) (l' ++ [b]) = (combine l l' ++ [(a, b)])%list.
Proof.
  revert l'. induction l as [|x l IH]; intros [|y l'] H; try discriminate H.
  - reflexivity.
  - cbn [app combine]. f_equal. apply IH. now injection H.
Qed.

Lemma dict_get_find (between : VolumeGroup -> list string) (headers : list string)
    (vg : string) (vgs : list VolumeGroup) :
  NoDup (map vg_name vgs) ->
  dict_get vg (map (fun cells => (hd EmptyString cells, combine headers cells))
                   (map (vg_row between) vgs))
  = option_map (fun g => combine headers (vg_row between g)) (find_vg vg vgs).
Proof.
  unfold find_vg. induction vgs as [|g vgs IH]; [reflexivity|].
  cbn [map find]. intros N. inversion N as [|? ? Hn N']; subst.
  cbn [dict_get hd vg_row]. fold (vg_row between g).
  destruct (vg_name g =? vg) eqn:E.
  - apply String.eqb_eq in E. subst vg. rewrite dict_get_absent; [reflexivity|].
    rewrite !map_map. cbn [fst hd vg_row]. exact Hn.
  - rewrite (IH N'). now destruct (find _ vgs).
Qed.

(** X21.  The free space of a volume group.  For the table that [vgs]
    prints of volume groups with distinct names, with [VG] as the first
    header and [VFree] as the last, [vg_info(vg, 'VFree')] on what
    [_load_vg_info] stores is the free space printed in the row of [vg],
    and a [KeyError] for a name that is in no row: the lookup in the
    inventory reads the table as the listing of the host. *)
Theorem vg_free_from_table (indent : string) (between_headers : list string)
    (between : VolumeGroup -> list string) (vgs : list VolumeGroup) :
  blank indent = true -> lacks (ascii_of_nat 10) indent = true ->
  Forall (fun c => clean c = true) between_headers ->
  Forall (fun g => well_formed (vg_row between g)
                   /\ List.length (between g) = List.length between_headers) vgs ->
  NoDup (map vg_name vgs) ->
  exists d,
    vg_info_of_output
      (render_table indent
         (("VG" :: between_headers ++ ["VFree"])%list :: map (vg_row between) vgs))
    = Ok d
    /\ forall vg, vg_info_in d vg "VFree" = option_map vg_free (find_vg vg vgs).
Proof.
  intros Hi Hn Hh Hr N. eexists. split.
  - apply vgs_output_parsed; try assumption.
    + split; [reflexivity|]. constructor; [reflexivity|].
      apply Forall_app. split; [exact Hh | now repeat constructor].
    + apply Forall_forall. intros cells Hc. apply in_map_iff in Hc.
      destruct Hc as (g & <- & Hg). rewrite Forall_forall in Hr. now apply Hr.
  - intros vg. unfold vg_info_in. rewrite dict_get_find by assumption.
    destruct (find_vg vg vgs) as [g|] eqn:Fg; [|reflexivity]. cbn [option_map].
    unfold vg_row. cbn [combine].
    assert (L : List.length (between g) = List.length between_headers).
    { unfold find_vg in Fg. apply find_some in Fg. destruct Fg as (Fg & _).
      rewrite Forall_forall in Hr. now apply Hr. }
    rewrite combine_snoc by now rewrite L.
    rewrite app_comm_cons. now rewrite dict_get_last.
Qed.

(** The volume group of the sample host. *)
Lemma vg_free_from_table_witness :
  exists d,
    vg_info_of_output
      (render_table "  "
         [["VG"; "#PV"; "#LV"; "#SN"; "Attr"; "VSize"; "VFree"];
          ["vg0"; "1"; "2"; "0"; "wz--n-"; "100.00g"; "10.00g"]])
    = Ok d
    /\ forall vg, vg_info_in d vg "VFree"
                  = option_map vg_free (find_vg vg (h_vgs Sample.host)).
Proof.
  apply (@vg_free_from_table "  " ["#PV"; "#LV"; "#SN"; "Attr"; "VSize"]
           (fun _ => ["1"; "2"; "0"; "wz--n-"; "100.00g"]) (h_vgs Sample.host)).
  - reflexivity.
  - reflexivity.
  - repeat constructor.
  - repeat constructor.
  - repeat constructor. intros [].
Defined.

(* ---------------------------------------------------------------------- *)
(** ** The source directory *)








(* ---------------------------------------------------------------------- *)
(** ** A row of [virsh list --all] *)

(** [s.split()]: the words between runs of white space.  [acc] is the word
    read so far. *)
Fixpoint words_from (acc : string) (s : string) : list string :=
  match s with
  | EmptyString => if nonempty acc then [acc] else []
  | String c s' =>
      if is_space c
      then if nonempty acc then acc :: words_from EmptyString s'
           else words_from EmptyString s'
      else words_from (acc ++ String c EmptyString) s'
  end.

Definition py_words (s : string) : list string := words_from EmptyString s.

(** The name and the status that [_load_vm_info] takes from a row:
    [columns[1]] and [' '.join(columns[2:])].  A row of fewer than two
    words is an [IndexError]. *)
Definition vm_row (row : string) : result (string * string) :=
  match py_words row with
  | _ :: name :: status => Ok (name, join " " status)
  | _ => Raise IndexError
  end.

(** A word: not empty, no white space. *)
Definition word (s : string) : bool := nonempty s && solid s.

(** A gap: white space, and some of it. *)
Definition gap (s : string) : bool := nonempty s && blank s.

(** Words, each with a gap before it. *)
Fixpoint spaced (l : list (string * string)) : string :=
  match l with
  | [] => EmptyString
  | (g, w) :: l' => g ++ w ++ spaced l'
  end.

Lemma words_from_word (acc w rest : string) :
  solid w = true -> words_from acc (w ++ rest) = words_from (acc ++ w) rest.
Proof.
  revert acc. induction w as [|c w IH]; intros acc H.
  - now rewrite append_nil_l, append_nil_r.
  - cbn [solid] in H. apply andb_true_iff in H as [H1 H2].
    rewrite append_cons. cbn [words_from].
    destruct (is_space c); [discriminate H1|].
    rewrite IH by assumption. now rewrite string_app_assoc.
Qed.

Lemma words_from_blank (g rest : string) :
  blank g = true -> words_from EmptyString (g ++ rest) = words_from EmptyString rest.
Proof.
  induction g as [|c g IH]; intros H; [reflexivity|].
  cbn [blank] in H. apply andb_true_iff in H as [H1 H2].
  rewrite append_cons. cbn [words_from nonempty]. rewrite H1. now apply IH.
Qed.

Lemma words_from_gap (acc g rest : string) :
  nonempty acc = true -> gap g = true ->
  words_from acc (g ++ rest) = acc :: words_from EmptyString rest.
Proof.
  intros Ha H. unfold gap in H. apply andb_true_iff in H as [H1 H2].
  destruct g as [|c g]; [discriminate H1|].
  cbn [blank] in H2. apply andb_true_iff in H2 as [H3 H4].
  rewrite append_cons. cbn [words_from]. rewrite H3, Ha. f_equal.
  now apply words_from_blank.
Qed.

Lemma words_from_end (acc tail : string) :
  nonempty acc = true -> blank tail = true -> words_from acc tail = [acc].
Proof.
  intros Ha H. destruct tail as [|c tail]; [cbn; now rewrite Ha|].
  rewrite <- (append_nil_r (String c tail)).
  rewrite words_from_gap; [reflexivity | assumption | exact H].
Qed.

Lemma words_from_spaced (l : list (string * string)) (acc tail : string) :
  Forall (fun gw => gap (fst gw) = true /\ word (snd gw) = true) l ->
  nonempty acc = true -> blank tail = true ->
  words_from acc (spaced l ++ tail) = acc :: map snd l.
Proof.
  revert acc. induction l as [|[g w] l IH]; intros acc F Ha T.
  - rewrite append_nil_l. now apply words_from_end.
  - inversion F as [|? ? (Gg & Ww) F']; subst. cbn [fst snd] in Gg, Ww.
    unfold word in Ww. apply andb_true_iff in Ww as [Nw Sw].
    cbn [spaced map snd]. rewrite !string_app_assoc.
    rewrite words_from_gap, words_from_word, append_nil_l by assumption.
    f_equal. now apply IH.
Qed.

(** The words of a text made of gaps and words are the words. *)
Lemma py_words_spaced (lead w : string) (l : list (string * string)) (tail : string) :
  blank lead = true -> word w = true ->
  Forall (fun gw => gap (fst gw) = true /\ word (snd gw) = true) l ->
  blank tail = true ->
  py_words (lead ++ w ++ spaced l ++ tail) = w :: map snd l.
Proof.
  intros Hl Ww F T. unfold py_words, word in *. apply andb_true_iff in Ww as [Nw Sw].
  rewrite words_from_blank, words_from_word, append_nil_l by assumption.
  now apply words_from_spaced.
Qed.

(** X23.  A row of [virsh list --all].  From a row that holds the id, the
    name and the words of the status, with white space of any length
    between them and around them, [_load_vm_info] takes the name as it is
    and the status as its words with one space between them: [shut off]
    is read as [shut off] however the columns are padded. *)
Theorem vm_row_parsed (lead g1 g2 tail id name : string) (status : list (string * string)) :
  blank lead = true -> gap g1 = true -> blank tail = true ->
  word id = true -> word name = true ->
  Forall (fun gw => gap (fst gw) = true /\ word (snd gw) = true) status ->
  vm_row (lead ++ id ++ g1 ++ name ++ spaced status ++ tail)
  = Ok (name, join " " (map snd status)).
Proof.
  intros Hl H1 Ht Wi Wn Fs. unfold vm_row.
  assert (E : lead ++ id ++ g1 ++ name ++ spaced status ++ tail
              = lead ++ id ++ spaced ((g1, name) :: status) ++ tail).
  { cbn [spaced]. now rewrite !string_app_assoc. }
  rewrite E, py_words_spaced; [reflexivity | assumption | assumption | | assumption].
  constructor; [now split | exact Fs].
Qed.

(** The row of a guest that is shut off. *)
Lemma vm_row_parsed_witness :
  vm_row " -     vm2                            shut off" = Ok ("vm2", "shut off").
Proof.
  apply (@vm_row_parsed " " "     " "" "" "-" "vm2"
           [("                            ", "shut"); (" ", "off")]);
    try reflexivity.
  repeat constructor.
Defined.

(* ---------------------------------------------------------------------- *)
(** ** Defining the new guest

    [import_vm] and [clone] read [self.args.start], [self.args.autostart]
    and [self.args.live]; they are parameters here. *)
















